(** * omiGlass firmware: audio/photo pipeline, power and button control

    A shallow embedding of the control plane of the omiGlass firmware
    ([src/omiGlass/firmware/src/app.cpp], [opus_encoder.cpp], [mic.cpp])
    and the properties of its ring buffers, transport framing, power
    controller and button state machine.

    Conventions.
    - C integers are [Z]; where the code's arithmetic can wrap, the
      wrap-around is written out ([wrap32], [wrap16], [to_int8], ...).
    - A fixed array is a [list Z] indexed with stdpp's lookup and insert;
      indices are always reduced modulo the array size by the code itself.
    - Globals and function-local statics are fields of explicit state
      records; a function that notifies over the link returns what it sent.
    - Constants of [config.h] (not part of the sources at hand) are the
      fields of a [config] record that every function takes. *)

From Stdlib Require Import ZArith Lia List Bool.
From stdpp Require Import base list.
Import ListNotations.

Local Open Scope Z_scope.

(** ** Machine integers and arrays *)

Definition wrap32 (x : Z) : Z := x mod 2 ^ 32.
Definition wrap16 (x : Z) : Z := x mod 2 ^ 16.
Definition wrap8 (x : Z) : Z := x mod 2 ^ 8.

(** Conversion of a bit pattern to the signed type of the same width. *)
Definition to_signed (bits : Z) (x : Z) : Z :=
  let m := x mod 2 ^ bits in
  if m <? 2 ^ (bits - 1) then m else m - 2 ^ bits.

Definition to_int8 : Z -> Z := to_signed 8.
Definition to_int16 : Z -> Z := to_signed 16.
Definition to_int32 : Z -> Z := to_signed 32.

Definition is_int16 (x : Z) : Prop := -32768 <= x <= 32767.
Definition is_uint32 (x : Z) : Prop := 0 <= x < 2 ^ 32.
Definition is_byte (x : Z) : Prop := 0 <= x < 256.

(** [a[i]] and [a[i] = v] on an array held as a list. *)
Definition aget (a : list Z) (i : Z) : Z := default 0 (a !! Z.to_nat i).
Definition aset (a : list Z) (i : Z) (v : Z) : list Z := <[Z.to_nat i := v]> a.

(** The [n] most recent elements of a history. *)
Definition lastn {A} (n : nat) (l : list A) : list A := drop (length l - n)%nat l.

(** ** Configuration

    The constants of [config.h] that the modelled functions use. *)

Record config := mkConfig {
  AUDIO_RING_BUFFER_SAMPLES : Z;   (* slots of the PCM ring *)
  OPUS_FRAME_SAMPLES : Z;          (* samples per encoder frame *)
  OPUS_OUTPUT_MAX_BYTES : Z;       (* largest encoded packet *)
  AUDIO_TX_RING_BUFFER_SIZE : Z;   (* packets the transmit ring is sized for *)
  MIC_GAIN : Z;                    (* integer gain applied to raw samples *)
  PHOTO_CAPTURE_INTERVAL_MS : Z;   (* fixed capture interval *)
  IDLE_THRESHOLD_MS : Z;           (* idle time before power save *)
  MIN_CPU_FREQ_MHZ : Z;
  NORMAL_CPU_FREQ_MHZ : Z;
  FIXED_IMAGE_ORIENTATION : Z
}.

(** Modelled from the spec: [AUDIO_PACKET_HEADER_SIZE] of [config.h]; the
    wireless audio packet carries a 2-byte sequence number and a 1-byte
    sub-index before the payload. *)
Definition AUDIO_PACKET_HEADER_SIZE : Z := 3.

(** A configuration for the worked examples. Ring of 500 ms of 16 kHz
    audio, 20 ms frames, 30 s capture interval, 45 s idle threshold and
    the two CPU rates are the values the comments of the sources give;
    the other fields are example values. *)
Definition sample_config : config :=
  {| AUDIO_RING_BUFFER_SAMPLES := 8000;
     OPUS_FRAME_SAMPLES := 320;
     OPUS_OUTPUT_MAX_BYTES := 200;
     AUDIO_TX_RING_BUFFER_SIZE := 10;
     MIC_GAIN := 2;
     PHOTO_CAPTURE_INTERVAL_MS := 30000;
     IDLE_THRESHOLD_MS := 45000;
     MIN_CPU_FREQ_MHZ := 40;
     NORMAL_CPU_FREQ_MHZ := 80;
     FIXED_IMAGE_ORIENTATION := 2 |}.

(** A small configuration whose runs can be followed by hand: a PCM ring
    of 8 slots, packets of at most 6 bytes in a transmit ring of
    2 * (6 + 2) = 16 bytes. *)
Definition small_config : config :=
  {| AUDIO_RING_BUFFER_SAMPLES := 8;
     OPUS_FRAME_SAMPLES := 4;
     OPUS_OUTPUT_MAX_BYTES := 6;
     AUDIO_TX_RING_BUFFER_SIZE := 2;
     MIC_GAIN := 2;
     PHOTO_CAPTURE_INTERVAL_MS := 30000;
     IDLE_THRESHOLD_MS := 45000;
     MIN_CPU_FREQ_MHZ := 40;
     NORMAL_CPU_FREQ_MHZ := 80;
     FIXED_IMAGE_ORIENTATION := 2 |}.

(** ** PCM sample ring buffer ([opus_encoder.cpp]) *)

Module PcmRing.
Section WithConfig.

Variable cfg : config.

(** [pcm_ring_buffer] is [None] while it is the null pointer. *)
Record ring := mkRing {
  pcm_ring_buffer : option (list Z);
  ring_write_pos : Z;
  ring_read_pos : Z
}.

(** One pass of the [for] loop of [opus_receive_pcm]. *)
Definition push_sample (buf : list Z) (w r : Z) (x : Z) : list Z * Z * Z :=
  let next_write := (w + 1) mod AUDIO_RING_BUFFER_SAMPLES cfg in
  let r' := if next_write =? r
            then (r + 1) mod AUDIO_RING_BUFFER_SAMPLES cfg
            else r in
  (aset buf w x, next_write, r').

Fixpoint push_loop (data : list Z) (buf : list Z) (w r : Z) : list Z * Z * Z :=
  match data with
  | [] => (buf, w, r)
  | x :: rest =>
      let '(buf', w', r') := push_sample buf w r x in
      push_loop rest buf' w' r'
  end.

(** [opus_receive_pcm]: the return code and the new state. *)
Definition opus_receive_pcm (st : ring) (data : list Z) : Z * ring :=
  match pcm_ring_buffer st with
  | None => (-1, st)
  | Some buf =>
      let '(buf', w', r') :=
        push_loop data buf (ring_write_pos st) (ring_read_pos st) in
      (0, mkRing (Some buf') w' r')
  end.

(** A sequence of calls of [opus_receive_pcm]: the return codes and the
    final state. *)
Fixpoint push_all (st : ring) (pushes : list (list Z)) : list Z * ring :=
  match pushes with
  | [] => ([], st)
  | data :: rest =>
      let '(rc, st') := opus_receive_pcm st data in
      let '(rcs, st'') := push_all st' rest in
      (rc :: rcs, st'')
  end.

Definition ring_buffer_available (st : ring) : Z :=
  if ring_read_pos st <=? ring_write_pos st
  then ring_write_pos st - ring_read_pos st
  else AUDIO_RING_BUFFER_SAMPLES cfg - ring_read_pos st + ring_write_pos st.

(** The copy loop of [opus_process]: [n] samples are read out, the read
    position advancing by one slot each time. *)
Fixpoint read_samples (n : nat) (buf : list Z) (r : Z) : list Z * Z :=
  match n with
  | O => ([], r)
  | S n' =>
      let x := aget buf r in
      let '(xs, r') :=
        read_samples n' buf ((r + 1) mod AUDIO_RING_BUFFER_SAMPLES cfg) in
      (x :: xs, r')
  end.

(** Everything a consumer can read from the ring, oldest first. *)
Definition readable (st : ring) : list Z :=
  match pcm_ring_buffer st with
  | None => []
  | Some buf =>
      fst (read_samples (Z.to_nat (ring_buffer_available st)) buf (ring_read_pos st))
  end.

(** The [n] slots from position [r] on, in ring order. *)
Definition ring_view (buf : list Z) (r : Z) (n : nat) : list Z :=
  map (fun k => aget buf ((r + Z.of_nat k) mod AUDIO_RING_BUFFER_SAMPLES cfg)) (seq 0 n).

(** State after [opus_encoder_init] succeeded. *)
Definition init_ring : ring :=
  mkRing (Some (replicate (Z.to_nat (AUDIO_RING_BUFFER_SAMPLES cfg)) 0)) 0 0.

(** Well-formed states: the array is allocated with all its slots and
    both positions are inside it. *)
Definition wf (st : ring) : Prop :=
  match pcm_ring_buffer st with
  | None => False
  | Some buf =>
      Z.of_nat (length buf) = AUDIO_RING_BUFFER_SAMPLES cfg /\
      0 <= ring_write_pos st < AUDIO_RING_BUFFER_SAMPLES cfg /\
      0 <= ring_read_pos st < AUDIO_RING_BUFFER_SAMPLES cfg
  end.

End WithConfig.
End PcmRing.

(** ** Microphone read path ([mic.cpp]) *)

Module Mic.
Section WithConfig.

Variable cfg : config.

(** What [i2s_read] delivered: its status, the byte count and the
    contents of [i2s_read_buffer] afterwards. *)
Record i2s_read_result := mkI2s {
  err_ok : bool;
  bytes_read : Z;
  i2s_read_buffer : list Z
}.

(** The body of the gain loop for one sample. The product is computed
    in [int32_t]. *)
Definition gain_sample (x : Z) : Z :=
  let sample := to_int32 (to_int32 x * MIC_GAIN cfg) in
  let sample := if sample >? 32767 then 32767 else sample in
  let sample := if sample <? -32768 then -32768 else sample in
  to_int16 sample.

(** [for (i = 0; i < samples_read; i++) buf[i] = gain(buf[i])], with
    [n] passes left and [i] the current index. *)
Fixpoint gain_loop (n : nat) (i : Z) (buf : list Z) : list Z :=
  match n with
  | O => buf
  | S n' => gain_loop n' (i + 1) (aset buf i (gain_sample (aget buf i)))
  end.

(** [mic_process]: the samples handed to the audio callback, if it is
    called. *)
Definition mic_process (mic_running buffer_allocated callback_set : bool)
    (rd : i2s_read_result) : option (list Z) :=
  if negb mic_running || negb buffer_allocated then None
  else if err_ok rd && (bytes_read rd >? 0) then
    let samples_read := bytes_read rd / 2 in
    let buf :=
      if negb (MIC_GAIN cfg =? 1)
      then gain_loop (Z.to_nat samples_read) 0 (i2s_read_buffer rd)
      else i2s_read_buffer rd in
    if callback_set then Some (take (Z.to_nat samples_read) buf) else None
  else None.

End WithConfig.
End Mic.

(** ** Application state ([app.cpp])

    The globals of [app.cpp], grouped by the component that owns them. *)

Module App.

(** Link flags. [audioDataCharacteristic] is [true] when the pointer is
    not null. *)
Record link := mkLink {
  connected : bool;
  audioSubscribed : bool;
  audioDataCharacteristic : bool
}.

(** The transmit ring of encoded packets and the packet sequence
    number. *)
Record audio_tx := mkTx {
  audio_tx_buffer : list Z;
  audio_tx_write_pos : Z;
  audio_tx_read_pos : Z;
  audioPacketIndex : Z
}.

(** Photo transfer state; [fb] is the camera frame buffer in flight,
    [photo_chunks_this_loop] the static counter of [loop_app]. *)
Record photo := mkPhoto {
  photoDataUploading : bool;
  fb : option (list Z);
  sent_photo_bytes : Z;
  sent_photo_frames : Z;
  current_photo_orientation : Z;
  photo_chunks_this_loop : Z
}.

Record capture := mkCapture {
  isCapturingPhotos : bool;
  captureInterval : Z;
  lastCaptureTime : Z
}.

(** Power state. [cpu_freq_calls] records the calls of
    [setCpuFrequencyMhz], oldest first. *)
Record power := mkPower {
  lastActivity : Z;
  powerSaveMode : bool;
  lightSleepEnabled : bool;
  cpu_freq_calls : list Z
}.

Inductive led_status_t :=
| LED_BOOT_SEQUENCE
| LED_NORMAL_OPERATION
| LED_POWER_OFF_SEQUENCE.

(** Button state: the globals [buttonPressed], [buttonPressTime],
    [ledMode] and the statics of [handleButton]. *)
Record button := mkButton {
  buttonPressed : bool;
  buttonPressTime : Z;
  lastDebounceTime : Z;
  buttonDown : bool;
  longPressTriggered : bool;
  ledMode : led_status_t
}.

Section WithConfig.

Variable cfg : config.

Definition AUDIO_TX_BUFFER_SIZE : Z :=
  AUDIO_TX_RING_BUFFER_SIZE cfg * (OPUS_OUTPUT_MAX_BYTES cfg + 2).

(** *** Power management *)

Definition set_lastActivity (t : Z) (pw : power) : power :=
  mkPower t (powerSaveMode pw) (lightSleepEnabled pw) (cpu_freq_calls pw).

Definition enterPowerSave (pw : power) : power :=
  if negb (powerSaveMode pw)
  then mkPower (lastActivity pw) true (lightSleepEnabled pw)
               (cpu_freq_calls pw ++ [MIN_CPU_FREQ_MHZ cfg])
  else pw.

Definition exitPowerSave (pw : power) : power :=
  if powerSaveMode pw
  then mkPower (lastActivity pw) false (lightSleepEnabled pw)
               (cpu_freq_calls pw ++ [NORMAL_CPU_FREQ_MHZ cfg])
  else pw.

(** Step 6 of [loop_app]: the power-save evaluation. *)
Definition power_check (now : Z) (is_connected uploading : bool) (pw : power) : power :=
  if negb is_connected && negb uploading
     && (wrap32 (now - lastActivity pw) >? IDLE_THRESHOLD_MS cfg)
  then enterPowerSave pw
  else if is_connected || uploading
  then set_lastActivity now (if powerSaveMode pw then exitPowerSave pw else pw)
  else pw.

(** The power-save evaluation over successive passes of the loop, the
    connection and upload flags staying as they are. *)
Fixpoint power_run (nows : list Z) (is_connected uploading : bool) (pw : power)
    : power :=
  match nows with
  | [] => pw
  | now :: rest =>
      power_run rest is_connected uploading (power_check now is_connected uploading pw)
  end.

(** The local [timeUntilNextPhoto] of [enableLightSleep]. *)
Definition timeUntilNextPhoto (now : Z) (cap : capture) : Z :=
  if isCapturingPhotos cap && (captureInterval cap >? 0) then
    let timeSinceLastPhoto := wrap32 (now - lastCaptureTime cap) in
    if timeSinceLastPhoto <? wrap32 (captureInterval cap)
    then wrap32 (captureInterval cap - timeSinceLastPhoto)
    else 0
  else 0.

(** [enableLightSleep]. [now] is the first [millis()], [wake] the one
    read after the sleep. The result carries the argument given to
    [esp_sleep_enable_timer_wakeup] (microseconds) when the device
    sleeps. *)
Definition enableLightSleep (now wake : Z) (lk : link) (uploading : bool)
    (cap : capture) (pw : power) : power * option Z :=
  if negb (lightSleepEnabled pw) || negb (connected lk) || uploading
  then (pw, None)
  else if wrap32 (now - lastActivity pw) <? 5000 then (pw, None)
  else
    let t := timeUntilNextPhoto now cap in
    if t >? 10000 then
      let sleepTime := wrap32 (t - 5000) in
      let sleepTime := if sleepTime >? 15000 then 15000 else sleepTime in
      (set_lastActivity wake pw, Some (wrap32 (sleepTime * 1000)))
    else (pw, None).

(** *** Button *)

(** [handleButton]; [now] is [millis()], [pressed] the inverted pin
    reading. The two debounce [return]s leave everything as it is. *)
Definition handleButton (now : Z) (pressed : bool) (b : button) (pw : power)
    : button * power :=
  let clear (b' : button) :=
    mkButton false (buttonPressTime b') (lastDebounceTime b') (buttonDown b')
             (longPressTriggered b') (ledMode b') in
  if pressed && negb (buttonDown b) then
    if wrap32 (now - lastDebounceTime b) <? 50 then (b, pw)
    else (clear (mkButton (buttonPressed b) now now true false (ledMode b)), pw)
  else if pressed && buttonDown b && negb (longPressTriggered b) then
    let pressDuration := wrap32 (now - buttonPressTime b) in
    if pressDuration >=? 2000
    then (clear (mkButton (buttonPressed b) (buttonPressTime b) (lastDebounceTime b)
                          (buttonDown b) true LED_POWER_OFF_SEQUENCE), pw)
    else (clear b, pw)
  else if negb pressed && buttonDown b then
    if wrap32 (now - lastDebounceTime b) <? 50 then (b, pw)
    else
      let pressDuration := wrap32 (now - buttonPressTime b) in
      let pw' :=
        if negb (longPressTriggered b) && (pressDuration >=? 50)
        then
          let pw1 := set_lastActivity now pw in
          if powerSaveMode pw1 then exitPowerSave pw1 else pw1
        else pw in
      (clear (mkButton (buttonPressed b) (buttonPressTime b) now false false
                       (ledMode b)), pw')
  else (clear b, pw).

(** [handleButton] over successive passes of the loop, each with its
    clock reading and pin state. *)
Fixpoint button_run (inputs : list (Z * bool)) (b : button) (pw : power)
    : button * power :=
  match inputs with
  | [] => (b, pw)
  | (now, pressed) :: rest =>
      let '(b1, pw1) := handleButton now pressed b pw in
      button_run rest b1 pw1
  end.

(** *** Photo control *)

(** [handlePhotoControl]; [controlValue] is an [int8_t], [now] the
    value of [millis()]. *)
Definition handlePhotoControl (now : Z) (controlValue : Z) (cap : capture) : capture :=
  if controlValue =? -1 then mkCapture true 0 (lastCaptureTime cap)
  else if controlValue =? 0 then mkCapture false 0 (lastCaptureTime cap)
  else if (controlValue >=? 5) && (controlValue <=? 300) then
    let interval := PHOTO_CAPTURE_INTERVAL_MS cfg in
    mkCapture true interval (wrap32 (now - interval))
  else cap.

(** [PhotoControlCallback::onWrite]: [value] is what the client wrote
    (handled only when it is one byte long), read as [int8_t]. [t0] and
    [now] are the two successive readings of [millis()]. *)
Definition PhotoControl_onWrite (t0 now : Z) (value : list Z) (cap : capture)
    (pw : power) : capture * power :=
  match value with
  | [byte] =>
      let received := to_int8 byte in
      (handlePhotoControl now received cap, set_lastActivity t0 pw)
  | _ => (cap, pw)
  end.

(** *** Audio transmit ring *)

Definition set_tx_read_pos (r : Z) (tx : audio_tx) : audio_tx :=
  mkTx (audio_tx_buffer tx) (audio_tx_write_pos tx) r (audioPacketIndex tx).

(** The payload loop of [onOpusEncoded]:
    [buf[(w + 2 + i) % SIZE] = data[i]] for the bytes from index [i] on. *)
Fixpoint store_payload (data : list Z) (i : Z) (w : Z) (buf : list Z) : list Z :=
  match data with
  | [] => buf
  | d :: rest =>
      store_payload rest (i + 1) w
        (aset buf ((w + 2 + i) mod AUDIO_TX_BUFFER_SIZE) d)
  end.

(** The admission test of [onOpusEncoded]: [true] when the packet is
    dropped as not fitting. *)
Definition tx_overflow (w r next_write : Z) : bool :=
  ((w <? r) && (next_write >=? r))
  || ((w >=? r) && (next_write <? w) && (next_write >=? r)).

(** [onOpusEncoded]: publish one encoded packet of [len = length data]
    bytes. *)
Definition onOpusEncoded (data : list Z) (tx : audio_tx) : audio_tx :=
  let len := Z.of_nat (length data) in
  if len >? OPUS_OUTPUT_MAX_BYTES cfg then tx
  else
    let w := audio_tx_write_pos tx in
    let r := audio_tx_read_pos tx in
    let packet_size := len + 2 in
    let next_write := (w + packet_size) mod AUDIO_TX_BUFFER_SIZE in
    if tx_overflow w r next_write then tx
    else
      let b0 := aset (audio_tx_buffer tx) w (Z.land len 255) in
      let b1 := aset b0 ((w + 1) mod AUDIO_TX_BUFFER_SIZE)
                     (Z.land (Z.shiftr len 8) 255) in
      let b2 := store_payload data 0 w b1 in
      mkTx b2 next_write r (audioPacketIndex tx).

(** [broadcastAudioPacket]: the new state and the notifications sent
    (none or one). The packet buffer holds the three header bytes and,
    from offset [AUDIO_PACKET_HEADER_SIZE] on, the payload. *)
Definition broadcastAudioPacket (lk : link) (data : list Z) (tx : audio_tx)
    : audio_tx * list (list Z) :=
  if negb (connected lk) || negb (audioSubscribed lk)
     || negb (audioDataCharacteristic lk)
  then (tx, [])
  else
    let idx := audioPacketIndex tx in
    let audio_packet_buffer :=
      [Z.land idx 255; Z.land (Z.shiftr idx 8) 255; 0] ++ data in
    let packet :=
      take (Z.to_nat (Z.of_nat (length data) + AUDIO_PACKET_HEADER_SIZE))
           audio_packet_buffer in
    (mkTx (audio_tx_buffer tx) (audio_tx_write_pos tx) (audio_tx_read_pos tx)
          (wrap16 (idx + 1)),
     [packet]).

(** Successive calls of [broadcastAudioPacket], each with the link
    flags it finds and the payload it is given. *)
Fixpoint broadcast_all (calls : list (link * list Z)) (tx : audio_tx)
    : audio_tx * list (list Z) :=
  match calls with
  | [] => (tx, [])
  | (lk, data) :: rest =>
      let '(tx1, sent) := broadcastAudioPacket lk data tx in
      let '(tx2, more) := broadcast_all rest tx1 in
      (tx2, sent ++ more)
  end.

(** The copy into [temp_data] in [processAudioTx]:
    [temp_data[i] = buf[(r + 2 + i) % SIZE]] for [n] bytes from [i] on. *)
Fixpoint load_payload (n : nat) (i : Z) (r : Z) (buf : list Z) : list Z :=
  match n with
  | O => []
  | S n' =>
      aget buf ((r + 2 + i) mod AUDIO_TX_BUFFER_SIZE)
      :: load_payload n' (i + 1) r buf
  end.

(** The [while] loop of [processAudioTx], with [fuel] bounding the
    number of passes; [None] when the fuel runs out first. *)
Fixpoint drain (fuel : nat) (lk : link) (tx : audio_tx)
    : option (audio_tx * list (list Z)) :=
  if audio_tx_read_pos tx =? audio_tx_write_pos tx then Some (tx, [])
  else
    match fuel with
    | O => None
    | S fuel' =>
        let r := audio_tx_read_pos tx in
        let buf := audio_tx_buffer tx in
        let len :=
          Z.lor (aget buf r)
                (Z.shiftl (aget buf ((r + 1) mod AUDIO_TX_BUFFER_SIZE)) 8) in
        if (len =? 0) || (len >? OPUS_OUTPUT_MAX_BYTES cfg) then
          drain fuel' lk (set_tx_read_pos ((r + 2) mod AUDIO_TX_BUFFER_SIZE) tx)
        else
          let temp_data := load_payload (Z.to_nat len) 0 r buf in
          let tx1 :=
            set_tx_read_pos ((r + 2 + len) mod AUDIO_TX_BUFFER_SIZE) tx in
          let '(tx2, sent) := broadcastAudioPacket lk temp_data tx1 in
          match drain fuel' lk tx2 with
          | Some (tx3, rest) => Some (tx3, sent ++ rest)
          | None => None
          end
    end.

Definition processAudioTx (fuel : nat) (lk : link) (tx : audio_tx)
    : option (audio_tx * list (list Z)) :=
  if negb (connected lk) || negb (audioSubscribed lk) then Some (tx, [])
  else if negb (audioDataCharacteristic lk) then Some (tx, [])
  else drain fuel lk tx.

(** State of the ring at boot: a zeroed array, both positions 0. *)
Definition init_tx : audio_tx :=
  mkTx (replicate (Z.to_nat AUDIO_TX_BUFFER_SIZE) 0) 0 0 0.

(** *** Photo transfer *)

(** The header of a data chunk: the first one carries the orientation
    after two zero bytes, the later ones the chunk index, low byte
    first. *)
Definition chunk_header (frames orientation : Z) : list Z :=
  if frames =? 0
  then [0; 0; wrap8 orientation]
  else [Z.land frames 255; Z.land (Z.shiftr frames 8) 255].

(** The payload bytes a data chunk can take. *)
Definition chunk_capacity (frames : Z) : Z :=
  if frames =? 0 then 199 else 200.

(** Section 9 of [loop_app]: at most one notification on the photo
    characteristic per pass. Returns the photo state, the power state
    (the activity clock) and the notifications sent. *)
Definition photo_transfer (now : Z) (lk : link) (tx : audio_tx)
    (ph : photo) (pw : power) : photo * power * list (list Z) :=
  match fb ph with
  | Some img =>
      if photoDataUploading ph && (photo_chunks_this_loop ph <? 2) then
        let chunks :=
          if audioSubscribed lk
             && negb (audio_tx_read_pos tx =? audio_tx_write_pos tx)
          then 0
          else photo_chunks_this_loop ph + 1 in
        let sent := sent_photo_bytes ph in
        let frames := sent_photo_frames ph in
        let remaining := wrap32 (Z.of_nat (length img) - sent) in
        if remaining >? 0 then
          let bytes_to_copy :=
            if remaining >? chunk_capacity frames
            then chunk_capacity frames
            else remaining in
          let payload := take (Z.to_nat bytes_to_copy) (drop (Z.to_nat sent) img) in
          (mkPhoto true (Some img) (wrap32 (sent + bytes_to_copy))
                   (wrap32 (frames + 1)) (current_photo_orientation ph) chunks,
           set_lastActivity now pw,
           [chunk_header frames (current_photo_orientation ph) ++ payload])
        else
          (mkPhoto false None sent frames (current_photo_orientation ph) 0,
           pw,
           [[255; 255]])
      else
        (mkPhoto (photoDataUploading ph) (fb ph) (sent_photo_bytes ph)
                 (sent_photo_frames ph) (current_photo_orientation ph) 0,
         pw, [])
  | None =>
      (mkPhoto (photoDataUploading ph) (fb ph) (sent_photo_bytes ph)
               (sent_photo_frames ph) (current_photo_orientation ph) 0,
       pw, [])
  end.

(** What a pass of the loop shows to section 9: the time, the link
    flags and the transmit ring. *)
Record pass_env := mkEnv {
  env_now : Z;
  env_link : link;
  env_tx : audio_tx
}.

(** Section 9 over successive passes of the loop, collecting what is
    notified on the photo characteristic. *)
Fixpoint photo_run (envs : list pass_env) (ph : photo) (pw : power)
    : photo * power * list (list Z) :=
  match envs with
  | [] => (ph, pw, [])
  | e :: rest =>
      let '(ph1, pw1, out1) :=
        photo_transfer (env_now e) (env_link e) (env_tx e) ph pw in
      let '(ph2, pw2, out2) := photo_run rest ph1 pw1 in
      (ph2, pw2, out1 ++ out2)
  end.

(** [take_photo]: [shot] is what [esp_camera_fb_get] returns, [t] the
    value of [millis()] after the capture. *)
Definition take_photo (shot : option (list Z)) (t : Z) (ph : photo) (pw : power)
    : bool * photo * power :=
  match shot with
  | None =>
      (false,
       mkPhoto (photoDataUploading ph) None (sent_photo_bytes ph)
               (sent_photo_frames ph) (current_photo_orientation ph)
               (photo_chunks_this_loop ph),
       pw)
  | Some img =>
      (true,
       mkPhoto (photoDataUploading ph) (Some img) (sent_photo_bytes ph)
               (sent_photo_frames ph) (FIXED_IMAGE_ORIENTATION cfg)
               (photo_chunks_this_loop ph),
       set_lastActivity t pw)
  end.

(** Section 8 of [loop_app]: the capture-interval check. *)
Definition capture_check (now : Z) (shot : option (list Z)) (t : Z) (lk : link)
    (cap : capture) (ph : photo) (pw : power) : capture * photo * power :=
  if isCapturingPhotos cap && negb (photoDataUploading ph) && connected lk then
    if (captureInterval cap =? 0)
       || (wrap32 (now - lastCaptureTime cap) >=? wrap32 (captureInterval cap))
    then
      let cap1 :=
        if captureInterval cap =? 0
        then mkCapture false (captureInterval cap) (lastCaptureTime cap)
        else cap in
      let '(ok, ph1, pw1) := take_photo shot t ph pw in
      if ok
      then (mkCapture (isCapturingPhotos cap1) (captureInterval cap1) now,
            mkPhoto true (fb ph1) 0 0 (current_photo_orientation ph1)
                    (photo_chunks_this_loop ph1),
            pw1)
      else (cap1, ph1, pw1)
    else (cap, ph, pw)
  else (cap, ph, pw).

(** *** Status LED ([updateLED]) *)

(** The statics of [updateLED]: the start of the boot animation and of
    the shutdown animation, 0 while not started. *)
Record led := mkLed {
  bootStartTime : Z;
  powerOffStartTime : Z
}.

(** [updateLED]; [now] is [millis()]. Beside the statics and the LED
    mode the result has the level written to [STATUS_LED_PIN] ([true]
    is HIGH, which turns the LED off) and whether the call went on to
    [shutdownDevice]. *)
Definition updateLED (now : Z) (is_connected : bool) (mode : led_status_t) (s : led)
    : led * led_status_t * bool * bool :=
  match mode with
  | LED_BOOT_SEQUENCE =>
      let start := if bootStartTime s =? 0 then now else bootStartTime s in
      if wrap32 (now - start) <? 1500 then
        let blinkPhase := (wrap32 (now - start) / 150) mod 2 in
        (mkLed start (powerOffStartTime s), LED_BOOT_SEQUENCE, blinkPhase =? 0, false)
      else
        (mkLed 0 (powerOffStartTime s), LED_NORMAL_OPERATION, true, false)
  | LED_POWER_OFF_SEQUENCE =>
      let start := if powerOffStartTime s =? 0 then now else powerOffStartTime s in
      if wrap32 (now - start) <? 800 then
        let blinkPhase := (wrap32 (now - start) / 200) mod 2 in
        (mkLed (bootStartTime s) start, LED_POWER_OFF_SEQUENCE, blinkPhase =? 0, false)
      else
        (mkLed (bootStartTime s) start, LED_POWER_OFF_SEQUENCE, true, true)
  | LED_NORMAL_OPERATION =>
      if is_connected then (s, LED_NORMAL_OPERATION, false, false)
      else
        let blinkPhase := (now / 1000) mod 2 in
        (s, LED_NORMAL_OPERATION, negb (blinkPhase =? 0), false)
  end.

Definition set_ledMode (mode : led_status_t) (b : button) : button :=
  mkButton (buttonPressed b) (buttonPressTime b) (lastDebounceTime b)
           (buttonDown b) (longPressTriggered b) mode.

(** *** One pass of the scheduler loop

    The globals and statics of the modelled components. *)
Record app := mkApp {
  a_button : button;
  a_link : link;
  a_tx : audio_tx;
  a_photo : photo;
  a_capture : capture;
  a_power : power;
  a_led : led
}.

(** The callbacks the BLE stack runs in its own task: connection and
    disconnection ([ServerHandler]), a write to the audio CCCD
    ([AudioCCCDCallback]) and a write to the photo control
    characteristic ([PhotoControlCallback]); the times are the values
    of [millis()] they read. *)
Inductive ble_event :=
| ServerOnConnect (t : Z)
| ServerOnDisconnect
| AudioCccdWrite (value : list Z)
| PhotoControlWrite (t0 now : Z) (value : list Z).

Definition ble_callback (ev : ble_event) (st : app) : app :=
  match ev with
  | ServerOnConnect t =>
      mkApp (a_button st)
            (mkLink true false (audioDataCharacteristic (a_link st)))
            (a_tx st) (a_photo st) (a_capture st)
            (set_lastActivity t (a_power st)) (a_led st)
  | ServerOnDisconnect =>
      mkApp (a_button st)
            (mkLink false false (audioDataCharacteristic (a_link st)))
            (a_tx st) (a_photo st) (a_capture st) (a_power st) (a_led st)
  | AudioCccdWrite value =>
      match value with
      | v0 :: _ :: _ =>
          mkApp (a_button st)
                (mkLink (connected (a_link st))
                        (negb (Z.land v0 1 =? 0))
                        (audioDataCharacteristic (a_link st)))
                (a_tx st) (a_photo st) (a_capture st) (a_power st) (a_led st)
      | _ => st
      end
  | PhotoControlWrite t0 now value =>
      let '(cap, pw) :=
        PhotoControl_onWrite t0 now value (a_capture st) (a_power st) in
      mkApp (a_button st) (a_link st) (a_tx st) (a_photo st) cap pw (a_led st)
  end.

(** The callbacks that run, one after the other, at some point of a
    pass. *)
Definition apply_events (evs : list ble_event) (st : app) : app :=
  fold_left (fun s ev => ble_callback ev s) evs st.

(** The clock readings a callback makes. *)
Definition event_times (ev : ble_event) : list Z :=
  match ev with
  | ServerOnConnect t => [t]
  | ServerOnDisconnect => []
  | AudioCccdWrite _ => []
  | PhotoControlWrite t0 now _ => [t0; now]
  end.

(** The BLE task runs beside the loop, so its callbacks can arrive at
    any point of a pass. They are taken at the boundaries between the
    sections that read or write the globals the callbacks write: before
    the LED update, before the audio transmission, before the
    power-save evaluation, before the capture check, before the photo
    transfer, before the light sleep, and during the delay that closes
    the pass. Callbacks arriving before section 1 count to the pass
    before. *)
Record ble_schedule := mkSchedule {
  before_led : list ble_event;
  before_audio_tx : list ble_event;
  before_power : list ble_event;
  before_capture : list ble_event;
  before_photo : list ble_event;
  before_sleep : list ble_event;
  before_return : list ble_event
}.

Definition no_events : ble_schedule := mkSchedule [] [] [] [] [] [] [].

(** What an iteration takes from outside: the clock at its start, the
    clock and the pin as [handleButton] reads them, the clock as
    [updateLED] reads it, the packets the encoder produced in section
    4, the BLE callbacks that arrive while the pass is under way, the
    camera's answer should a capture be due, and the later clock
    readings (after capture, on entry to [enableLightSleep], after
    wake-up). The OTA poll and the battery task touch none of the
    globals above. *)
Record loop_input := mkInput {
  in_now : Z;
  in_button_now : Z;
  in_pressed : bool;
  in_led_now : Z;
  in_encoded : list (list Z);
  in_ble_events : ble_schedule;
  in_shot : option (list Z);
  in_capture_time : Z;
  in_sleep_now : Z;
  in_wake_time : Z;
  in_fuel : nat
}.

(** What one iteration did outside: the level written to the LED pin,
    the audio notifications, the photo notifications, and the
    light-sleep timer if it slept. *)
Record loop_output := mkOutput {
  out_led : bool;
  out_audio : list (list Z);
  out_photo : list (list Z);
  out_sleep : option Z
}.

(** How a pass ends: it returns; or [updateLED] goes on to
    [shutdownDevice], which does not return (the state is the one it
    leaves, [pin] the level [updateLED] wrote); or the fuel of
    [processAudioTx] runs out. *)
Inductive pass_result :=
| Returned (st : app) (out : loop_output)
| ShutDown (st : app) (pin : bool)
| OutOfFuel.

(** Section 1: [handleButton]. *)
Definition button_section (inp : loop_input) (st : app) : app :=
  let '(btn, pw) :=
    handleButton (in_button_now inp) (in_pressed inp) (a_button st) (a_power st) in
  mkApp btn (a_link st) (a_tx st) (a_photo st) (a_capture st) pw (a_led st).

(** Section 2: [updateLED], with the level written and whether it shuts
    the device down. *)
Definition led_section (inp : loop_input) (st : app) : app * bool * bool :=
  let '(led1, mode1, pin, off) :=
    updateLED (in_led_now inp) (connected (a_link st)) (ledMode (a_button st))
              (a_led st) in
  (mkApp (set_ledMode mode1 (a_button st)) (a_link st) (a_tx st) (a_photo st)
         (a_capture st) (a_power st) led1,
   pin, off).

(** What [shutdownDevice] does to the globals before the deep sleep. *)
Definition shutdownDevice (st : app) : app :=
  mkApp (a_button st) (a_link st) (a_tx st) (a_photo st)
        (mkCapture false (captureInterval (a_capture st))
                   (lastCaptureTime (a_capture st)))
        (a_power st) (a_led st).

(** Section 4: the output of the encoder reaches the ring through
    [onOpusEncoded]. *)
Definition encoder_section (inp : loop_input) (st : app) : app :=
  mkApp (a_button st) (a_link st)
        (fold_left (fun tx pkt => onOpusEncoded pkt tx) (in_encoded inp) (a_tx st))
        (a_photo st) (a_capture st) (a_power st) (a_led st).

(** Section 5: audio transmission. *)
Definition audio_tx_section (inp : loop_input) (st : app)
    : option (app * list (list Z)) :=
  if connected (a_link st) && audioSubscribed (a_link st) then
    match processAudioTx (in_fuel inp) (a_link st) (a_tx st) with
    | Some (tx1, audio) =>
        Some (mkApp (a_button st) (a_link st) tx1 (a_photo st) (a_capture st)
                    (a_power st) (a_led st),
              audio)
    | None => None
    end
  else Some (st, []).

(** Section 6: power-save evaluation. *)
Definition power_section (inp : loop_input) (st : app) : app :=
  mkApp (a_button st) (a_link st) (a_tx st) (a_photo st) (a_capture st)
        (power_check (in_now inp) (connected (a_link st))
                     (photoDataUploading (a_photo st)) (a_power st))
        (a_led st).

(** Section 8: capture-interval check. *)
Definition capture_section (inp : loop_input) (st : app) : app :=
  let '(cap, ph, pw) :=
    capture_check (in_now inp) (in_shot inp) (in_capture_time inp) (a_link st)
                  (a_capture st) (a_photo st) (a_power st) in
  mkApp (a_button st) (a_link st) (a_tx st) ph cap pw (a_led st).

(** Section 9: photo chunk transfer. *)
Definition photo_section (inp : loop_input) (st : app) : app * list (list Z) :=
  let '(ph, pw, chunks) :=
    photo_transfer (in_now inp) (a_link st) (a_tx st) (a_photo st) (a_power st) in
  (mkApp (a_button st) (a_link st) (a_tx st) ph (a_capture st) pw (a_led st), chunks).

(** Section 10: opportunistic light sleep. *)
Definition sleep_section (inp : loop_input) (st : app) : app * option Z :=
  if negb (photoDataUploading (a_photo st)) && negb (audioSubscribed (a_link st)) then
    let '(pw, slept) :=
      enableLightSleep (in_sleep_now inp) (in_wake_time inp) (a_link st)
                       (photoDataUploading (a_photo st)) (a_capture st) (a_power st) in
    (mkApp (a_button st) (a_link st) (a_tx st) (a_photo st) (a_capture st) pw (a_led st),
     slept)
  else (st, None).

(** [loop_app]: the sections in their order, with the callbacks of the
    BLE task between them. The callbacks touch neither the transmit
    ring nor what section 4 reads, so those arriving around section 4
    are taken after it. *)
Definition loop_app (inp : loop_input) (st : app) : pass_result :=
  let ev := in_ble_events inp in
  let st1 := apply_events (before_led ev) (button_section inp st) in
  let '(st2, pin, off) := led_section inp st1 in
  if off then ShutDown (shutdownDevice st2) pin
  else
    let st3 := apply_events (before_audio_tx ev) (encoder_section inp st2) in
    match audio_tx_section inp st3 with
    | None => OutOfFuel
    | Some (st4, audio) =>
        let st5 := power_section inp (apply_events (before_power ev) st4) in
        let st6 := capture_section inp (apply_events (before_capture ev) st5) in
        let '(st7, chunks) := photo_section inp (apply_events (before_photo ev) st6) in
        let '(st8, slept) := sleep_section inp (apply_events (before_sleep ev) st7) in
        Returned (apply_events (before_return ev) st8) (mkOutput pin audio chunks slept)
    end.

End WithConfig.
End App.

(** ** Data for the worked examples *)

(** An image of 450 bytes, byte [k] holding [k mod 256]. *)
Definition image_450 : list Z := map (fun k => Z.of_nat k mod 256) (seq 0 450).

(** A pass of the loop with audio idle, and one with a packet waiting in
    the transmit ring. *)
Definition audio_idle_env : App.pass_env :=
  App.mkEnv 1000 (App.mkLink true true true) (App.mkTx [] 0 0 0).

Definition audio_pending_env : App.pass_env :=
  App.mkEnv 1000 (App.mkLink true true true) (App.mkTx [] 5 0 0).

(** A transmit ring of [small_config] in which a record was stored across
    the read position. *)
Definition overrun_ring : App.audio_tx :=
  App.mkTx [34; 12; 13; 6; 0; 21; 22; 23; 24; 25; 26; 4; 0; 31; 32; 33] 1 14 2.

(** ** Further components

    The rest of the pipeline: the queue of framed records the transmit
    ring holds, the frame loop of the encoder adapter, button and LED
    over successive passes, the battery smoothing and the command
    handler of the OTA module. *)

(** *** The transmit ring as a queue *)

Module TxQueue.
Section WithConfig.

Variable cfg : config.

(** A record as [onOpusEncoded] lays it out: the length, low byte first,
    then the payload. *)
Definition frame (data : list Z) : list Z :=
  [Z.land (Z.of_nat (length data)) 255;
   Z.land (Z.shiftr (Z.of_nat (length data)) 8) 255] ++ data.

(** [bytes] stored from offset [pos] on, each index reduced modulo the
    size of the ring. *)
Fixpoint write_block (bytes : list Z) (pos : Z) (buf : list Z) : list Z :=
  match bytes with
  | [] => buf
  | b :: rest =>
      write_block rest (pos + 1) (aset buf (pos mod App.AUDIO_TX_BUFFER_SIZE cfg) b)
  end.

(** The [n] bytes from offset [r] on, in ring order. *)
Definition tx_view (buf : list Z) (r : Z) (n : nat) : list Z :=
  map (fun k => aget buf ((r + Z.of_nat k) mod App.AUDIO_TX_BUFFER_SIZE cfg)) (seq 0 n).

(** The unread bytes: the distance from read to write position. *)
Definition tx_used (tx : App.audio_tx) : Z :=
  (App.audio_tx_write_pos tx - App.audio_tx_read_pos tx) mod App.AUDIO_TX_BUFFER_SIZE cfg.

(** Bytes that can be written before the write position would reach the
    read position. *)
Definition tx_free (tx : App.audio_tx) : Z :=
  (App.audio_tx_read_pos tx - App.audio_tx_write_pos tx - 1) mod App.AUDIO_TX_BUFFER_SIZE cfg.

(** The ring holds the packets [q], oldest first: the array has its full
    size, both positions are inside it, and the unread bytes are the
    records of [q] one after the other. *)
Definition holds (tx : App.audio_tx) (q : list (list Z)) : Prop :=
  Z.of_nat (length (App.audio_tx_buffer tx)) = App.AUDIO_TX_BUFFER_SIZE cfg /\
  0 <= App.audio_tx_write_pos tx < App.AUDIO_TX_BUFFER_SIZE cfg /\
  0 <= App.audio_tx_read_pos tx < App.AUDIO_TX_BUFFER_SIZE cfg /\
  tx_view (App.audio_tx_buffer tx) (App.audio_tx_read_pos tx) (Z.to_nat (tx_used tx))
  = concat (map frame q) /\
  Forall (fun d => Z.of_nat (length d) <= OPUS_OUTPUT_MAX_BYTES cfg) q.

(** The packets the drain loop sends: those with at least one byte. *)
Definition sendable (q : list (list Z)) : list (list Z) :=
  List.filter (fun d => negb (Nat.eqb (length d) 0)) q.

End WithConfig.
End TxQueue.

(** *** The frame loop of the encoder adapter ([opus_encoder.cpp]) *)

Module Encoder.
Section WithConfig.

Variable cfg : config.

(** The [while] loop of [opus_process]: while a whole frame is unread,
    [OPUS_FRAME_SAMPLES] samples are copied out and handed to
    [opus_encode_frame]. The result is the frames handed over, oldest
    first, and the read position at the end; [fuel] bounds the number of
    passes, [None] when it runs out first. A frame size that is not
    positive is outside this model. *)
Fixpoint frame_loop (fuel : nat) (buf : list Z) (w r : Z)
    : option (list (list Z) * Z) :=
  if PcmRing.ring_buffer_available cfg (PcmRing.mkRing (Some buf) w r)
     >=? OPUS_FRAME_SAMPLES cfg
  then
    match fuel with
    | O => None
    | S fuel' =>
        let '(frame, r') :=
          PcmRing.read_samples cfg (Z.to_nat (OPUS_FRAME_SAMPLES cfg)) buf r in
        match frame_loop fuel' buf w r' with
        | Some (frames, r'') => Some (frame :: frames, r'')
        | None => None
        end
    end
  else Some ([], r).

(** [opus_process]; [encoder_ready] and [input_allocated] say that
    [encoder] and [opus_input_buffer] are not null. *)
Definition opus_process (fuel : nat) (encoder_ready input_allocated : bool)
    (st : PcmRing.ring) : option (list (list Z) * PcmRing.ring) :=
  match PcmRing.pcm_ring_buffer st with
  | Some buf =>
      if encoder_ready && input_allocated then
        match frame_loop fuel buf (PcmRing.ring_write_pos st) (PcmRing.ring_read_pos st) with
        | Some (frames, r') =>
            Some (frames, PcmRing.mkRing (Some buf) (PcmRing.ring_write_pos st) r')
        | None => None
        end
      else Some ([], st)
  | None => Some ([], st)
  end.

(** Section 4 of [loop_app]: when audio is enabled and the microphone
    runs, [mic_process] hands what it read to [onMicData], which passes
    it to [opus_receive_pcm], and [opus_process] takes the whole frames
    out of the ring. [buffer_allocated] says that [i2s_read_buffer] is
    not null. [setup_app] starts the microphone only after the encoder
    has been initialised, and installs both callbacks. *)
Definition audio_section (fuel : nat) (audioEnabled mic_running buffer_allocated : bool)
    (rd : Mic.i2s_read_result) (st : PcmRing.ring)
    : option (list (list Z) * PcmRing.ring) :=
  if audioEnabled && mic_running then
    let st1 :=
      match Mic.mic_process cfg mic_running buffer_allocated true rd with
      | Some samples => snd (PcmRing.opus_receive_pcm cfg st samples)
      | None => st
      end in
    opus_process fuel true true st1
  else Some ([], st).

End WithConfig.
End Encoder.

(** *** Button and status LED over successive passes *)

Module Led.
Section WithConfig.

Variable cfg : config.

(** The readings of one pass of the loop in its sections 1 and 2: the
    clock and the pin as [handleButton] reads them, the link flag and
    the clock as [updateLED] reads them. *)
Record ui_input := mkUi {
  ui_button_now : Z;
  ui_pressed : bool;
  ui_connected : bool;
  ui_led_now : Z
}.

Record ui_state := mkUiState {
  ui_button : App.button;
  ui_power : App.power;
  ui_led : App.led
}.

(** Sections 1 and 2 of [loop_app] over successive passes, up to the
    pass in which [updateLED] shuts the device down: the state reached,
    the levels written to the LED pin, and whether the device shut
    down. *)
Fixpoint ui_run (inputs : list ui_input) (st : ui_state)
    : ui_state * list bool * bool :=
  match inputs with
  | [] => (st, [], false)
  | i :: rest =>
      let '(b1, pw1) :=
        App.handleButton cfg (ui_button_now i) (ui_pressed i) (ui_button st) (ui_power st) in
      let '(s1, mode1, pin, off) :=
        App.updateLED (ui_led_now i) (ui_connected i) (App.ledMode b1) (ui_led st) in
      let st1 := mkUiState (App.set_ledMode mode1 b1) pw1 s1 in
      if off then (st1, [pin], true)
      else
        let '(st2, pins, off2) := ui_run rest st1 in
        (st2, pin :: pins, off2)
  end.

End WithConfig.
End Led.

(** *** Battery percentage ([readBatteryLevel], [updateBatteryService]) *)

Module Battery.

(** The smoothing and the clamp at the end of [readBatteryLevel].
    [raw] is the percentage the function has computed from the measured
    voltage (that part is floating-point and is not modelled); [last]
    is the static [lastBatteryPercentage], [None] before the first
    call, which initialises it with its own [raw]. The result is the
    static and [batteryPercentage] as the call leaves them. The [int]
    arithmetic is written without wrap-around: the values are
    percentages. *)
Definition smooth (raw : Z) (last : option Z) : option Z * Z :=
  let lastBatteryPercentage := match last with Some l => l | None => raw end in
  let p :=
    if Z.abs (raw - lastBatteryPercentage) >? 5
    then lastBatteryPercentage + (if raw >? lastBatteryPercentage then 2 else -2)
    else raw in
  let clamped := if p >? 100 then 100 else p in
  let clamped := if clamped <? 0 then 0 else clamped in
  (Some p, clamped).

(** Successive calls of [readBatteryLevel]: the values they leave in
    [batteryPercentage], and the static at the end. *)
Fixpoint battery_run (raws : list Z) (last : option Z) : list Z * option Z :=
  match raws with
  | [] => ([], last)
  | raw :: rest =>
      let '(last1, p) := smooth raw last in
      let '(ps, last2) := battery_run rest last1 in
      (p :: ps, last2)
  end.

(** [updateBatteryService]: the byte stored in the battery-level
    characteristic, if there is one, and whether it is notified. *)
Definition updateBatteryService (characteristic connected : bool) (batteryPercentage : Z)
    : option Z * bool :=
  if characteristic then (Some (wrap8 batteryPercentage), connected)
  else (None, false).

(** A percentage. *)
Definition percent (x : Z) : Prop := 0 <= x <= 100.

End Battery.

(** *** Commands of the firmware updater ([ota.cpp]) *)

Module Ota.

(** The limits [ota.cpp] takes from [config.h], and the default of the
    second parameter of [ota_notify_status], declared in [ota.h]. *)
Record limits := mkLimits {
  WIFI_MAX_SSID_LEN : Z;
  WIFI_MAX_PASS_LEN : Z;
  OTA_MAX_URL_LEN : Z;
  default_progress : Z
}.

(** The limits as the comments of [ota.cpp] give them. *)
Definition sample_limits : limits := mkLimits 32 64 256 0.

(** The command and status codes as the comments of
    [ota_handle_command] and [ota_notify_status] list them. *)
Definition OTA_CMD_SET_WIFI : Z := 1.
Definition OTA_CMD_START_OTA : Z := 2.
Definition OTA_CMD_CANCEL_OTA : Z := 3.
Definition OTA_CMD_GET_STATUS : Z := 4.
Definition OTA_CMD_SET_URL : Z := 5.
Definition OTA_STATUS_IDLE : Z := 0.
Definition OTA_STATUS_ERROR : Z := 255.

(** The statics of [ota.cpp]; the three [char] arrays hold their bytes,
    [otaDataCharacteristic] is [true] when the pointer is not null. *)
Record ota := mkOta {
  otaStatus : Z;
  otaProgress : Z;
  otaCancelled : bool;
  wifiSSID : list Z;
  wifiPassword : list Z;
  wifiCredentialsSet : bool;
  firmwareURL : list Z;
  firmwareURLSet : bool;
  otaTaskRunning : bool;
  otaDataCharacteristic : bool
}.

(** [memcpy(dst, src, n)] followed by [dst[n] = '\0'], for [n] bytes
    that [src] has. *)
Definition store_string (dst src : list Z) (n : Z) : list Z :=
  aset (take (Z.to_nat n) src ++ drop (Z.to_nat n) dst) n 0.

(** The C string an array holds: its bytes up to the first NUL. *)
Fixpoint cstring (a : list Z) : list Z :=
  match a with
  | [] => []
  | c :: rest => if c =? 0 then [] else c :: cstring rest
  end.

Section WithLimits.

Variable lim : limits.

(** [ota_notify_status]: the new state and the notifications sent
    (none or one, as status and progress). *)
Definition ota_notify_status (status progress : Z) (s : ota) : ota * list (Z * Z) :=
  (mkOta status progress (otaCancelled s) (wifiSSID s) (wifiPassword s)
         (wifiCredentialsSet s) (firmwareURL s) (firmwareURLSet s)
         (otaTaskRunning s) (otaDataCharacteristic s),
   if otaDataCharacteristic s then [(status, progress)] else []).

Definition ota_cancel (s : ota) : ota :=
  if otaTaskRunning s
  then mkOta (otaStatus s) (otaProgress s) true (wifiSSID s) (wifiPassword s)
             (wifiCredentialsSet s) (firmwareURL s) (firmwareURLSet s)
             (otaTaskRunning s) (otaDataCharacteristic s)
  else s.

(** [ota_handle_command] on the bytes of [data]: the new state, the
    notifications sent, and whether [xTaskCreate] was called for
    [ota_task]. *)
Definition ota_handle_command (data : list Z) (s : ota) : ota * list (Z * Z) * bool :=
  let len := Z.of_nat (length data) in
  let error (s' : ota) :=
    (ota_notify_status OTA_STATUS_ERROR (default_progress lim) s', false) in
  match data with
  | [] => (s, [], false)
  | command :: _ =>
      if command =? OTA_CMD_SET_WIFI then
        if len <? 3 then error s
        else
          let ssidLen := aget data 1 in
          if (ssidLen >? WIFI_MAX_SSID_LEN lim) || (len <? 3 + ssidLen) then error s
          else
            let s1 :=
              mkOta (otaStatus s) (otaProgress s) (otaCancelled s)
                    (store_string (wifiSSID s) (drop 2 data) ssidLen)
                    (wifiPassword s) (wifiCredentialsSet s) (firmwareURL s)
                    (firmwareURLSet s) (otaTaskRunning s) (otaDataCharacteristic s) in
            let passLen := aget data (2 + ssidLen) in
            if (passLen >? WIFI_MAX_PASS_LEN lim) || (len <? 3 + ssidLen + passLen)
            then error s1
            else
              let s2 :=
                mkOta (otaStatus s1) (otaProgress s1) (otaCancelled s1) (wifiSSID s1)
                      (store_string (wifiPassword s1)
                                    (drop (Z.to_nat (3 + ssidLen)) data) passLen)
                      true (firmwareURL s1) (firmwareURLSet s1)
                      (otaTaskRunning s1) (otaDataCharacteristic s1) in
              (ota_notify_status OTA_STATUS_IDLE (default_progress lim) s2, false)
      else if command =? OTA_CMD_SET_URL then
        if len <? 4 then error s
        else
          let urlLen := wrap16 (Z.lor (Z.shiftl (aget data 1) 8) (aget data 2)) in
          if (urlLen >? OTA_MAX_URL_LEN lim) || (len <? 3 + urlLen) then error s
          else
            let s1 :=
              mkOta (otaStatus s) (otaProgress s) (otaCancelled s) (wifiSSID s)
                    (wifiPassword s) (wifiCredentialsSet s)
                    (store_string (firmwareURL s) (drop 3 data) urlLen)
                    true (otaTaskRunning s) (otaDataCharacteristic s) in
            (ota_notify_status OTA_STATUS_IDLE (default_progress lim) s1, false)
      else if command =? OTA_CMD_START_OTA then
        if negb (wifiCredentialsSet s) then error s
        else if negb (firmwareURLSet s) then error s
        else if otaTaskRunning s then (s, [], false)
        else
          (mkOta (otaStatus s) (otaProgress s) false (wifiSSID s) (wifiPassword s)
                 (wifiCredentialsSet s) (firmwareURL s) (firmwareURLSet s)
                 true (otaDataCharacteristic s),
           [], true)
      else if command =? OTA_CMD_CANCEL_OTA then (ota_cancel s, [], false)
      else if command =? OTA_CMD_GET_STATUS then
        (ota_notify_status (otaStatus s) (otaProgress s) s, false)
      else error s
  end.

(** [OTAControlCallback::onWrite] over the successive writes of the
    client, with no [ota_task] ending meanwhile: the state, all the
    notifications, and the number of tasks created. *)
Fixpoint ota_run (writes : list (list Z)) (s : ota) : ota * list (Z * Z) * nat :=
  match writes with
  | [] => (s, [], 0%nat)
  | data :: rest =>
      let '(s1, sent, created) := ota_handle_command data s in
      let '(s2, more, n) := ota_run rest s1 in
      (s2, sent ++ more, ((if created then 1 else 0) + n)%nat)
  end.

(** The statics as the file initialises them. *)
Definition init_ota (characteristic : bool) : ota :=
  mkOta OTA_STATUS_IDLE 0 false
        (replicate (Z.to_nat (WIFI_MAX_SSID_LEN lim + 1)) 0)
        (replicate (Z.to_nat (WIFI_MAX_PASS_LEN lim + 1)) 0)
        false
        (replicate (Z.to_nat (OTA_MAX_URL_LEN lim + 1)) 0)
        false false characteristic.

(** The command layouts of the comment of [ota_handle_command], for a
    name and a password, and for a URL. *)
Definition set_wifi_command (ssid pass : list Z) : list Z :=
  [OTA_CMD_SET_WIFI; Z.of_nat (length ssid)] ++ ssid
  ++ [Z.of_nat (length pass)] ++ pass.

Definition set_url_command (url : list Z) : list Z :=
  [OTA_CMD_SET_URL; Z.shiftr (Z.of_nat (length url)) 8;
   Z.land (Z.of_nat (length url)) 255] ++ url.

(** The arrays have the sizes of their declarations. *)
Definition sized (s : ota) : Prop :=
  Z.of_nat (length (wifiSSID s)) = WIFI_MAX_SSID_LEN lim + 1 /\
  Z.of_nat (length (wifiPassword s)) = WIFI_MAX_PASS_LEN lim + 1 /\
  Z.of_nat (length (firmwareURL s)) = OTA_MAX_URL_LEN lim + 1.

End WithLimits.
End Ota.

(** *** Invariants of the button and of the photo session *)

(** While a press is being held, the debounce timestamp is the time the
    press was accepted. *)
Definition press_latched (b : App.button) : Prop :=
  App.buttonDown b = true -> App.lastDebounceTime b = App.buttonPressTime b.

(** While a photo is being uploaded, its frame buffer is held and the
    count of bytes sent lies within it. *)
Definition session_ok (ph : App.photo) : Prop :=
  App.photoDataUploading ph = true ->
  exists img,
    App.fb ph = Some img /\
    Z.of_nat (length img) < 2 ^ 32 /\
    0 <= App.sent_photo_bytes ph <= Z.of_nat (length img).

(** ** Data for the worked examples of the further components *)

(** A transmit ring of [small_config] holding the records [7; 8; 9] and
    [4; 5], and the state and input of a pass of the loop that streams
    from it while the encoder adds the packet [1]. *)
Definition queued_ring : App.audio_tx :=
  App.mkTx [3; 0; 7; 8; 9; 2; 0; 4; 5; 0; 0; 0; 0; 0; 0; 0] 9 0 0.


Definition streaming_input : App.loop_input :=
  App.mkInput 1000 1000 false 1000 [[1]] App.no_events None 1000 1000 1000 3.

(** The button held since the long press fired, with the animation not
    yet started, and the state at boot. *)
Definition shutting_down_ui : Led.ui_state :=
  Led.mkUiState (App.mkButton false 1000 1000 true true App.LED_POWER_OFF_SEQUENCE)
                (App.mkPower 500 false true [])
                (App.mkLed 0 0).

Definition booting_ui : Led.ui_state :=
  Led.mkUiState (App.mkButton false 0 0 false false App.LED_BOOT_SEQUENCE)
                (App.mkPower 0 false true [])
                (App.mkLed 0 0).

(** A connected client with an upload of [image_450] under way, and a
    connected client that neither streams nor uploads, captures every
    30 s, and has been idle in power save since boot. *)
Definition uploading_app : App.app :=
  App.mkApp (App.mkButton false 0 0 false false App.LED_NORMAL_OPERATION)
            (App.mkLink true true true)
            queued_ring
            (App.mkPhoto true (Some image_450) 199 1 2 0)
            (App.mkCapture true 30000 900)
            (App.mkPower 0 false true [])
            (App.mkLed 0 0).

Definition idle_app : App.app :=
  App.mkApp (App.mkButton false 0 0 false false App.LED_NORMAL_OPERATION)
            (App.mkLink true false true)
            (App.init_tx small_config)
            (App.mkPhoto false None 0 0 0 0)
            (App.mkCapture true 30000 900)
            (App.mkPower 0 true true [40])
            (App.mkLed 0 0).

Definition idle_input : App.loop_input :=
  App.mkInput 10000 10000 false 10001 [] App.no_events None 10002 10003 10003 1.

(** * Properties *)

(** ** Lists and arrays *)

Lemma lastn_length {A} n (l : list A) : length (lastn n l) = Nat.min n (length l).
Proof. unfold lastn. rewrite length_drop. lia. Qed.

Lemma lastn_all {A} n (l : list A) : (length l <= n)%nat -> lastn n l = l.
Proof. intros H. unfold lastn. replace (length l - n)%nat with 0%nat by lia. reflexivity. Qed.

Lemma lastn_app_lastn {A} n (l m : list A) : lastn n (lastn n l ++ m) = lastn n (l ++ m).
Proof.
  destruct (le_lt_dec (length l) n) as [Hle | Hgt].
  - now rewrite (lastn_all n l).
  - unfold lastn at 1 3. rewrite !length_app, lastn_length.
    unfold lastn.
    set (k := (length l - n)%nat).
    replace (length l + length m - n)%nat with (k + (Nat.min n (length l) + length m - n))%nat by lia.
    rewrite <- drop_drop. f_equal.
    rewrite drop_app_le by lia. reflexivity.
Qed.

Lemma lastn_app_ge {A} n (l m : list A) : (n <= length m)%nat -> lastn n (l ++ m) = lastn n m.
Proof.
  intros H. unfold lastn. rewrite length_app.
  replace (length l + length m - n)%nat with (length l + (length m - n))%nat by lia.
  rewrite drop_app_add. reflexivity.
Qed.

Lemma aget_aset_eq buf i v : 0 <= i < Z.of_nat (length buf) -> aget (aset buf i v) i = v.
Proof.
  intros H. unfold aget, aset. rewrite list_lookup_insert_eq by lia. reflexivity.
Qed.

Lemma aget_aset_ne buf i j v : 0 <= i -> 0 <= j -> i <> j -> aget (aset buf i v) j = aget buf j.
Proof.
  intros Hi Hj H. unfold aget, aset. rewrite list_lookup_insert_ne by lia. reflexivity.
Qed.

Lemma aset_length buf i v : length (aset buf i v) = length buf.
Proof. unfold aset. apply length_insert. Qed.

Section PcmRingFacts.
Import PcmRing.
Variable cfg : config.
Local Notation "'CAP'" := (AUDIO_RING_BUFFER_SAMPLES cfg).

Lemma ring_view_length buf r n : length (ring_view cfg buf r n) = n.
Proof. unfold ring_view. now rewrite length_map, length_seq. Qed.

Lemma ring_view_snoc buf r n :
  ring_view cfg buf r (S n) = ring_view cfg buf r n ++ [aget buf ((r + Z.of_nat n) mod CAP)].
Proof. unfold ring_view. rewrite seq_S, map_app. reflexivity. Qed.

Lemma ring_view_cons buf r n :
  ring_view cfg buf r (S n) = aget buf (r mod CAP) :: ring_view cfg buf ((r + 1) mod CAP) n.
Proof.
  unfold ring_view. simpl. rewrite Z.add_0_r. f_equal.
  rewrite <- seq_shift, map_map. apply map_ext. intros k.
  f_equal. rewrite Zplus_mod_idemp_l. f_equal. lia.
Qed.

Lemma ring_view_aset buf r n w x :
  0 <= w -> 0 < CAP ->
  (forall k, (k < n)%nat -> (r + Z.of_nat k) mod CAP <> w) ->
  ring_view cfg (aset buf w x) r n = ring_view cfg buf r n.
Proof.
  intros Hw Hc H. unfold ring_view. apply map_ext_in. intros k Hk.
  apply in_seq in Hk. apply aget_aset_ne; auto.
  - pose proof (Z.mod_pos_bound (r + Z.of_nat k) CAP Hc). lia.
  - intros E. apply (H k); [lia | auto].
Qed.

Lemma read_samples_view n : forall buf r,
  0 <= r < CAP ->
  fst (read_samples cfg n buf r) = ring_view cfg buf r n.
Proof.
  induction n as [|n IH]; intros buf r Hr; [reflexivity|].
  rewrite ring_view_cons. simpl.
  specialize (IH buf ((r + 1) mod CAP)).
  destruct (read_samples cfg n buf ((r + 1) mod CAP)) as [xs r'] eqn:E.
  simpl in *. rewrite Z.mod_small by lia. f_equal. apply IH.
  apply Z.mod_pos_bound. lia.
Qed.

Lemma readable_view buf w r :
  0 <= r < CAP ->
  readable cfg (mkRing (Some buf) w r)
  = ring_view cfg buf r (Z.to_nat (ring_buffer_available cfg (mkRing (Some buf) w r))).
Proof. intros Hr. unfold readable. simpl. now apply read_samples_view. Qed.

(** The unread count is the distance from read to write position. *)
Lemma available_mod buf w r :
  0 <= w < CAP -> 0 <= r < CAP ->
  ring_buffer_available cfg (mkRing (Some buf) w r) = (w - r) mod CAP.
Proof.
  intros Hw Hr. unfold ring_buffer_available. simpl.
  destruct (Z.leb_spec r w).
  - rewrite Z.mod_small; lia.
  - replace (w - r) with (CAP - r + w + (-1) * CAP) by lia.
    rewrite Z_mod_plus_full. rewrite Z.mod_small; lia.
Qed.
End PcmRingFacts.

Lemma mod_once c x : 0 < c -> 0 <= x < 2 * c -> x mod c = if x <? c then x else x - c.
Proof.
  intros Hc Hx. destruct (Z.ltb_spec x c).
  - apply Z.mod_small. lia.
  - replace x with (x - c + 1 * c) by lia. rewrite Z_mod_plus_full.
    rewrite Z.mod_small; lia.
Qed.

Section PcmRingFacts2.
Import PcmRing.
Variable cfg : config.
Local Notation "'CAP'" := (AUDIO_RING_BUFFER_SAMPLES cfg).

Lemma push_sample_readable buf w r x :
  Z.of_nat (length buf) = CAP -> 0 <= w < CAP -> 0 <= r < CAP ->
  forall buf' w' r', push_sample cfg buf w r x = (buf', w', r') ->
  wf cfg (mkRing (Some buf') w' r') /\
  readable cfg (mkRing (Some buf') w' r')
  = lastn (Z.to_nat (CAP - 1)) (readable cfg (mkRing (Some buf) w r) ++ [x]).
Proof.
  intros Hlen Hw Hr buf' w' r' E.
  assert (Hc : 0 < CAP) by lia.
  unfold push_sample in E.
  assert (Hnext : (w + 1) mod CAP = if w + 1 <? CAP then w + 1 else w + 1 - CAP)
    by (apply mod_once; lia).
  assert (Hrn : (r + 1) mod CAP = if r + 1 <? CAP then r + 1 else r + 1 - CAP)
    by (apply mod_once; lia).
  assert (Hview : forall k, 0 <= k < CAP ->
            (r + k) mod CAP = if r + k <? CAP then r + k else r + k - CAP)
    by (intros; apply mod_once; lia).
  destruct ((w + 1) mod CAP =? r) eqn:Efull; inversion E; subst buf' w' r'; clear E.
  - (* full: the oldest sample goes *)
    apply Z.eqb_eq in Efull.
    assert (Hr' : 0 <= (r + 1) mod CAP < CAP) by (apply Z.mod_pos_bound; lia).
    split.
    { unfold wf; simpl. rewrite aset_length. rewrite Efull. lia. }
    rewrite Efull.
    rewrite !(readable_view cfg) by lia.
    unfold ring_buffer_available; simpl.
    destruct (Z.eq_dec CAP 1) as [E1 | N1].
    + assert (r = 0) by lia. assert (w = 0) by lia. subst r w.
      rewrite E1. reflexivity.
    + assert (Ea : (if r <=? w then w - r else CAP - r + w) = CAP - 1).
      { destruct (Z.leb_spec r w); destruct (Z.ltb_spec (w + 1) CAP); lia. }
      assert (Ea' : (if (r + 1) mod CAP <=? r then r - (r + 1) mod CAP
                     else CAP - (r + 1) mod CAP + r) = CAP - 1).
      { rewrite Hrn. destruct (Z.ltb_spec (r + 1) CAP);
          [destruct (Z.leb_spec (r + 1) r) | destruct (Z.leb_spec (r + 1 - CAP) r)]; lia. }
      rewrite Ea, Ea'.
      replace (Z.to_nat (CAP - 1)) with (S (Z.to_nat (CAP - 2))) by lia.
      set (n := Z.to_nat (CAP - 2)).
      rewrite (ring_view_cons cfg buf r n).
      rewrite (ring_view_snoc cfg _ _ n).
      assert (Elast : ((r + 1) mod CAP + Z.of_nat n) mod CAP = w).
      { rewrite Zplus_mod_idemp_l. unfold n.
        replace (r + 1 + Z.of_nat (Z.to_nat (CAP - 2))) with (r + (CAP - 1)) by lia.
        rewrite Hview by lia.
        destruct (Z.ltb_spec (r + (CAP - 1)) CAP); destruct (Z.ltb_spec (w + 1) CAP); lia. }
      rewrite Elast, aget_aset_eq by lia.
      rewrite ring_view_aset; [| lia | lia |].
      * unfold lastn. rewrite length_app. simpl. rewrite ring_view_length.
        replace (n + 1 - n)%nat with 1%nat by lia. reflexivity.
      * intros k Hk. rewrite Zplus_mod_idemp_l.
        replace (r + 1 + Z.of_nat k) with (r + (1 + Z.of_nat k)) by lia.
        rewrite Hview by lia.
        destruct (Z.ltb_spec (r + (1 + Z.of_nat k)) CAP);
          destruct (Z.ltb_spec (w + 1) CAP); lia.
  - (* room left: the sample is appended *)
    apply Z.eqb_neq in Efull.
    assert (Hw' : 0 <= (w + 1) mod CAP < CAP) by (apply Z.mod_pos_bound; lia).
    split.
    { unfold wf; simpl. rewrite aset_length. lia. }
    rewrite !(readable_view cfg) by lia.
    unfold ring_buffer_available; simpl.
    set (a := if r <=? w then w - r else CAP - r + w).
    assert (Ha : 0 <= a < CAP - 1).
    { unfold a. rewrite Hnext in Efull.
      destruct (Z.leb_spec r w); destruct (Z.ltb_spec (w + 1) CAP); lia. }
    assert (Ea' : (if r <=? (w + 1) mod CAP then (w + 1) mod CAP - r
                   else CAP - r + (w + 1) mod CAP) = a + 1).
    { unfold a. rewrite Hnext in *.
      destruct (Z.ltb_spec (w + 1) CAP);
        [destruct (Z.leb_spec r (w + 1)) | destruct (Z.leb_spec r (w + 1 - CAP))];
        destruct (Z.leb_spec r w); lia. }
    rewrite Ea'.
    replace (Z.to_nat (a + 1)) with (S (Z.to_nat a)) by lia.
    rewrite ring_view_snoc.
    assert (Elast : (r + Z.of_nat (Z.to_nat a)) mod CAP = w).
    { rewrite Z2Nat.id by lia. rewrite Hview by lia. unfold a.
      destruct (Z.leb_spec r w);
        [destruct (Z.ltb_spec (r + (w - r)) CAP)
        | destruct (Z.ltb_spec (r + (CAP - r + w)) CAP)]; lia. }
    rewrite Elast, aget_aset_eq by lia.
    rewrite ring_view_aset; [| lia | lia |].
    + rewrite lastn_all; [reflexivity|].
      rewrite length_app, ring_view_length. simpl. lia.
    + intros k Hk. rewrite Hview by lia. unfold a in *.
      destruct (Z.ltb_spec (r + Z.of_nat k) CAP); destruct (Z.leb_spec r w); lia.
Qed.
End PcmRingFacts2.

Section PcmRingFacts3.
Import PcmRing.
Variable cfg : config.
Local Notation "'CAP'" := (AUDIO_RING_BUFFER_SAMPLES cfg).

Lemma available_bounds buf w r :
  0 <= w < CAP -> 0 <= r < CAP ->
  0 <= ring_buffer_available cfg (mkRing (Some buf) w r) <= CAP - 1.
Proof.
  intros Hw Hr. unfold ring_buffer_available; simpl.
  destruct (Z.leb_spec r w); lia.
Qed.

Lemma readable_length st :
  wf cfg st -> length (readable cfg st) = Z.to_nat (ring_buffer_available cfg st).
Proof.
  destruct st as [[buf|] w r]; unfold wf; simpl; [|intros []]. intros (Hl & Hw & Hr).
  rewrite readable_view by lia. apply ring_view_length.
Qed.

Lemma push_loop_readable data : forall buf w r buf' w' r',
  wf cfg (mkRing (Some buf) w r) ->
  push_loop cfg data buf w r = (buf', w', r') ->
  wf cfg (mkRing (Some buf') w' r') /\
  readable cfg (mkRing (Some buf') w' r')
  = lastn (Z.to_nat (CAP - 1)) (readable cfg (mkRing (Some buf) w r) ++ data).
Proof.
  induction data as [|x rest IH]; intros buf w r buf' w' r' Hwf E.
  - simpl in E. inversion E; subst. split; [assumption|].
    rewrite app_nil_r, lastn_all; [reflexivity|].
    rewrite readable_length by assumption.
    destruct Hwf as (Hl & Hw & Hr). simpl in *.
    pose proof (available_bounds buf' w' r' Hw Hr). lia.
  - cbn [push_loop] in E.
    destruct (push_sample cfg buf w r x) as [[b1 w1] r1] eqn:E1.
    destruct Hwf as (Hl & Hw & Hr). cbn [ring_write_pos ring_read_pos] in Hw, Hr.
    destruct (push_sample_readable cfg buf w r x Hl Hw Hr _ _ _ E1) as [Hwf1 Hr1].
    destruct (IH _ _ _ _ _ _ Hwf1 E) as [Hwf2 Hr2].
    split; [assumption|].
    rewrite Hr2, Hr1, lastn_app_lastn, <- app_assoc. reflexivity.
Qed.

Lemma opus_receive_pcm_readable st data :
  wf cfg st ->
  fst (opus_receive_pcm cfg st data) = 0 /\
  wf cfg (snd (opus_receive_pcm cfg st data)) /\
  readable cfg (snd (opus_receive_pcm cfg st data))
  = lastn (Z.to_nat (CAP - 1)) (readable cfg st ++ data).
Proof.
  destruct st as [[buf|] w r]; [|intros []]. intros Hwf.
  unfold opus_receive_pcm. simpl.
  destruct (push_loop cfg data buf w r) as [[b' w'] r'] eqn:E. simpl.
  split; [reflexivity|]. eapply push_loop_readable; eauto.
Qed.

Lemma push_all_readable pushes : forall st,
  wf cfg st ->
  Forall (fun rc => rc = 0) (fst (push_all cfg st pushes)) /\
  wf cfg (snd (push_all cfg st pushes)) /\
  readable cfg (snd (push_all cfg st pushes))
  = lastn (Z.to_nat (CAP - 1)) (readable cfg st ++ concat pushes).
Proof.
  induction pushes as [|data rest IH]; intros st Hwf.
  - simpl. split; [constructor|]. split; [assumption|].
    rewrite app_nil_r, lastn_all; [reflexivity|].
    rewrite readable_length by assumption.
    destruct st as [[buf|] w r]; [|destruct Hwf].
    destruct Hwf as (Hl & Hw & Hr). simpl in *.
    pose proof (available_bounds buf w r Hw Hr). lia.
  - simpl.
    destruct (opus_receive_pcm_readable st data Hwf) as (Hrc & Hwf1 & Hr1).
    destruct (opus_receive_pcm cfg st data) as [rc st1]. simpl in *.
    destruct (IH st1 Hwf1) as (Hrcs & Hwf2 & Hr2).
    destruct (push_all cfg st1 rest) as [rcs st2]. simpl in *.
    split; [constructor; assumption|]. split; [assumption|].
    rewrite Hr2, Hr1, lastn_app_lastn, <- app_assoc. reflexivity.
Qed.

(** C3 (as amended). Once the ring is allocated and has more than one
    slot, any sequence of pushes with more samples in total than the
    ring has slots succeeds ([opus_receive_pcm] returns 0 every time)
    and leaves exactly [AUDIO_RING_BUFFER_SAMPLES - 1] samples readable:
    the most recent ones, oldest first. A further push into the full
    ring discards the oldest unread sample and appends the new one. *)
Theorem pcm_ring_keeps_most_recent st pushes :
  wf cfg st ->
  1 < CAP ->
  Z.of_nat (length (concat pushes)) > CAP ->
  let st' := snd (push_all cfg st pushes) in
  Forall (fun rc => rc = 0) (fst (push_all cfg st pushes)) /\
  ring_buffer_available cfg st' = CAP - 1 /\
  readable cfg st' = lastn (Z.to_nat (CAP - 1)) (concat pushes) /\
  forall x,
    fst (opus_receive_pcm cfg st' [x]) = 0 /\
    readable cfg (snd (opus_receive_pcm cfg st' [x])) = drop 1 (readable cfg st') ++ [x].
Proof.
  intros Hwf Hc Htotal st'.
  destruct (push_all_readable pushes st Hwf) as (Hrcs & Hwf' & Hr).
  fold st' in Hwf', Hr.
  assert (Hr' : readable cfg st' = lastn (Z.to_nat (CAP - 1)) (concat pushes)).
  { rewrite Hr. apply lastn_app_ge. lia. }
  assert (Hlen : length (readable cfg st') = Z.to_nat (CAP - 1)).
  { rewrite Hr', lastn_length. lia. }
  split; [assumption|]. split.
  { pose proof (readable_length st' Hwf') as Hl. rewrite Hlen in Hl.
    destruct st' as [[buf|] w r]; [|destruct Hwf'].
    destruct Hwf' as (? & Hw & Hrr). simpl in *.
    pose proof (available_bounds buf w r Hw Hrr). lia. }
  split; [assumption|].
  intros x.
  destruct (opus_receive_pcm_readable st' [x] Hwf') as (Hrc & _ & Hrx).
  split; [assumption|]. rewrite Hrx.
  unfold lastn. rewrite length_app, Hlen. simpl.
  replace (Z.to_nat (CAP - 1) + 1 - Z.to_nat (CAP - 1))%nat with 1%nat by lia.
  rewrite drop_app_le; [reflexivity|]. rewrite Hlen. lia.
Qed.
End PcmRingFacts3.

Lemma pcm_ring_keeps_most_recent_witness :
  let st' := snd (PcmRing.push_all small_config (PcmRing.init_ring small_config)
                                   [[1; 2; 3; 4; 5]; [6; 7; 8; 9]]) in
  PcmRing.ring_buffer_available small_config st' = 7 /\
  PcmRing.readable small_config st' = [3; 4; 5; 6; 7; 8; 9].
Proof.
  assert (Hwf : PcmRing.wf small_config (PcmRing.init_ring small_config))
    by (vm_compute; repeat split; discriminate).
  assert (Hcap : 1 < AUDIO_RING_BUFFER_SAMPLES small_config) by reflexivity.
  assert (Htot : Z.of_nat (length (concat [[1; 2; 3; 4; 5]; [6; 7; 8; 9]]))
                 > AUDIO_RING_BUFFER_SAMPLES small_config) by reflexivity.
  destruct (pcm_ring_keeps_most_recent small_config _ _ Hwf Hcap Htot)
    as (_ & Ha & Hr & _).
  split; [exact Ha | exact Hr].
Defined.

(** C3 as stated fails: with 8 slots and 9 samples pushed, 7 samples are
    readable, not 8; the ring keeps one slot open to tell full from
    empty. *)
Lemma pcm_ring_capacity_counterexample :
  let cfg := small_config in
  let data := [1; 2; 3; 4; 5; 6; 7; 8; 9] in
  let st := snd (PcmRing.opus_receive_pcm cfg (PcmRing.init_ring cfg) data) in
  Z.of_nat (length data) > AUDIO_RING_BUFFER_SAMPLES cfg /\
  PcmRing.ring_buffer_available cfg st = 7 /\
  PcmRing.readable cfg st = [3; 4; 5; 6; 7; 8; 9] /\
  PcmRing.readable cfg st <> lastn 8 data.
Proof. vm_compute. repeat split; discriminate. Qed.

(** Before [opus_encoder_init] the buffer pointer is null and a push is
    refused with -1. *)
Example opus_receive_pcm_unallocated :
  PcmRing.opus_receive_pcm small_config (PcmRing.mkRing None 0 0) [1; 2]
  = (-1, PcmRing.mkRing None 0 0).
Proof. reflexivity. Qed.

(** The same overflow at the size of the device's ring: 8001 samples
    pushed into 8000 slots leave 7999 readable. *)
Example pcm_ring_device_size :
  PcmRing.ring_buffer_available sample_config
    (snd (PcmRing.opus_receive_pcm sample_config (PcmRing.init_ring sample_config)
            (map Z.of_nat (seq 1 8001)))) = 7999.
Proof. vm_compute. reflexivity. Qed.


(** ** Microphone gain *)

Lemma to_int32_id x : - 2 ^ 31 <= x < 2 ^ 31 -> to_int32 x = x.
Proof.
  intros H. unfold to_int32, to_signed.
  change (2 ^ (32 - 1)) with (2 ^ 31). 
  destruct (Z_lt_le_dec x 0) as [Hneg | Hpos].
  - replace (x mod 2 ^ 32) with (x + 2 ^ 32).
    + destruct (Z.ltb_spec (x + 2 ^ 32) (2 ^ 31)); lia.
    + replace x with (x + 2 ^ 32 + (-1) * 2 ^ 32) at 2 by lia.
      rewrite Z_mod_plus_full, Z.mod_small; lia.
  - rewrite Z.mod_small by lia.
    destruct (Z.ltb_spec x (2 ^ 31)); lia.
Qed.

Lemma to_int16_id x : - 32768 <= x <= 32767 -> to_int16 x = x.
Proof.
  intros H. unfold to_int16, to_signed.
  change (2 ^ (16 - 1)) with 32768. change (2 ^ 16) with 65536.
  destruct (Z_lt_le_dec x 0) as [Hneg | Hpos].
  - replace (x mod 65536) with (x + 65536).
    + destruct (Z.ltb_spec (x + 65536) 32768); lia.
    + replace x with (x + 65536 + (-1) * 65536) at 2 by lia.
      rewrite Z_mod_plus_full, Z.mod_small; lia.
  - rewrite Z.mod_small by lia.
    destruct (Z.ltb_spec x 32768); lia.
Qed.

Section MicFacts.
Import Mic.
Variable cfg : config.
Local Notation "'GAIN'" := (MIC_GAIN cfg).

(** With a gain whose product with any 16-bit sample fits 32 bits, one
    pass of the gain loop is the exact product, saturated. *)
Lemma gain_sample_saturates x :
  -65535 <= GAIN <= 65536 -> is_int16 x ->
  gain_sample cfg x = Z.max (-32768) (Z.min 32767 (x * GAIN)).
Proof.
  intros Hg Hx. unfold is_int16 in Hx. unfold gain_sample.
  rewrite (to_int32_id x) by lia.
  rewrite (to_int32_id (x * GAIN)) by nia.
  destruct (Z.gtb_spec (x * GAIN) 32767).
  - change (32767 <? -32768) with false. cbv iota.
    rewrite to_int16_id by lia. lia.
  - destruct (Z.ltb_spec (x * GAIN) (-32768)).
    + rewrite to_int16_id by lia. lia.
    + rewrite to_int16_id by lia. lia.
Qed.

Lemma gain_loop_lookup n : forall i buf (k : nat),
  0 <= i ->
  gain_loop cfg n i buf !! k
  = if decide (Z.to_nat i <= k < Z.to_nat i + n)%nat
    then gain_sample cfg <$> buf !! k
    else buf !! k.
Proof.
  induction n as [|n IH]; intros i buf k Hi; simpl.
  - destruct (decide _); [lia | reflexivity].
  - rewrite IH by lia. unfold aset, aget.
    replace (Z.to_nat (i + 1)) with (S (Z.to_nat i)) by lia.
    destruct (decide (k = Z.to_nat i)) as [-> | Hne].
    + destruct (decide (S (Z.to_nat i) <= Z.to_nat i < S (Z.to_nat i) + n)%nat); [lia|].
      destruct (decide (Z.to_nat i <= Z.to_nat i < Z.to_nat i + S n)%nat); [|lia].
      destruct (buf !! Z.to_nat i) as [y|] eqn:E.
      * rewrite list_lookup_insert_eq; [reflexivity|].
        apply lookup_lt_Some in E. exact E.
      * rewrite list_insert_ge; [now rewrite E|].
        apply lookup_ge_None in E. exact E.
    + rewrite list_lookup_insert_ne by lia.
      destruct (decide (S (Z.to_nat i) <= k < S (Z.to_nat i) + n)%nat);
        destruct (decide (Z.to_nat i <= k < Z.to_nat i + S n)%nat);
        try reflexivity; lia.
Qed.

Lemma gain_loop_take n buf :
  take n (gain_loop cfg n 0 buf) = map (gain_sample cfg) (take n buf).
Proof.
  apply list_eq. intros k.
  change (map (gain_sample cfg) (take n buf)) with (gain_sample cfg <$> take n buf).
  rewrite list_lookup_fmap.
  destruct (decide (k < n)%nat) as [Hk | Hk].
  - rewrite !lookup_take_lt by lia. rewrite gain_loop_lookup by lia.
    destruct (decide _); [reflexivity | lia].
  - rewrite !lookup_take_ge by lia. reflexivity.
Qed.

(** C10. With a gain other than 1 (and small enough for the 32-bit
    product of the gain with a 16-bit sample), every sample handed to
    the audio callback is the raw sample times the gain, saturated to
    [-32768, 32767]: nothing wraps around. *)
Theorem mic_gain_saturates (rd : i2s_read_result) :
  GAIN <> 1 ->
  -65535 <= GAIN <= 65536 ->
  Forall is_int16 (i2s_read_buffer rd) ->
  err_ok rd = true ->
  0 < bytes_read rd ->
  mic_process cfg true true true rd
  = Some (map (fun x => Z.max (-32768) (Z.min 32767 (x * GAIN)))
              (take (Z.to_nat (bytes_read rd / 2)) (i2s_read_buffer rd))).
Proof.
  intros Hne Hg Hall Hok Hbytes. unfold mic_process. simpl.
  rewrite Hok. destruct (Z.gtb_spec (bytes_read rd) 0); [|lia]. simpl.
  destruct (Z.eqb_spec GAIN 1); [contradiction|]. simpl.
  rewrite gain_loop_take. f_equal.
  apply map_ext_in. intros x Hx.
  apply gain_sample_saturates; [assumption|].
  rewrite Forall_forall in Hall. apply Hall.
  apply list_elem_of_In in Hx. apply elem_of_take in Hx as (i & Hi & _).
  eapply list_elem_of_lookup_2; eauto.
Qed.
End MicFacts.

Lemma mic_gain_saturates_witness :
  Mic.mic_process small_config true true true
    (Mic.mkI2s true 8 [1; -2; 30000; -30000; 7])
  = Some [2; -4; 32767; -32768].
Proof.
  apply (mic_gain_saturates small_config (Mic.mkI2s true 8 [1; -2; 30000; -30000; 7])).
  - discriminate.
  - vm_compute. split; discriminate.
  - repeat constructor; vm_compute; discriminate.
  - reflexivity.
  - reflexivity.
Defined.

(** Without the bound on the gain the 32-bit product itself can leave
    its range: 16384 * 131072 = 2^31. *)
Example gain_sample_product_range :
  Mic.gain_sample (mkConfig 8 4 6 2 131072 30000 45000 40 80 2) 16384 = -32768.
Proof. reflexivity. Qed.

(** ** Audio packet sequence number *)

Lemma split_uint16 x :
  0 <= x < 65536 ->
  0 <= Z.land x 255 < 256 /\ 0 <= Z.land (Z.shiftr x 8) 255 < 256 /\
  Z.land x 255 + 256 * Z.land (Z.shiftr x 8) 255 = x.
Proof.
  intros Hx.
  change 255 with (Z.ones 8). rewrite !Z.land_ones by lia.
  rewrite Z.shiftr_div_pow2 by lia. change (2 ^ 8) with 256.
  assert (Hq : 0 <= x / 256 < 256)
    by (split; [apply Z.div_pos; lia | apply Z.div_lt_upper_bound; lia]).
  rewrite (Z.mod_small (x / 256)) by lia.
  pose proof (Z.mod_pos_bound x 256 ltac:(lia)).
  pose proof (Z.div_mod x 256 ltac:(lia)). lia.
Qed.

Section SequenceFacts.
Import App.

(** The guard of [broadcastAudioPacket] as one boolean. *)
Local Notation "'link_up' lk" :=
  (connected lk && audioSubscribed lk && audioDataCharacteristic lk)
  (at level 10, lk at level 9).

Lemma broadcast_skipped lk data tx :
  link_up lk = false -> broadcastAudioPacket lk data tx = (tx, []).
Proof.
  unfold broadcastAudioPacket.
  destruct (connected lk), (audioSubscribed lk), (audioDataCharacteristic lk);
    simpl; intros H; try reflexivity; discriminate.
Qed.

Lemma broadcast_sent lk data tx :
  link_up lk = true ->
  broadcastAudioPacket lk data tx
  = (mkTx (audio_tx_buffer tx) (audio_tx_write_pos tx) (audio_tx_read_pos tx)
          (wrap16 (audioPacketIndex tx + 1)),
     [[Z.land (audioPacketIndex tx) 255;
       Z.land (Z.shiftr (audioPacketIndex tx) 8) 255; 0] ++ data]).
Proof.
  unfold broadcastAudioPacket.
  destruct (connected lk), (audioSubscribed lk), (audioDataCharacteristic lk);
    simpl; intros H; try discriminate.
  do 3 f_equal. unfold AUDIO_PACKET_HEADER_SIZE.
  replace (Z.to_nat (Z.of_nat (length data) + 3)) with (3 + length data)%nat by lia.
  simpl. f_equal. f_equal. f_equal. apply take_ge. lia.
Qed.

Lemma broadcast_all_sequence calls : forall tx,
  0 <= audioPacketIndex tx < 65536 ->
  length (snd (broadcast_all calls tx))
  = length (List.filter (fun c => link_up (fst c)) calls) /\
  audioPacketIndex (fst (broadcast_all calls tx))
  = (audioPacketIndex tx + Z.of_nat (length (snd (broadcast_all calls tx)))) mod 65536 /\
  (forall (k : nat) pkt,
      snd (broadcast_all calls tx) !! k = Some pkt ->
      exists lo hi payload,
        pkt = lo :: hi :: 0 :: payload /\
        0 <= lo < 256 /\ 0 <= hi < 256 /\
        lo + 256 * hi = (audioPacketIndex tx + Z.of_nat k) mod 65536).
Proof.
  induction calls as [|[lk data] rest IH]; intros tx Hidx.
  - simpl. split; [reflexivity|]. split.
    + rewrite Z.add_0_r, Z.mod_small; lia.
    + intros k pkt H. rewrite lookup_nil in H. discriminate.
  - cbn [broadcast_all List.filter fst].
    destruct (link_up lk) eqn:Eup.
    + rewrite (broadcast_sent _ _ _ Eup).
      set (tx1 := mkTx _ _ _ _).
      assert (Hidx1 : 0 <= audioPacketIndex tx1 < 65536)
        by (apply Z.mod_pos_bound; lia).
      destruct (IH tx1 Hidx1) as (Hlen & Hfin & Hpk).
      destruct (broadcast_all rest tx1) as [tx2 more]. simpl in *.
      split; [lia|]. split.
      * rewrite Hfin. unfold wrap16. change (2 ^ 16) with 65536.
        rewrite Zplus_mod_idemp_l. f_equal. lia.
      * intros [|k] pkt H; simpl in H.
        -- inversion H; subst pkt.
           destruct (split_uint16 _ Hidx) as (Hlo & Hhi & Hsum).
           eexists _, _, _. split; [reflexivity|].
           split; [exact Hlo|]. split; [exact Hhi|].
           rewrite Z.add_0_r, Z.mod_small by lia. exact Hsum.
        -- destruct (Hpk k pkt H) as (lo & hi & payload & -> & Hlo & Hhi & Hsum).
           eexists _, _, _. split; [reflexivity|].
           split; [exact Hlo|]. split; [exact Hhi|].
           rewrite Hsum. unfold wrap16. change (2 ^ 16) with 65536.
           rewrite Zplus_mod_idemp_l. f_equal. lia.
    + rewrite (broadcast_skipped _ _ _ Eup).
      destruct (IH tx Hidx) as (Hlen & Hfin & Hpk).
      destruct (broadcast_all rest tx) as [tx2 more]. simpl in *.
      split; [exact Hlen|]. split; [exact Hfin | exact Hpk].
Qed.

(** C5. Over any sequence of calls of [broadcastAudioPacket]: a call
    made while the link is down, audio is unsubscribed or the
    characteristic is absent sends nothing and leaves the state as it
    is; the packets that are sent carry the sequence numbers
    [n, n+1, n+2, ...] modulo 65536 in their first two bytes (little
    endian) and a zero sub-index, and the counter ends at [n] plus the
    number of packets sent, modulo 65536. *)
Theorem audio_sequence_number calls tx :
  0 <= audioPacketIndex tx < 65536 ->
  (forall lk data,
      link_up lk = false -> broadcastAudioPacket lk data tx = (tx, [])) /\
  length (snd (broadcast_all calls tx))
  = length (List.filter (fun c => link_up (fst c)) calls) /\
  audioPacketIndex (fst (broadcast_all calls tx))
  = (audioPacketIndex tx + Z.of_nat (length (snd (broadcast_all calls tx)))) mod 65536 /\
  (forall (k : nat) pkt,
      snd (broadcast_all calls tx) !! k = Some pkt ->
      exists lo hi payload,
        pkt = lo :: hi :: 0 :: payload /\
        0 <= lo < 256 /\ 0 <= hi < 256 /\
        lo + 256 * hi = (audioPacketIndex tx + Z.of_nat k) mod 65536).
Proof.
  intros Hidx. split.
  - intros lk data. apply broadcast_skipped.
  - apply broadcast_all_sequence. exact Hidx.
Qed.
End SequenceFacts.

(** Around the wrap point: starting at 65534, with one call made while
    unsubscribed, the packets sent are numbered 65534, 65535, 0. *)
Lemma audio_sequence_number_witness :
  let up := App.mkLink true true true in
  let unsubscribed := App.mkLink true false true in
  let calls := [(up, [10]); (up, [11]); (unsubscribed, [12]); (up, [13])] in
  let tx := App.mkTx [] 0 0 65534 in
  App.audioPacketIndex (fst (App.broadcast_all calls tx)) = 1 /\
  snd (App.broadcast_all calls tx)
  = [[254; 255; 0; 10]; [255; 255; 0; 11]; [0; 0; 0; 13]].
Proof.
  intros up unsubscribed calls tx.
  assert (Hidx : 0 <= App.audioPacketIndex tx < 65536) by (simpl; lia).
  destruct (audio_sequence_number calls tx Hidx) as (_ & _ & Hfin & _).
  split; [rewrite Hfin|]; reflexivity.
Defined.

(** ** Transmit ring: admission of packets *)

Section TxFacts.
Import App.
Variable cfg : config.
Local Notation "'SIZE'" := (AUDIO_TX_BUFFER_SIZE cfg).

(** A packet longer than [OPUS_OUTPUT_MAX_BYTES] is dropped whole. *)
Lemma onOpusEncoded_oversize data tx :
  OPUS_OUTPUT_MAX_BYTES cfg < Z.of_nat (length data) ->
  onOpusEncoded cfg data tx = tx.
Proof.
  intros H. unfold onOpusEncoded.
  destruct (Z.gtb_spec (Z.of_nat (length data)) (OPUS_OUTPUT_MAX_BYTES cfg)); [reflexivity | lia].
Qed.

(** A packet the admission test refuses is dropped whole. *)
Lemma onOpusEncoded_refused data tx :
  tx_overflow (audio_tx_write_pos tx) (audio_tx_read_pos tx)
              ((audio_tx_write_pos tx + (Z.of_nat (length data) + 2)) mod SIZE) = true ->
  onOpusEncoded cfg data tx = tx.
Proof.
  intros H. unfold onOpusEncoded.
  destruct (_ >? _); [reflexivity|]. now rewrite H.
Qed.

(** An admitted packet moves the write position by its framed length,
    modulo the size of the ring, and leaves the read position and the
    sequence number alone. *)
Lemma onOpusEncoded_admitted data tx :
  Z.of_nat (length data) <= OPUS_OUTPUT_MAX_BYTES cfg ->
  tx_overflow (audio_tx_write_pos tx) (audio_tx_read_pos tx)
              ((audio_tx_write_pos tx + (Z.of_nat (length data) + 2)) mod SIZE) = false ->
  audio_tx_write_pos (onOpusEncoded cfg data tx)
  = (audio_tx_write_pos tx + (Z.of_nat (length data) + 2)) mod SIZE /\
  audio_tx_read_pos (onOpusEncoded cfg data tx) = audio_tx_read_pos tx /\
  audioPacketIndex (onOpusEncoded cfg data tx) = audioPacketIndex tx.
Proof.
  intros Hlen H. unfold onOpusEncoded.
  destruct (Z.gtb_spec (Z.of_nat (length data)) (OPUS_OUTPUT_MAX_BYTES cfg)); [lia|].
  rewrite H. simpl. auto.
Qed.

(** Where the admission test is right. With [(r - w - 1) mod SIZE] the
    bytes that can be written before the write position would reach the
    read position, a framed record shorter than the ring is admitted
    exactly when it fits, provided the write position is not behind the
    read position or the record does not run past the end of the
    array. *)
Lemma tx_overflow_exact w r ps :
  0 <= w < SIZE -> 0 <= r < SIZE -> 0 < ps < SIZE ->
  r <= w \/ w + ps < SIZE ->
  tx_overflow w r ((w + ps) mod SIZE) = false <-> ps <= (r - w - 1) mod SIZE.
Proof.
  intros Hw Hr Hps Hcase.
  assert (Hnext : (w + ps) mod SIZE = if w + ps <? SIZE then w + ps else w + ps - SIZE)
    by (apply mod_once; lia).
  assert (Hfree : (r - w - 1) mod SIZE = if w <? r then r - w - 1 else r - w - 1 + SIZE).
  { destruct (Z.ltb_spec w r).
    - apply Z.mod_small. lia.
    - replace (r - w - 1) with (r - w - 1 + SIZE + (-1) * SIZE) at 1 by lia.
      rewrite Z_mod_plus_full. apply Z.mod_small. lia. }
  rewrite Hnext, Hfree. unfold tx_overflow.
  destruct (Z.ltb_spec (w + ps) SIZE); destruct (Z.ltb_spec w r);
    destruct (Z.geb_spec w r); try lia;
    repeat match goal with
           | |- context [?a >=? ?b] => destruct (Z.geb_spec a b)
           | |- context [?a <? ?b] => destruct (Z.ltb_spec a b)
           end; simpl; split; intros; try lia; try discriminate; try reflexivity.
Qed.

(** The case the admission test misses. The write position is behind
    the read position, so the free room is the [r - w] bytes between
    them; a framed record that runs past the end of the array ends,
    after wrapping, below the write position it started from, the test
    [next_write >= read_pos] fails, and the record is stored across the
    read position. *)
Lemma onOpusEncoded_admits_across_read_pos data tx :
  1 <= AUDIO_TX_RING_BUFFER_SIZE cfg ->
  Z.of_nat (length data) <= OPUS_OUTPUT_MAX_BYTES cfg ->
  0 <= audio_tx_write_pos tx < audio_tx_read_pos tx ->
  audio_tx_read_pos tx < SIZE ->
  SIZE <= audio_tx_write_pos tx + Z.of_nat (length data) + 2 ->
  audio_tx_read_pos tx - audio_tx_write_pos tx < Z.of_nat (length data) + 2 /\
  audio_tx_write_pos (onOpusEncoded cfg data tx)
  = audio_tx_write_pos tx + Z.of_nat (length data) + 2 - SIZE /\
  audio_tx_write_pos (onOpusEncoded cfg data tx) < audio_tx_read_pos tx.
Proof.
  intros Hn Hlen Hw Hr Hwrap.
  set (w := audio_tx_write_pos tx) in *. set (r := audio_tx_read_pos tx) in *.
  set (len := Z.of_nat (length data)) in *.
  assert (Hsize : len + 2 <= SIZE).
  { unfold AUDIO_TX_BUFFER_SIZE in *. nia. }
  assert (Hnext : (w + (len + 2)) mod SIZE = w + len + 2 - SIZE).
  { rewrite mod_once by lia.
    destruct (Z.ltb_spec (w + (len + 2)) SIZE); lia. }
  assert (Hadm : tx_overflow w r ((w + (len + 2)) mod SIZE) = false).
  { rewrite Hnext. unfold tx_overflow.
    destruct (Z.ltb_spec w r); [|lia].
    destruct (Z.geb_spec (w + len + 2 - SIZE) r); [lia|].
    destruct (Z.geb_spec w r); [lia|]. reflexivity. }
  destruct (onOpusEncoded_admitted data tx Hlen Hadm) as (Hw' & _).
  fold w len in Hw'. rewrite Hnext in Hw'.
  split; [lia|]. split; [exact Hw' | lia].
Qed.
End TxFacts.

(** C2 on a run of the firmware's own operations (ring of 16 bytes,
    packets of at most 6). Two packets are published and sent. A third
    one wraps around the end of the array and a fourth follows it while
    nobody drains: write position 11, read position 14, two records
    unread, 3 bytes between write and read position. A fifth packet of 4
    bytes (6 with its length field) cannot fit there, yet it is stored:
    the write position passes the read position and ends at 1, and the
    length field of the oldest unread record is overwritten. The drain
    loop then delivers one record, [[34]], which is the tail of the fifth
    packet and was never published; the two records that were waiting
    are lost. *)
Theorem tx_ring_admits_overrun :
  let cfg := small_config in
  let up := App.mkLink true true true in
  let tx2 := App.onOpusEncoded cfg [7; 8; 9; 10]
               (App.onOpusEncoded cfg [1; 2; 3; 4; 5; 6] (App.init_tx cfg)) in
  exists tx3 tx5 tx6 tx7 tx8,
    App.processAudioTx cfg 10 up tx2
    = Some (tx3, [[0; 0; 0; 1; 2; 3; 4; 5; 6]; [1; 0; 0; 7; 8; 9; 10]]) /\
    tx5 = App.onOpusEncoded cfg [21; 22; 23; 24; 25; 26]
            (App.onOpusEncoded cfg [11; 12; 13] tx3) /\
    App.audio_tx_write_pos tx5 = 11 /\ App.audio_tx_read_pos tx5 = 14 /\
    App.processAudioTx cfg 10 up tx5
    = Some (tx7, [[2; 0; 0; 11; 12; 13]; [3; 0; 0; 21; 22; 23; 24; 25; 26]]) /\
    tx6 = App.onOpusEncoded cfg [31; 1; 0; 34] tx5 /\
    tx6 <> tx5 /\
    App.audio_tx_write_pos tx6 = 1 /\ App.audio_tx_read_pos tx6 = 14 /\
    App.audio_tx_buffer tx5 = [11; 12; 13; 6; 0; 21; 22; 23; 24; 25; 26; 8; 9; 10; 3; 0] /\
    App.audio_tx_buffer tx6 = [34; 12; 13; 6; 0; 21; 22; 23; 24; 25; 26; 4; 0; 31; 1; 0] /\
    App.processAudioTx cfg 10 up tx6 = Some (tx8, [[2; 0; 0; 34]]).
Proof.
  eexists _, _, _, _, _.
  split; [reflexivity|]. split; [reflexivity|].
  split; [reflexivity|]. split; [reflexivity|].
  split; [reflexivity|]. split; [reflexivity|].
  split; [vm_compute; discriminate|].
  repeat split.
Qed.

(** [overrun_ring] is what three publish calls leave behind when the last
    packet, [[31; 32; 33; 34]], overruns the read position. *)
Example overrun_ring_reached :
  let cfg := small_config in
  let tx3 := App.mkTx [6; 0; 1; 2; 3; 4; 5; 6; 4; 0; 7; 8; 9; 10; 0; 0] 14 14 2 in
  App.onOpusEncoded cfg [31; 32; 33; 34]
    (App.onOpusEncoded cfg [21; 22; 23; 24; 25; 26]
       (App.onOpusEncoded cfg [11; 12; 13] tx3))
  = overrun_ring.
Proof. reflexivity. Qed.

(** On that ring the drain loop never returns: every length it reads is
    invalid, so the read position moves in steps of 2 over the even
    offsets, and the write position is odd. *)
Lemma overrun_ring_drain_spins fuel : forall r,
  In r [0; 2; 4; 6; 8; 10; 12; 14] ->
  App.drain small_config fuel (App.mkLink true true true)
            (App.set_tx_read_pos r overrun_ring) = None.
Proof.
  induction fuel as [|fuel IH]; intros r Hr.
  - simpl in Hr. intuition (subst r; reflexivity).
  - simpl in Hr.
    destruct Hr as [<- | [<- | [<- | [<- | [<- | [<- | [<- | [<- | []]]]]]]]];
      cbn [App.drain]; unfold App.set_tx_read_pos, overrun_ring; cbn -[App.drain];
      apply (IH _); cbn; tauto.
Qed.

Example overrun_ring_processAudioTx fuel :
  App.processAudioTx small_config fuel (App.mkLink true true true) overrun_ring = None.
Proof.
  unfold App.processAudioTx. simpl.
  apply (overrun_ring_drain_spins fuel 14). simpl. tauto.
Qed.

(** ** Power save and light sleep *)

Lemma wrap32_range x : 0 <= wrap32 x < 2 ^ 32.
Proof. unfold wrap32. apply Z.mod_pos_bound. lia. Qed.

Lemma wrap32_small x : 0 <= x < 2 ^ 32 -> wrap32 x = x.
Proof. intros H. unfold wrap32. apply Z.mod_small. exact H. Qed.

Section PowerFacts.
Import App.
Variable cfg : config.

Lemma timeUntilNextPhoto_range now cap :
  0 <= timeUntilNextPhoto now cap < 2 ^ 32.
Proof.
  unfold timeUntilNextPhoto.
  destruct (isCapturingPhotos cap && (captureInterval cap >? 0)); [|lia].
  destruct (_ <? _); [apply wrap32_range | lia].
Qed.

(** What the headroom stands for: with interval capture on and the next
    capture not yet due, it is the time left until
    [lastCaptureTime + captureInterval]. *)
Lemma timeUntilNextPhoto_due now cap :
  isCapturingPhotos cap = true ->
  0 <= lastCaptureTime cap <= now ->
  now < lastCaptureTime cap + captureInterval cap < 2 ^ 32 ->
  timeUntilNextPhoto now cap = lastCaptureTime cap + captureInterval cap - now.
Proof.
  intros Hcap Hlast Hdue. unfold timeUntilNextPhoto. rewrite Hcap. simpl.
  destruct (Z.gtb_spec (captureInterval cap) 0); [|lia].
  rewrite (wrap32_small (now - lastCaptureTime cap)) by lia.
  rewrite (wrap32_small (captureInterval cap)) by lia.
  destruct (Z.ltb_spec (now - lastCaptureTime cap) (captureInterval cap)); [|lia].
  rewrite wrap32_small by lia. lia.
Qed.

(** C6. [enableLightSleep], with [headroom] the time until the next
    scheduled capture: it returns without sleeping when light sleep is
    disabled, the link is down, an upload is active, the device has
    been idle for less than 5 s, or the headroom is at most 10 s;
    otherwise it arms the timer for [min (headroom - 5000) 15000] ms
    (given in microseconds), which ends at least 5 s before the capture
    is due, and sets the activity timestamp to the clock read on
    wake-up. *)
Theorem light_sleep_bound now wake lk uploading cap pw :
  let headroom := timeUntilNextPhoto now cap in
  let result := enableLightSleep now wake lk uploading cap pw in
  (headroom <= 10000 -> result = (pw, None)) /\
  (lightSleepEnabled pw = false \/ connected lk = false \/ uploading = true
   \/ wrap32 (now - lastActivity pw) < 5000 ->
   result = (pw, None)) /\
  (lightSleepEnabled pw = true -> connected lk = true -> uploading = false ->
   5000 <= wrap32 (now - lastActivity pw) -> 10000 < headroom ->
   result = (set_lastActivity wake pw,
             Some (1000 * Z.min (headroom - 5000) 15000)) /\
   lastActivity (fst result) = wake /\
   Z.min (headroom - 5000) 15000 + 5000 <= headroom).
Proof.
  intros headroom result. subst result. unfold enableLightSleep.
  fold headroom.
  pose proof (timeUntilNextPhoto_range now cap) as Hrange. fold headroom in Hrange.
  split; [|split].
  - intros Hh.
    destruct (negb (lightSleepEnabled pw) || negb (connected lk) || uploading);
      [reflexivity|].
    destruct (_ <? 5000); [reflexivity|].
    destruct (Z.gtb_spec headroom 10000); [lia | reflexivity].
  - intros [H | [H | [H | H]]].
    + rewrite H. reflexivity.
    + rewrite H. simpl. now rewrite orb_true_r.
    + rewrite H. now rewrite orb_true_r.
    + destruct (negb (lightSleepEnabled pw) || negb (connected lk) || uploading);
        [reflexivity|].
      destruct (Z.ltb_spec (wrap32 (now - lastActivity pw)) 5000); [reflexivity | lia].
  - intros He Hc Hu Hidle Hh. rewrite He, Hc, Hu. simpl.
    destruct (Z.ltb_spec (wrap32 (now - lastActivity pw)) 5000); [lia|].
    destruct (Z.gtb_spec headroom 10000); [|lia].
    rewrite (wrap32_small (headroom - 5000)) by lia.
    split; [|split; [reflexivity | lia]].
    f_equal. f_equal.
    destruct (Z.gtb_spec (headroom - 5000) 15000).
    + rewrite Z.min_r by lia. apply wrap32_small. lia.
    + rewrite Z.min_l by lia. rewrite wrap32_small by lia. lia.
Qed.

(** *** Power save *)

Lemma enterPowerSave_idem pw : enterPowerSave cfg (enterPowerSave cfg pw) = enterPowerSave cfg pw.
Proof. unfold enterPowerSave. destruct (powerSaveMode pw) eqn:E; simpl; now rewrite ?E. Qed.

Lemma exitPowerSave_idem pw : exitPowerSave cfg (exitPowerSave cfg pw) = exitPowerSave cfg pw.
Proof. unfold exitPowerSave. destruct (powerSaveMode pw) eqn:E; simpl; now rewrite ?E. Qed.

(** While the device is disconnected and idle, once in power save the
    evaluation changes nothing. *)
Lemma power_run_saving nows : forall pw,
  powerSaveMode pw = true ->
  power_run cfg nows false false pw = pw.
Proof.
  induction nows as [|now rest IH]; intros pw Hm; [reflexivity|].
  simpl. unfold power_check, enterPowerSave. simpl. rewrite Hm. simpl.
  destruct (_ >? _); apply IH; exact Hm.
Qed.

(** While connected or uploading, once out of power save the evaluation
    only refreshes the activity timestamp. *)
Lemma power_run_active nows : forall pw is_connected uploading,
  is_connected || uploading = true ->
  powerSaveMode pw = false ->
  powerSaveMode (power_run cfg nows is_connected uploading pw) = false /\
  cpu_freq_calls (power_run cfg nows is_connected uploading pw) = cpu_freq_calls pw.
Proof.
  induction nows as [|now rest IH]; intros pw c u Hcu Hm; [split; [exact Hm | reflexivity]|].
  simpl.
  assert (E : power_check cfg now c u pw = set_lastActivity now pw).
  { unfold power_check. rewrite Hcu, Hm.
    destruct c, u; simpl in *; try discriminate; reflexivity. }
  rewrite E. apply (IH (set_lastActivity now pw) c u Hcu). exact Hm.
Qed.

Lemma power_run_at_most_once nows : forall pw is_connected uploading,
  exists extra,
    cpu_freq_calls (power_run cfg nows is_connected uploading pw)
    = cpu_freq_calls pw ++ extra /\
    (length extra <= 1)%nat.
Proof.
  induction nows as [|now rest IH]; intros pw c u.
  - exists []. simpl. rewrite app_nil_r. split; [reflexivity | lia].
  - simpl. unfold power_check.
    destruct (negb c && negb u && (wrap32 (now - lastActivity pw) >? IDLE_THRESHOLD_MS cfg)) eqn:Eidle.
    + (* idle past the threshold *)
      apply andb_prop in Eidle as [Ecu _]. apply andb_prop in Ecu as [Ec Eu].
      apply negb_true_iff in Ec, Eu. subst c u.
      unfold enterPowerSave. destruct (powerSaveMode pw) eqn:Em; simpl.
      * rewrite power_run_saving by exact Em.
        exists []. rewrite app_nil_r. split; [reflexivity | simpl; lia].
      * rewrite power_run_saving by reflexivity. simpl.
        exists [MIN_CPU_FREQ_MHZ cfg]. split; [reflexivity | simpl; lia].
    + destruct (c || u) eqn:Ecu.
      * (* connected or uploading *)
        unfold exitPowerSave. destruct (powerSaveMode pw) eqn:Em.
        -- match goal with
           | |- context [power_run cfg rest c u ?p] =>
               destruct (power_run_active rest p c u Ecu eq_refl) as [_ Hcalls];
               rewrite Hcalls
           end.
           simpl. exists [NORMAL_CPU_FREQ_MHZ cfg]. split; [reflexivity | simpl; lia].
        -- match goal with
           | |- context [power_run cfg rest c u ?p] =>
               destruct (power_run_active rest p c u Ecu Em) as [_ Hcalls];
               rewrite Hcalls
           end.
           simpl. exists []. rewrite app_nil_r. split; [reflexivity | simpl; lia].
      * apply IH.
Qed.

(** C8. Entering power save when already in it and leaving it when
    already out of it change nothing, both operations are idempotent,
    and however often the power-save evaluation of the loop is repeated
    with the connection and upload flags unchanged, it switches the CPU
    frequency at most once. *)
Theorem power_save_idempotent pw :
  (powerSaveMode pw = true -> enterPowerSave cfg pw = pw) /\
  (powerSaveMode pw = false -> exitPowerSave cfg pw = pw) /\
  enterPowerSave cfg (enterPowerSave cfg pw) = enterPowerSave cfg pw /\
  exitPowerSave cfg (exitPowerSave cfg pw) = exitPowerSave cfg pw /\
  (forall nows is_connected uploading,
      exists extra,
        cpu_freq_calls (power_run cfg nows is_connected uploading pw)
        = cpu_freq_calls pw ++ extra /\
        (length extra <= 1)%nat).
Proof.
  split; [|split; [|split; [|split]]].
  - intros H. unfold enterPowerSave. now rewrite H.
  - intros H. unfold exitPowerSave. now rewrite H.
  - apply enterPowerSave_idem.
  - apply exitPowerSave_idem.
  - intros. apply power_run_at_most_once.
Qed.
End PowerFacts.

Lemma light_sleep_bound_witness :
  let lk := App.mkLink true false true in
  let cap := App.mkCapture true 30000 88000 in
  let pw := App.mkPower 90000 false true [] in
  App.timeUntilNextPhoto 100000 cap = 18000 /\
  App.enableLightSleep 100000 113002 lk false cap pw
  = (App.mkPower 113002 false true [], Some 13000000).
Proof.
  intros lk cap pw. split; [reflexivity|].
  assert (Hidle : 5000 <= wrap32 (100000 - App.lastActivity pw))
    by (vm_compute; discriminate).
  assert (Hroom : 10000 < App.timeUntilNextPhoto 100000 cap) by reflexivity.
  destruct (light_sleep_bound 100000 113002 lk false cap pw) as (_ & _ & H).
  destruct (H eq_refl eq_refl eq_refl Hidle Hroom) as (Hres & _).
  exact Hres.
Defined.

(** Disconnected and idle: the evaluation enters power save at the first
    pass beyond the threshold and the later passes change nothing. *)
Lemma power_save_idempotent_witness :
  let pw := App.mkPower 0 false true [] in
  App.power_run sample_config [10000; 46000; 47000; 48000] false false pw
  = App.mkPower 0 true true [40] /\
  App.enterPowerSave sample_config (App.mkPower 0 true true [40])
  = App.mkPower 0 true true [40].
Proof.
  intros pw. split; [reflexivity|].
  destruct (power_save_idempotent sample_config (App.mkPower 0 true true [40]))
    as (Henter & _).
  apply Henter. reflexivity.
Defined.

(** ** Button: long press and release *)

Section ButtonFacts.
Import App.
Variable cfg : config.

(** The call at which the hold reaches 2000 ms fires the long press:
    the shutdown LED sequence starts and the power state is left
    alone. *)
Lemma long_press_fires now b pw :
  buttonDown b = true -> longPressTriggered b = false ->
  2000 <= wrap32 (now - buttonPressTime b) ->
  handleButton cfg now true b pw
  = (mkButton false (buttonPressTime b) (lastDebounceTime b) true true
              LED_POWER_OFF_SEQUENCE, pw).
Proof.
  intros Hd Hl Hhold. unfold handleButton. rewrite Hd, Hl. simpl.
  destruct (Z.geb_spec (wrap32 (now - buttonPressTime b)) 2000); [|lia].
  reflexivity.
Qed.

(** Once the long press has fired, a call of [handleButton] never
    touches the power state, and either the press goes on or this call
    accepts the release. *)
Lemma long_press_latched now pressed b pw :
  buttonDown b = true -> longPressTriggered b = true ->
  snd (handleButton cfg now pressed b pw) = pw /\
  ledMode (fst (handleButton cfg now pressed b pw)) = ledMode b /\
  (buttonDown (fst (handleButton cfg now pressed b pw)) = true /\
   longPressTriggered (fst (handleButton cfg now pressed b pw)) = true
   \/ buttonDown (fst (handleButton cfg now pressed b pw)) = false /\ pressed = false).
Proof.
  intros Hd Hl. unfold handleButton. rewrite Hd, Hl.
  destruct pressed; simpl.
  - auto.
  - destruct (_ <? 50); simpl; auto.
Qed.

Lemma button_run_latched inputs : forall b pw,
  buttonDown b = true -> longPressTriggered b = true ->
  (forall n, (n < length inputs)%nat ->
             buttonDown (fst (button_run cfg (take n inputs) b pw)) = true) ->
  snd (button_run cfg inputs b pw) = pw /\
  ledMode (fst (button_run cfg inputs b pw)) = ledMode b.
Proof.
  induction inputs as [|[now pressed] rest IH]; intros b pw Hd Hl Hpress.
  - simpl. auto.
  - cbn [button_run].
    destruct (long_press_latched now pressed b pw Hd Hl) as (Hpw & Hled & Hnext).
    destruct (handleButton cfg now pressed b pw) as [b1 pw1] eqn:E.
    simpl in Hpw, Hled, Hnext. subst pw1.
    destruct rest as [|inp rest'].
    + simpl. auto.
    + assert (Hd1 : buttonDown b1 = true).
      { specialize (Hpress 1%nat ltac:(simpl; lia)).
        cbn [take button_run] in Hpress. rewrite E in Hpress. exact Hpress. }
      destruct Hnext as [[_ Hl1] | [Hup _]]; [|congruence].
      rewrite <- Hled. apply IH; try assumption.
      intros n Hn. specialize (Hpress (S n) ltac:(simpl in *; lia)).
      cbn [take button_run] in Hpress. rewrite E in Hpress. exact Hpress.
Qed.

(** C7. Take a press whose hold reaches the 2000 ms threshold at some
    call of [handleButton]: that call fires the long press. From then
    on, through every later call up to and including the one that
    accepts the release of this press, whatever the clock and pin
    readings, the activity timestamp and the power-save mode stay as
    they were: the release is not handled as a short press. *)
Theorem long_press_release_not_short_press now b pw inputs :
  buttonDown b = true -> longPressTriggered b = false ->
  2000 <= wrap32 (now - buttonPressTime b) ->
  let fired := handleButton cfg now true b pw in
  ledMode (fst fired) = LED_POWER_OFF_SEQUENCE /\
  longPressTriggered (fst fired) = true /\
  snd fired = pw /\
  ((forall n, (n < length inputs)%nat ->
              buttonDown (fst (button_run cfg (take n inputs) (fst fired) pw)) = true) ->
   snd (button_run cfg inputs (fst fired) pw) = pw).
Proof.
  intros Hd Hl Hhold fired. subst fired.
  rewrite (long_press_fires now b pw Hd Hl Hhold). simpl.
  repeat split.
  intros Hpress. apply button_run_latched; auto.
Qed.
End ButtonFacts.

(** A press at 1000 ms, held: the long press fires at 3000 ms, the button
    is held until 4500 ms and released; the release is accepted (the
    button is up again) and the power state is as before. *)
Lemma long_press_release_not_short_press_witness :
  let b := App.mkButton false 1000 1000 true false App.LED_NORMAL_OPERATION in
  let pw := App.mkPower 500 true true [40] in
  let fired := App.handleButton sample_config 3000 true b pw in
  let inputs := [(3500, true); (4500, true); (4600, false)] in
  App.buttonDown (fst (App.button_run sample_config inputs (fst fired) pw)) = false /\
  snd (App.button_run sample_config inputs (fst fired) pw) = pw.
Proof.
  intros b pw fired inputs. split; [reflexivity|].
  assert (Hhold : 2000 <= wrap32 (3000 - App.buttonPressTime b))
    by (vm_compute; discriminate).
  destruct (long_press_release_not_short_press sample_config 3000 b pw inputs
              eq_refl eq_refl Hhold) as (_ & _ & _ & H).
  apply H. intros [|[|[|n]]] Hn; try reflexivity. simpl in Hn. lia.
Defined.

(** For comparison, a press of 500 ms: the release refreshes the
    activity timestamp and leaves power save. *)
Example short_press_refreshes_activity :
  let b := App.mkButton false 1000 1000 true false App.LED_NORMAL_OPERATION in
  let pw := App.mkPower 500 true true [40] in
  App.handleButton sample_config 1500 false b pw
  = (App.mkButton false 1000 1500 false false App.LED_NORMAL_OPERATION,
     App.mkPower 1500 false true [40; 80]).
Proof. reflexivity. Qed.

(** ** Photo control commands *)

Section PhotoControlFacts.
Import App.
Variable cfg : config.

(** The values an [int8_t] holds from 0 on are their bytes. *)
Lemma to_int8_small v : 0 <= v <= 127 -> to_int8 v = v.
Proof.
  intros H. unfold to_int8, to_signed. change (2 ^ 8) with 256. change (2 ^ (8 - 1)) with 128.
  rewrite Z.mod_small by lia. destruct (Z.ltb_spec v 128); lia.
Qed.

(** For the values an [int8_t] can hold, 5 to 127 start interval
    capture with the configured interval, whatever the value. *)
Lemma handlePhotoControl_interval now v cap :
  5 <= v <= 127 ->
  handlePhotoControl cfg now v cap
  = mkCapture true (PHOTO_CAPTURE_INTERVAL_MS cfg)
              (wrap32 (now - PHOTO_CAPTURE_INTERVAL_MS cfg)).
Proof.
  intros Hv. unfold handlePhotoControl.
  destruct (Z.eqb_spec v (-1)); [lia|].
  destruct (Z.eqb_spec v 0); [lia|].
  destruct (Z.geb_spec v 5); [|lia].
  destruct (Z.leb_spec v 300); [|lia].
  reflexivity.
Qed.

(** The first capture is then due at once: the time since
    [lastCaptureTime] is already a full interval. *)
Lemma handlePhotoControl_due now v cap :
  5 <= v <= 127 ->
  0 <= now < 2 ^ 32 -> 0 <= PHOTO_CAPTURE_INTERVAL_MS cfg < 2 ^ 32 ->
  wrap32 (now - lastCaptureTime (handlePhotoControl cfg now v cap))
  = PHOTO_CAPTURE_INTERVAL_MS cfg.
Proof.
  intros Hv Hnow Hint. rewrite handlePhotoControl_interval by exact Hv. simpl.
  unfold wrap32. rewrite Zminus_mod_idemp_r.
  replace (now - (now - PHOTO_CAPTURE_INTERVAL_MS cfg))
    with (PHOTO_CAPTURE_INTERVAL_MS cfg) by lia.
  apply Z.mod_small. exact Hint.
Qed.

(** A command byte of 128 or more reads as a negative [int8_t]: bytes
    128 to 254 match no branch of [handlePhotoControl]. *)
Lemma PhotoControl_onWrite_high_byte t0 now byte cap pw :
  128 <= byte <= 254 ->
  fst (PhotoControl_onWrite cfg t0 now [byte] cap pw) = cap.
Proof.
  intros Hb. unfold PhotoControl_onWrite, handlePhotoControl. simpl.
  assert (E : to_int8 byte = byte - 256).
  { unfold to_int8, to_signed. change (2 ^ 8) with 256. change (2 ^ (8 - 1)) with 128.
    rewrite Z.mod_small by lia.
    destruct (Z.ltb_spec byte 128); lia. }
  rewrite E.
  destruct (Z.eqb_spec (byte - 256) (-1)); [lia|].
  destruct (Z.eqb_spec (byte - 256) 0); [lia|].
  destruct (Z.geb_spec (byte - 256) 5); [lia|]. reflexivity.
Qed.

(** The upper bound of the test [controlValue <= 300] is out of reach:
    a byte of 128 or more is a negative command. The byte 200 is read
    as the [int8_t] -56, no branch of [handlePhotoControl] is taken,
    and the capture state stays as it was (here: stopped). *)
Example photo_control_byte_200_ignored :
  to_int8 200 = -56 /\
  PhotoControl_onWrite sample_config 1000 1001 [200]
    (mkCapture false 0 0) (mkPower 0 false true [])
  = (mkCapture false 0 0, mkPower 1000 false true []).
Proof. split; reflexivity. Qed.

(** C9. For every command value [v] from 5 to 300 that the signed byte
    of the control characteristic can hold, written by the client at
    time [now]: the capture interval becomes the configured
    [PHOTO_CAPTURE_INTERVAL_MS] whatever [v] is, capturing is enabled,
    and the last-capture timestamp is [now] minus the interval, so that
    a full interval has already elapsed and the next capture check made
    while connected and not uploading takes a photo at once. The new
    capture state depends neither on [v] nor on the state before. *)
Theorem photo_control_interval_fixed t0 now v cap pw :
  -128 <= v <= 127 ->
  5 <= v <= 300 ->
  0 <= now < 2 ^ 32 ->
  0 <= PHOTO_CAPTURE_INTERVAL_MS cfg < 2 ^ 32 ->
  let cap' := fst (PhotoControl_onWrite cfg t0 now [v] cap pw) in
  cap' = handlePhotoControl cfg now v cap /\
  cap' = mkCapture true (PHOTO_CAPTURE_INTERVAL_MS cfg)
                   (wrap32 (now - PHOTO_CAPTURE_INTERVAL_MS cfg)) /\
  wrap32 (now - lastCaptureTime cap') = PHOTO_CAPTURE_INTERVAL_MS cfg /\
  (forall now' img t lk ph pw',
      connected lk = true -> photoDataUploading ph = false ->
      now <= now' -> now' - now + PHOTO_CAPTURE_INTERVAL_MS cfg < 2 ^ 32 ->
      let r := capture_check cfg now' (Some img) t lk cap' ph pw' in
      photoDataUploading (snd (fst r)) = true /\
      fb (snd (fst r)) = Some img /\
      lastCaptureTime (fst (fst r)) = now').
Proof.
  intros Hint8 Hv Hnow Hint cap'.
  assert (E1 : cap' = handlePhotoControl cfg now v cap).
  { unfold cap', PhotoControl_onWrite. cbn [fst]. rewrite to_int8_small by lia. reflexivity. }
  assert (E2 : cap' = mkCapture true (PHOTO_CAPTURE_INTERVAL_MS cfg)
                                (wrap32 (now - PHOTO_CAPTURE_INTERVAL_MS cfg))).
  { rewrite E1. apply handlePhotoControl_interval. lia. }
  split; [exact E1|]. split; [exact E2|]. split.
  - rewrite E1. apply handlePhotoControl_due; [lia | exact Hnow | exact Hint].
  - intros now' img t lk ph pw' Hc Hu Hlater Hno_wrap r. subst r. rewrite E2.
    unfold capture_check. cbn [isCapturingPhotos captureInterval lastCaptureTime].
    rewrite Hu, Hc. cbn [negb andb].
    assert (Hdue : (wrap32 (now' - wrap32 (now - PHOTO_CAPTURE_INTERVAL_MS cfg))
                    >=? wrap32 (PHOTO_CAPTURE_INTERVAL_MS cfg)) = true).
    { unfold wrap32 at 1 2. rewrite Zminus_mod_idemp_r.
      replace (now' - (now - PHOTO_CAPTURE_INTERVAL_MS cfg))
        with (now' - now + PHOTO_CAPTURE_INTERVAL_MS cfg) by lia.
      rewrite Z.mod_small by lia. rewrite wrap32_small by lia.
      apply Z.geb_le. lia. }
    rewrite Hdue, orb_true_r. unfold take_photo.
    destruct (PHOTO_CAPTURE_INTERVAL_MS cfg =? 0); cbn; auto.
Qed.
End PhotoControlFacts.

(** The command 30 written at 40000 ms: the interval is the configured
    30000 ms and the last capture is dated 10000 ms. *)
Lemma photo_control_interval_fixed_witness :
  let cap' := fst (App.PhotoControl_onWrite sample_config 39999 40000 [30]
                     (App.mkCapture false 0 0) (App.mkPower 0 false true [])) in
  cap' = App.mkCapture true 30000 10000 /\
  wrap32 (40000 - App.lastCaptureTime cap') = 30000.
Proof.
  intros cap'.
  destruct (photo_control_interval_fixed sample_config 39999 40000 30
              (App.mkCapture false 0 0) (App.mkPower 0 false true []))
    as (_ & H2 & H3 & _).
  - lia.
  - lia.
  - lia.
  - vm_compute. split; [discriminate | reflexivity].
  - split; [exact H2 | exact H3].
Defined.

(** The command byte 30 starts interval capture at the fixed interval. *)
Example photo_control_byte_30 :
  App.PhotoControl_onWrite sample_config 40000 40001 [30]
    (App.mkCapture false 0 0) (App.mkPower 0 false true [])
  = (App.mkCapture true 30000 10001, App.mkPower 40000 false true []).
Proof. reflexivity. Qed.

(** ** Photo transfer *)

Section PhotoFacts.
Import App.

Variable img : list Z.
Variable orient : Z.
Local Notation "'L'" := (Z.of_nat (length img)).

(** A photo state in the middle of the upload of [img]. *)
Local Notation "'uploading_at' s k c" :=
  (mkPhoto true (Some img) s k orient c)
  (at level 10, s at level 9, k at level 9, c at level 9).

(** With the counter at 2 or more, the pass only resets it. *)
Lemma photo_transfer_skip now lk tx s k c pw :
  2 <= c ->
  photo_transfer now lk tx (uploading_at s k c) pw = (uploading_at s k 0, pw, []).
Proof.
  intros Hc. unfold photo_transfer. simpl.
  destruct (Z.ltb_spec c 2); [lia | reflexivity].
Qed.

(** With bytes left, the pass sends one data chunk. *)
Lemma photo_transfer_chunk now lk tx s k c pw :
  c < 2 -> 0 <= k <= s -> s < L -> L < 2 ^ 32 ->
  exists b c',
    0 < b <= chunk_capacity k /\ s + b <= L /\
    photo_transfer now lk tx (uploading_at s k c) pw
    = (uploading_at (s + b) (k + 1) c', set_lastActivity now pw,
       [chunk_header k orient ++ take (Z.to_nat b) (drop (Z.to_nat s) img)]) /\
    (c' <= 2).
Proof.
  intros Hc Hk Hs HL. unfold photo_transfer. simpl.
  destruct (Z.ltb_spec c 2); [|lia].
  rewrite (wrap32_small (L - s)) by lia.
  destruct (Z.gtb_spec (L - s) 0); [|lia].
  assert (Hcap : 199 <= chunk_capacity k <= 200)
    by (unfold chunk_capacity; destruct (k =? 0); lia).
  set (b := if L - s >? chunk_capacity k then chunk_capacity k else L - s).
  assert (Hb : 0 < b <= chunk_capacity k /\ s + b <= L)
    by (unfold b; destruct (Z.gtb_spec (L - s) (chunk_capacity k)); lia).
  rewrite (wrap32_small (s + b)) by lia.
  rewrite (wrap32_small (k + 1)) by lia.
  eexists b, _. split; [apply Hb|]. split; [apply Hb|]. split; [reflexivity|].
  destruct (audioSubscribed lk && negb (audio_tx_read_pos tx =? audio_tx_write_pos tx)); lia.
Qed.

(** With nothing left, the pass sends the terminator, clears the flag
    and releases the frame buffer. *)
Lemma photo_transfer_done now lk tx k c pw :
  c < 2 -> L < 2 ^ 32 ->
  photo_transfer now lk tx (uploading_at L k c) pw
  = (mkPhoto false None L k orient 0, pw, [[255; 255]]).
Proof.
  intros Hc HL. unfold photo_transfer. simpl.
  destruct (Z.ltb_spec c 2); [|lia].
  rewrite Z.sub_diag. reflexivity.
Qed.

(** Without a frame buffer nothing is sent, pass after pass. *)
Lemma photo_run_idle envs : forall ph pw,
  fb ph = None ->
  fb (fst (fst (photo_run envs ph pw))) = None /\
  photoDataUploading (fst (fst (photo_run envs ph pw))) = photoDataUploading ph /\
  snd (photo_run envs ph pw) = [].
Proof.
  induction envs as [|e rest IH]; intros ph pw Hfb; [simpl; auto|].
  cbn [photo_run]. unfold photo_transfer. rewrite Hfb.
  match goal with
  | |- context [photo_run rest ?p pw] =>
      destruct (IH p pw eq_refl) as (H1 & H2 & H3);
      destruct (photo_run rest p pw) as [[ph2 pw2] out2]
  end.
  simpl in *. auto.
Qed.

(** The passes an upload at [s] bytes sent and counter [c] needs at
    most: two per remaining byte and for the terminator, less one when
    the next pass is not a skipped one. *)
Local Notation "'passes_needed' s c" :=
  (2 * Z.to_nat (L - s)%Z + 1 + (if (2 <=? c)%Z then 1 else 0))%nat
  (at level 10, s at level 9, c at level 9).

(** From any point of an upload, enough passes send the rest of the
    image in chunks numbered from the current index on, then the
    terminator, and end idle. *)
Lemma photo_run_uploading envs : forall s k c pw,
  0 <= k <= s -> s <= L -> L < 2 ^ 32 ->
  (passes_needed s c <= length envs)%nat ->
  exists payloads,
    photoDataUploading (fst (fst (photo_run envs (uploading_at s k c) pw))) = false /\
    fb (fst (fst (photo_run envs (uploading_at s k c) pw))) = None /\
    snd (photo_run envs (uploading_at s k c) pw)
    = imap (fun i p => chunk_header (k + Z.of_nat i) orient ++ p) payloads
      ++ [[255; 255]] /\
    concat payloads = drop (Z.to_nat s) img /\
    (forall i p, payloads !! i = Some p ->
                 0 < Z.of_nat (length p) <= chunk_capacity (k + Z.of_nat i)).
Proof.
  induction envs as [|e rest IH]; intros s k c pw Hk Hs HL Hlen.
  - simpl in Hlen. lia.
  - cbn [photo_run].
    destruct (Z.leb_spec 2 c) as [Hc | Hc].
    + (* a skipped pass *)
      rewrite photo_transfer_skip by exact Hc.
      destruct (IH s k 0 pw Hk Hs HL) as (payloads & H1 & H2 & H3 & H4 & H5).
      { simpl in *. lia. }
      destruct (photo_run rest (uploading_at s k 0) pw) as [[ph2 pw2] out2].
      simpl in *. exists payloads. auto.
    + destruct (Z.eq_dec s L) as [-> | Hne].
      * (* the terminator *)
        rewrite photo_transfer_done by lia.
        set (ph1 := mkPhoto false None L k orient 0).
        destruct (photo_run_idle rest ph1 pw eq_refl) as (H1 & H2 & H3).
        destruct (photo_run rest ph1 pw) as [[ph2 pw2] out2]. simpl in *.
        exists []. subst out2.
        repeat split; auto.
        -- rewrite drop_ge; [reflexivity | lia].
        -- rewrite lookup_nil in H. discriminate.
        -- rewrite lookup_nil in H. discriminate.
      * (* a data chunk *)
        destruct (photo_transfer_chunk (env_now e) (env_link e) (env_tx e) s k c pw)
          as (b & c' & Hb & Hsb & Estep & Hc'); try lia.
        rewrite Estep.
        destruct (IH (s + b) (k + 1) c' (set_lastActivity (env_now e) pw))
          as (payloads & H1 & H2 & H3 & H4 & H5); try lia.
        { simpl in Hlen. destruct (Z.leb_spec 2 c'); lia. }
        destruct (photo_run rest (uploading_at (s + b) (k + 1) c')
                            (set_lastActivity (env_now e) pw)) as [[ph2 pw2] out2].
        simpl in *.
        exists (take (Z.to_nat b) (drop (Z.to_nat s) img) :: payloads).
        split; [exact H1|]. split; [exact H2|]. split; [|split].
        -- rewrite H3. cbn [imap]. rewrite Z.add_0_r. simpl. f_equal. f_equal.
           apply imap_ext. intros i p _. simpl. do 2 f_equal. lia.
        -- simpl. rewrite H4.
           replace (Z.to_nat (s + b)) with (Z.to_nat s + Z.to_nat b)%nat by lia.
           rewrite <- drop_drop. apply take_drop.
        -- intros [|i] p Hp; simpl in Hp.
           ++ inversion Hp; subst p. rewrite Z.add_0_r.
              rewrite length_take, length_drop. lia.
           ++ specialize (H5 i p Hp).
              replace (k + Z.of_nat (S i)) with (k + 1 + Z.of_nat i) by lia.
              exact H5.
Qed.
End PhotoFacts.

(** C4. An image of [L > 0] bytes, uploaded from the state the capture
    check sets up (nothing sent, chunk index 0) through enough passes of
    the loop, whatever the audio traffic during them: the notifications
    are a first chunk [[0; 0; orientation] ++ first] with at most 199
    payload bytes, then chunks [[index_lo; index_hi] ++ p] numbered
    1, 2, ... with at most 200 payload bytes each, then the terminator
    [[255; 255]] and nothing more; the payloads in order are the image
    (so their sizes add up to [L]); and at the end the uploading flag is
    cleared and the frame buffer released. *)
Theorem photo_upload_chunks (img : list Z) (orient c : Z) (pw : App.power)
    (envs : list App.pass_env) :
  (0 < length img)%nat ->
  Z.of_nat (length img) < 2 ^ 32 ->
  (2 * length img + 2 <= length envs)%nat ->
  let run := App.photo_run envs (App.mkPhoto true (Some img) 0 0 orient c) pw in
  App.photoDataUploading (fst (fst run)) = false /\
  App.fb (fst (fst run)) = None /\
  exists first rest,
    snd run
    = ([0; 0; wrap8 orient] ++ first)
      :: imap (fun i p => [Z.land (Z.of_nat i + 1) 255;
                           Z.land (Z.shiftr (Z.of_nat i + 1) 8) 255] ++ p) rest
      ++ [[255; 255]] /\
    first ++ concat rest = img /\
    (0 < length first <= 199)%nat /\
    Forall (fun p => (0 < length p <= 200)%nat) rest.
Proof.
  intros Hpos HL Hlen run. subst run.
  destruct (photo_run_uploading img orient envs 0 0 c pw)
    as (payloads & H1 & H2 & H3 & H4 & H5); try lia.
  { destruct (2 <=? c); lia. }
  split; [exact H1|]. split; [exact H2|].
  destruct payloads as [|first rest].
  - simpl in H4. destruct img; [simpl in Hpos; lia | discriminate].
  - exists first, rest. split; [|split; [|split]].
    + rewrite H3. cbn [imap]. simpl. f_equal. f_equal.
      apply imap_ext. intros i p _. simpl.
      unfold App.chunk_header.
      destruct (Z.eqb_spec (0 + Z.of_nat (S i)) 0); [lia|].
      replace (0 + Z.of_nat (S i)) with (Z.of_nat i + 1) by lia. reflexivity.
    + exact H4.
    + specialize (H5 0%nat first eq_refl).
      change (App.chunk_capacity (0 + Z.of_nat 0)) with 199 in H5. lia.
    + apply Forall_lookup. intros i p Hp.
      specialize (H5 (S i) p Hp). unfold App.chunk_capacity in H5.
      destruct (Z.eqb_spec (0 + Z.of_nat (S i)) 0); lia.
Qed.

(** L = 450: data chunks of 199, 200 and 51 payload bytes (202, 202 and
    53 bytes with their headers), then the 2-byte terminator. *)
Lemma photo_upload_chunks_witness :
  let run := App.photo_run (replicate 902 audio_idle_env)
                           (App.mkPhoto true (Some image_450) 0 0 2 0)
                           (App.mkPower 0 false true []) in
  App.photoDataUploading (fst (fst run)) = false /\
  map (fun chunk => length chunk) (snd run) = [202; 202; 53; 2]%nat /\
  map (take 3) (snd run) = [[0; 0; 2]; [1; 0; 199]; [2; 0; 143]; [255; 255]].
Proof.
  intros run. split.
  - apply (photo_upload_chunks image_450 2 0 (App.mkPower 0 false true [])
                               (replicate 902 audio_idle_env)).
    + vm_compute. lia.
    + vm_compute. reflexivity.
    + vm_compute. lia.
  - split; vm_compute; reflexivity.
Defined.

(** ** Audio before photo *)

Section ArbiterFacts.
Import App.
Variable cfg : config.

(** When the drain loop returns, the ring is empty. *)
Lemma drain_empties fuel : forall lk tx tx' sent,
  drain cfg fuel lk tx = Some (tx', sent) ->
  audio_tx_read_pos tx' = audio_tx_write_pos tx'.
Proof.
  induction fuel as [|fuel IH]; intros lk tx tx' sent H; simpl in H.
  - destruct (Z.eqb_spec (audio_tx_read_pos tx) (audio_tx_write_pos tx)); [|discriminate].
    inversion H; subst. assumption.
  - destruct (Z.eqb_spec (audio_tx_read_pos tx) (audio_tx_write_pos tx)).
    + inversion H; subst. assumption.
    + destruct (_ || _).
      * eapply IH; eauto.
      * destruct (broadcastAudioPacket _ _ _) as [tx2 s2].
        destruct (drain cfg fuel lk tx2) as [[tx3 rest]|] eqn:E; [|discriminate].
        inversion H; subst. eapply IH; eauto.
Qed.

(** A pass made with the client connected and subscribed, and no BLE
    callback arriving meanwhile, has emptied the ring by the time it
    reaches the photo transfer. *)
Lemma loop_app_drains_before_photo inp st st' out :
  connected (a_link st) = true ->
  audioSubscribed (a_link st) = true ->
  audioDataCharacteristic (a_link st) = true ->
  in_ble_events inp = no_events ->
  loop_app cfg inp st = Returned st' out ->
  audio_tx_read_pos (a_tx st') = audio_tx_write_pos (a_tx st').
Proof.
  intros Hc Hs Ha Hev H. unfold loop_app in H. rewrite Hev in H.
  cbn [no_events before_led before_audio_tx before_power before_capture before_photo
       before_sleep before_return apply_events fold_left] in H.
  unfold led_section, button_section in H.
  destruct (handleButton _ _ _ _ _) as [btn pw0].
  cbn [a_button a_link a_tx a_photo a_capture a_power a_led] in H.
  destruct (updateLED _ _ _ _) as [[[led1 mode1] pin] off].
  destruct off; [discriminate|].
  unfold audio_tx_section, encoder_section in H.
  cbn [a_button a_link a_tx a_photo a_capture a_power a_led] in H.
  rewrite Hc, Hs in H. cbn [andb] in H. unfold processAudioTx in H.
  rewrite Hc, Hs, Ha in H. cbn [negb orb] in H.
  destruct (drain cfg (in_fuel inp) (a_link st) _) as [[tx1 audio]|] eqn:E;
    [|discriminate].
  unfold photo_section, capture_section, power_section, sleep_section in H.
  cbn [a_button a_link a_tx a_photo a_capture a_power a_led] in H.
  destruct (capture_check _ _ _ _ _ _ _ _) as [[cap2 ph2] pw2].
  cbn [a_button a_link a_tx a_photo a_capture a_power a_led] in H.
  destruct (photo_transfer _ _ _ _ _) as [[ph3 pw3] chunks].
  cbn [a_button a_link a_tx a_photo a_capture a_power a_led] in H.
  destruct (negb (photoDataUploading ph3) && negb (audioSubscribed (a_link st)));
    [destruct (enableLightSleep _ _ _ _ _ _) as [pw4 slept]|];
    injection H as <- _; cbn [a_tx]; eapply drain_empties; eauto.
Qed.

(** Section 9 with a packet waiting and the client subscribed: the
    counter is set to 0 and a data chunk is sent all the same. *)
Lemma photo_transfer_audio_pending now lk tx img s k orient c pw :
  audioSubscribed lk = true ->
  audio_tx_read_pos tx <> audio_tx_write_pos tx ->
  c < 2 -> 0 <= s < Z.of_nat (length img) -> Z.of_nat (length img) < 2 ^ 32 ->
  exists chunk ph',
    photo_transfer now lk tx (mkPhoto true (Some img) s k orient c) pw
    = (ph', set_lastActivity now pw, [chunk]) /\
    photo_chunks_this_loop ph' = 0 /\
    sent_photo_bytes ph' = s + Z.of_nat (length chunk - length (chunk_header k orient)) /\
    (length (chunk_header k orient) < length chunk)%nat.
Proof.
  intros Hsub Hne Hc Hs HL. unfold photo_transfer. simpl.
  destruct (Z.ltb_spec c 2); [|lia].
  rewrite Hsub. destruct (Z.eqb_spec (audio_tx_read_pos tx) (audio_tx_write_pos tx));
    [contradiction|]. simpl.
  rewrite (wrap32_small (_ - s)) by lia.
  destruct (Z.gtb_spec (Z.of_nat (length img) - s) 0); [|lia].
  assert (Hcap : 199 <= chunk_capacity k <= 200)
    by (unfold chunk_capacity; destruct (k =? 0); lia).
  set (b := if _ >? chunk_capacity k then chunk_capacity k else _).
  assert (Hb : 0 < b /\ s + b <= Z.of_nat (length img))
    by (unfold b; destruct (Z.gtb_spec (Z.of_nat (length img) - s) (chunk_capacity k)); lia).
  eexists _, _. split; [reflexivity|]. simpl.
  rewrite length_app, length_take, length_drop.
  rewrite wrap32_small by lia.
  repeat split; lia.
Qed.
End ArbiterFacts.

(** C1 at a pass of the loop. The client is connected but has not yet
    subscribed to audio; a 5-byte image is being uploaded; the encoder
    queues a packet in this pass, and the client's subscription (a CCCD
    write of [01 00]) arrives after the audio section has run. Section 9
    then finds the client subscribed and the ring not empty, sets the
    counter to 0, and sends the photo chunk: the pass ends with the
    packet still in the ring, no audio sent and one photo chunk sent. *)
Theorem photo_chunk_sent_while_audio_pending :
  let st :=
    App.mkApp (App.mkButton false 0 0 false false App.LED_NORMAL_OPERATION)
              (App.mkLink true false true)
              (App.init_tx small_config)
              (App.mkPhoto true (Some [1; 2; 3; 4; 5]) 0 0 2 0)
              (App.mkCapture true 30000 1000)
              (App.mkPower 1000 false true [])
              (App.mkLed 0 0) in
  let inp :=
    App.mkInput 2000 2000 false 2000 [[7; 8; 9]]
                (App.mkSchedule [] [] [App.AudioCccdWrite [1; 0]] [] [] [] [])
                None 2000 2000 2000 10 in
  exists st' out,
    App.loop_app small_config inp st = App.Returned st' out /\
    App.audioSubscribed (App.a_link st') = true /\
    App.audio_tx_read_pos (App.a_tx st') = 0 /\
    App.audio_tx_write_pos (App.a_tx st') = 5 /\
    App.out_audio out = [] /\
    App.out_photo out = [[0; 0; 2; 1; 2; 3; 4; 5]] /\
    App.photo_chunks_this_loop (App.a_photo st') = 0.
Proof. eexists _, _. split; [reflexivity|]. repeat split. Qed.

(** With a packet waiting at every pass the counter never reaches 2, so
    no pass is skipped: the 450-byte image and its terminator go out in
    4 passes, against 5 when audio is idle. *)
Example photo_upload_pending_audio_passes :
  let start := App.mkPhoto true (Some image_450) 0 0 2 0 in
  let pw := App.mkPower 0 false true [] in
  length (snd (App.photo_run (replicate 4 audio_pending_env) start pw)) = 4%nat /\
  length (snd (App.photo_run (replicate 4 audio_idle_env) start pw)) = 3%nat /\
  length (snd (App.photo_run (replicate 5 audio_idle_env) start pw)) = 4%nat.
Proof. vm_compute. repeat split. Qed.


(** ** The sections of a pass *)

Section LoopSections.
Import App.
Variable cfg : config.

Lemma ble_callback_keeps ev st :
  a_photo (ble_callback cfg ev st) = a_photo st /\
  a_tx (ble_callback cfg ev st) = a_tx st /\
  a_button (ble_callback cfg ev st) = a_button st /\
  a_led (ble_callback cfg ev st) = a_led st /\
  powerSaveMode (a_power (ble_callback cfg ev st)) = powerSaveMode (a_power st).
Proof.
  destruct ev as [t | | value | t0 now value];
    cbn [ble_callback a_photo a_tx a_button a_led a_power]; auto.
  - destruct value as [|v0 [|v1 rest]]; auto.
  - unfold PhotoControl_onWrite. destruct value as [|byte [|b2 rest]];
      cbn [a_photo a_tx a_button a_led a_power]; auto.
Qed.

Lemma apply_events_keep evs : forall st,
  a_photo (apply_events cfg evs st) = a_photo st /\
  a_tx (apply_events cfg evs st) = a_tx st /\
  a_button (apply_events cfg evs st) = a_button st /\
  a_led (apply_events cfg evs st) = a_led st /\
  powerSaveMode (a_power (apply_events cfg evs st)) = powerSaveMode (a_power st).
Proof.
  unfold apply_events.
  induction evs as [|ev evs IH]; intros st; [cbn; auto|].
  cbn [fold_left]. destruct (IH (ble_callback cfg ev st)) as (-> & -> & -> & -> & ->).
  apply ble_callback_keeps.
Qed.

Lemma apply_events_app evs1 evs2 st :
  apply_events cfg (evs1 ++ evs2) st = apply_events cfg evs2 (apply_events cfg evs1 st).
Proof. unfold apply_events. apply fold_left_app. Qed.

(** What the callbacks do to the link flags depends on the link flags
    only. *)
Lemma ble_callback_link ev st st' :
  a_link st = a_link st' ->
  a_link (ble_callback cfg ev st) = a_link (ble_callback cfg ev st').
Proof.
  intros E. destruct ev as [t | | value | t0 now value]; cbn [ble_callback a_link].
  - now rewrite E.
  - now rewrite E.
  - destruct value as [|v0 [|v1 rest]]; cbn [a_link]; now rewrite ?E.
  - destruct (PhotoControl_onWrite cfg t0 now value (a_capture st) (a_power st)).
    destruct (PhotoControl_onWrite cfg t0 now value (a_capture st') (a_power st')).
    exact E.
Qed.

Lemma apply_events_link evs : forall st st',
  a_link st = a_link st' ->
  a_link (apply_events cfg evs st) = a_link (apply_events cfg evs st').
Proof.
  unfold apply_events.
  induction evs as [|ev evs IH]; intros st st' E; [exact E|].
  cbn [fold_left]. apply IH, ble_callback_link, E.
Qed.

(** What each section leaves alone. *)
Lemma button_section_keeps inp st :
  a_link (button_section cfg inp st) = a_link st /\
  a_tx (button_section cfg inp st) = a_tx st /\
  a_photo (button_section cfg inp st) = a_photo st /\
  a_capture (button_section cfg inp st) = a_capture st /\
  a_led (button_section cfg inp st) = a_led st.
Proof.
  unfold button_section. destruct (handleButton cfg _ _ _ _). cbn. auto.
Qed.

Lemma led_section_keeps inp st :
  a_link (fst (fst (led_section inp st))) = a_link st /\
  a_tx (fst (fst (led_section inp st))) = a_tx st /\
  a_photo (fst (fst (led_section inp st))) = a_photo st /\
  a_capture (fst (fst (led_section inp st))) = a_capture st /\
  a_power (fst (fst (led_section inp st))) = a_power st.
Proof.
  unfold led_section. destruct (updateLED _ _ _ _) as [[[led1 mode1] pin] off]. cbn. auto.
Qed.

Lemma encoder_section_keeps inp st :
  a_link (encoder_section cfg inp st) = a_link st /\
  a_photo (encoder_section cfg inp st) = a_photo st /\
  a_capture (encoder_section cfg inp st) = a_capture st /\
  a_power (encoder_section cfg inp st) = a_power st.
Proof. cbn. auto. Qed.

Lemma audio_tx_section_keeps inp st st' audio :
  audio_tx_section cfg inp st = Some (st', audio) ->
  a_link st' = a_link st /\
  a_photo st' = a_photo st /\
  a_capture st' = a_capture st /\
  a_power st' = a_power st.
Proof.
  unfold audio_tx_section. destruct (_ && _).
  - destruct (processAudioTx cfg _ _ _) as [[tx1 a]|]; [|discriminate].
    intros H. injection H as <- _. cbn. auto.
  - intros H. injection H as <- _. auto.
Qed.

Lemma power_section_keeps inp st :
  a_link (power_section cfg inp st) = a_link st /\
  a_tx (power_section cfg inp st) = a_tx st /\
  a_photo (power_section cfg inp st) = a_photo st /\
  a_capture (power_section cfg inp st) = a_capture st.
Proof. cbn. auto. Qed.



Lemma sleep_section_keeps inp st :
  a_link (fst (sleep_section inp st)) = a_link st /\
  a_tx (fst (sleep_section inp st)) = a_tx st /\
  a_photo (fst (sleep_section inp st)) = a_photo st /\
  a_capture (fst (sleep_section inp st)) = a_capture st.
Proof.
  unfold sleep_section. destruct (_ && _); [|cbn; auto].
  destruct (enableLightSleep _ _ _ _ _ _) as [pw slept]. cbn. auto.
Qed.

(** A pass that returns, section by section. *)
Lemma loop_app_returned inp st st' out :
  loop_app cfg inp st = Returned st' out ->
  let ev := in_ble_events inp in
  exists st2 pin st4 audio,
    led_section inp (apply_events cfg (before_led ev) (button_section cfg inp st))
    = (st2, pin, false) /\
    audio_tx_section cfg inp
      (apply_events cfg (before_audio_tx ev) (encoder_section cfg inp st2))
    = Some (st4, audio) /\
    let st5 := power_section cfg inp (apply_events cfg (before_power ev) st4) in
    let st6 := capture_section cfg inp (apply_events cfg (before_capture ev) st5) in
    let p := photo_section inp (apply_events cfg (before_photo ev) st6) in
    let s := sleep_section inp (apply_events cfg (before_sleep ev) (fst p)) in
    st' = apply_events cfg (before_return ev) (fst s) /\
    out = mkOutput pin audio (snd p) (snd s).
Proof.
  unfold loop_app. intros H. cbv zeta.
  destruct (led_section inp _) as [[st2 pin] off] eqn:E2. destruct off; [discriminate|].
  destruct (audio_tx_section cfg inp _) as [[st4 audio]|] eqn:E4; [|discriminate].
  exists st2, pin, st4, audio. split; [reflexivity|]. split; [exact E4|].
  revert H.
  destruct (photo_section inp _) as [st7 chunks]. cbn [fst snd].
  destruct (sleep_section inp _) as [st8 slept]. cbn [fst snd].
  intros H. injection H as <- <-. auto.
Qed.


(** The link flags a section finds are the ones at the start of the
    pass after the callbacks that arrived before it: no section writes
    them. *)
Lemma link_before_tx inp st st2 pin off :
  led_section inp (apply_events cfg (before_led (in_ble_events inp))
                                (button_section cfg inp st))
  = (st2, pin, off) ->
  a_link (apply_events cfg (before_audio_tx (in_ble_events inp))
                       (encoder_section cfg inp st2))
  = a_link (apply_events cfg (before_led (in_ble_events inp)
                              ++ before_audio_tx (in_ble_events inp)) st).
Proof.
  intros E2. rewrite apply_events_app. apply apply_events_link.
  cbn [encoder_section a_link].
  pose proof (led_section_keeps inp
                (apply_events cfg (before_led (in_ble_events inp))
                              (button_section cfg inp st))) as (Hl & _).
  rewrite E2 in Hl. cbn [fst] in Hl. rewrite Hl.
  apply apply_events_link. apply button_section_keeps.
Qed.

Lemma link_before_power inp st st2 pin off st4 audio :
  led_section inp (apply_events cfg (before_led (in_ble_events inp))
                                (button_section cfg inp st))
  = (st2, pin, off) ->
  audio_tx_section cfg inp
    (apply_events cfg (before_audio_tx (in_ble_events inp)) (encoder_section cfg inp st2))
  = Some (st4, audio) ->
  a_link (apply_events cfg (before_power (in_ble_events inp)) st4)
  = a_link (apply_events cfg (before_led (in_ble_events inp)
                              ++ before_audio_tx (in_ble_events inp)
                              ++ before_power (in_ble_events inp)) st).
Proof.
  intros E2 E4. rewrite app_assoc, (apply_events_app (_ ++ _)).
  apply apply_events_link.
  destruct (audio_tx_section_keeps inp _ _ _ E4) as (-> & _).
  apply (link_before_tx inp st st2 pin off E2).
Qed.

(** The photo state reaches the capture check as the pass found it. *)
Lemma photo_before_capture inp st st2 pin off st4 audio :
  led_section inp (apply_events cfg (before_led (in_ble_events inp))
                                (button_section cfg inp st))
  = (st2, pin, off) ->
  audio_tx_section cfg inp
    (apply_events cfg (before_audio_tx (in_ble_events inp)) (encoder_section cfg inp st2))
  = Some (st4, audio) ->
  a_photo st4 = a_photo st.
Proof.
  intros E2 E4.
  destruct (audio_tx_section_keeps inp _ _ _ E4) as (_ & -> & _).
  destruct (apply_events_keep (before_audio_tx (in_ble_events inp))
              (encoder_section cfg inp st2)) as (-> & _).
  cbn [encoder_section a_photo].
  pose proof (led_section_keeps inp
                (apply_events cfg (before_led (in_ble_events inp))
                              (button_section cfg inp st))) as (_ & _ & Hp & _).
  rewrite E2 in Hp. cbn [fst] in Hp. rewrite Hp.
  destruct (apply_events_keep (before_led (in_ble_events inp))
              (button_section cfg inp st)) as (-> & _).
  apply button_section_keeps.
Qed.

End LoopSections.


(** ** The transmit ring as a queue *)

Lemma mod_add_inj n w a b :
  0 < n -> 0 <= a < n -> 0 <= b < n ->
  (w + a) mod n = (w + b) mod n -> a = b.
Proof.
  intros Hn Ha Hb H.
  pose proof (Z.div_mod (w + a) n ltac:(lia)) as Ea.
  pose proof (Z.div_mod (w + b) n ltac:(lia)) as Eb.
  rewrite H in Ea.
  assert (Hd : a - b = n * ((w + a) / n - (w + b) / n)) by lia.
  assert ((w + a) / n - (w + b) / n = 0) by nia.
  lia.
Qed.

Section TxQueueFacts.
Import App TxQueue.
Variable cfg : config.
Local Notation "'SIZE'" := (AUDIO_TX_BUFFER_SIZE cfg).

Lemma write_block_length bytes : forall pos buf,
  length (write_block cfg bytes pos buf) = length buf.
Proof.
  induction bytes as [|b rest IH]; intros pos buf; simpl; [reflexivity|].
  rewrite IH. apply aset_length.
Qed.

Lemma write_block_outside bytes : forall pos buf p,
  0 < SIZE -> 0 <= p ->
  (forall j, (j < length bytes)%nat -> (pos + Z.of_nat j) mod SIZE <> p) ->
  aget (write_block cfg bytes pos buf) p = aget buf p.
Proof.
  induction bytes as [|b rest IH]; intros pos buf p Hs Hp Hout; simpl; [reflexivity|].
  rewrite IH; auto.
  - apply aget_aset_ne; auto.
    + pose proof (Z.mod_pos_bound pos SIZE Hs). lia.
    + specialize (Hout 0%nat ltac:(simpl; lia)). rewrite Z.add_0_r in Hout. exact Hout.
  - intros j Hj. specialize (Hout (S j) ltac:(simpl; lia)).
    replace (pos + 1 + Z.of_nat j) with (pos + Z.of_nat (S j)) by lia. exact Hout.
Qed.

Lemma write_block_inside bytes : forall pos buf (j : nat) x,
  Z.of_nat (length buf) = SIZE ->
  Z.of_nat (length bytes) <= SIZE ->
  bytes !! j = Some x ->
  aget (write_block cfg bytes pos buf) ((pos + Z.of_nat j) mod SIZE) = x.
Proof.
  induction bytes as [|b rest IH]; intros pos buf j x Hlen Hfit Hj; [discriminate|].
  assert (Hs : 0 < SIZE) by (simpl in Hfit; lia).
  simpl. destruct j as [|j]; simpl in Hj.
  - inversion Hj; subst x. rewrite Z.add_0_r.
    pose proof (Z.mod_pos_bound pos SIZE Hs).
    rewrite write_block_outside; [| exact Hs | lia |].
    + apply aget_aset_eq. lia.
    + intros k Hk E. simpl in Hfit.
      assert (1 + Z.of_nat k = 0); [|lia].
      apply (mod_add_inj SIZE pos); try lia.
      rewrite Z.add_0_r, <- E. f_equal. lia.
  - replace (pos + Z.of_nat (S j)) with (pos + 1 + Z.of_nat j) by lia.
    apply IH; auto.
    + rewrite aset_length. exact Hlen.
    + simpl in Hfit. lia.
Qed.

Lemma tx_view_length buf r n : length (tx_view cfg buf r n) = n.
Proof. unfold tx_view. now rewrite length_map, length_seq. Qed.

Lemma tx_view_app buf r n m :
  tx_view cfg buf r (n + m)
  = tx_view cfg buf r n ++ tx_view cfg buf ((r + Z.of_nat n) mod SIZE) m.
Proof.
  unfold tx_view. rewrite seq_app, map_app. f_equal. simpl.
  assert (E : seq n m = map (Nat.add n) (seq 0 m)).
  { symmetry. etransitivity; [apply (fmap_add_seq n 0 m) | f_equal; lia]. }
  rewrite E, map_map. apply map_ext. intros k.
  rewrite Zplus_mod_idemp_l. do 2 f_equal. lia.
Qed.

Lemma tx_view_outside bytes pos buf r n :
  0 < SIZE ->
  (forall k j, (k < n)%nat -> (j < length bytes)%nat ->
               (r + Z.of_nat k) mod SIZE <> (pos + Z.of_nat j) mod SIZE) ->
  tx_view cfg (write_block cfg bytes pos buf) r n = tx_view cfg buf r n.
Proof.
  intros Hs H. unfold tx_view. apply map_ext_in. intros k Hk.
  apply in_seq in Hk. apply write_block_outside; auto.
  - pose proof (Z.mod_pos_bound (r + Z.of_nat k) SIZE Hs). lia.
  - intros j Hj E. apply (H k j); [lia | exact Hj | now rewrite E].
Qed.

Lemma tx_view_written bytes pos buf :
  Z.of_nat (length buf) = SIZE ->
  Z.of_nat (length bytes) <= SIZE ->
  tx_view cfg (write_block cfg bytes pos buf) (pos mod SIZE) (length bytes) = bytes.
Proof.
  intros Hlen Hfit. apply list_eq. intros j. unfold tx_view.
  change (map ?f ?l) with (f <$> l). rewrite list_lookup_fmap.
  destruct (bytes !! j) as [x|] eqn:E.
  - pose proof (lookup_lt_Some _ _ _ E) as Hj.
    rewrite lookup_seq_lt by exact Hj. simpl. f_equal.
    rewrite Zplus_mod_idemp_l. apply write_block_inside; auto.
  - pose proof (lookup_ge_None_1 _ _ E) as Hj.
    rewrite lookup_seq_ge by exact Hj. reflexivity.
Qed.

(** The buffer [onOpusEncoded] leaves is the old one with the framed
    record written from the write position on. *)
Lemma store_payload_block data : forall i w buf,
  store_payload cfg data i w buf = write_block cfg data (w + 2 + i) buf.
Proof.
  induction data as [|d rest IH]; intros i w buf; simpl; [reflexivity|].
  rewrite IH. f_equal. lia.
Qed.

Lemma onOpusEncoded_block data tx :
  0 <= audio_tx_write_pos tx < SIZE ->
  Z.of_nat (length data) <= OPUS_OUTPUT_MAX_BYTES cfg ->
  tx_overflow (audio_tx_write_pos tx) (audio_tx_read_pos tx)
    ((audio_tx_write_pos tx + (Z.of_nat (length data) + 2)) mod SIZE) = false ->
  onOpusEncoded cfg data tx
  = mkTx (write_block cfg (frame data) (audio_tx_write_pos tx) (audio_tx_buffer tx))
         ((audio_tx_write_pos tx + (Z.of_nat (length data) + 2)) mod SIZE)
         (audio_tx_read_pos tx) (audioPacketIndex tx).
Proof.
  intros Hw Hlen Hadm. unfold onOpusEncoded.
  destruct (Z.gtb_spec (Z.of_nat (length data)) (OPUS_OUTPUT_MAX_BYTES cfg)); [lia|].
  rewrite Hadm. f_equal. unfold frame. simpl.
  rewrite store_payload_block, Z.add_0_r.
  rewrite (Z.mod_small (audio_tx_write_pos tx)) by lia.
  replace (audio_tx_write_pos tx + 1 + 1) with (audio_tx_write_pos tx + 2) by lia.
  reflexivity.
Qed.
End TxQueueFacts.

Section TxQueueFacts2.
Import App TxQueue.
Variable cfg : config.
Local Notation "'SIZE'" := (AUDIO_TX_BUFFER_SIZE cfg).
Local Notation "'MAX'" := (OPUS_OUTPUT_MAX_BYTES cfg).

Lemma frame_length data : length (frame data) = (2 + length data)%nat.
Proof. reflexivity. Qed.

Lemma used_free_sum tx :
  0 <= audio_tx_write_pos tx < SIZE -> 0 <= audio_tx_read_pos tx < SIZE ->
  0 <= tx_used cfg tx /\ 0 <= tx_free cfg tx /\
  tx_used cfg tx + tx_free cfg tx = SIZE - 1.
Proof.
  intros Hw Hr. unfold tx_used, tx_free.
  set (w := audio_tx_write_pos tx) in *. set (r := audio_tx_read_pos tx) in *.
  assert (Hu : (w - r) mod SIZE = if r <=? w then w - r else w - r + SIZE).
  { destruct (Z.leb_spec r w).
    - apply Z.mod_small. lia.
    - replace (w - r) with (w - r + SIZE + (-1) * SIZE) at 1 by lia.
      rewrite Z_mod_plus_full. apply Z.mod_small. lia. }
  assert (Hf : (r - w - 1) mod SIZE = if w <? r then r - w - 1 else r - w - 1 + SIZE).
  { destruct (Z.ltb_spec w r).
    - apply Z.mod_small. lia.
    - replace (r - w - 1) with (r - w - 1 + SIZE + (-1) * SIZE) at 1 by lia.
      rewrite Z_mod_plus_full. apply Z.mod_small. lia. }
  rewrite Hu, Hf. destruct (Z.leb_spec r w); destruct (Z.ltb_spec w r); lia.
Qed.

(** The write position is the read position advanced by the unread
    bytes. *)
Lemma read_plus_used tx :
  0 <= audio_tx_write_pos tx < SIZE ->
  (audio_tx_read_pos tx + tx_used cfg tx) mod SIZE = audio_tx_write_pos tx.
Proof.
  intros Hw. unfold tx_used. rewrite Zplus_mod_idemp_r.
  replace (audio_tx_read_pos tx + (audio_tx_write_pos tx - audio_tx_read_pos tx))
    with (audio_tx_write_pos tx) by lia.
  apply Z.mod_small. exact Hw.
Qed.

Lemma fits_is_admitted tx (data : list Z) :
  0 <= audio_tx_write_pos tx < SIZE -> 0 <= audio_tx_read_pos tx < SIZE ->
  Z.of_nat (length data) + 2 <= tx_free cfg tx ->
  tx_overflow (audio_tx_write_pos tx) (audio_tx_read_pos tx)
    ((audio_tx_write_pos tx + (Z.of_nat (length data) + 2)) mod SIZE) = false.
Proof.
  intros Hw Hr Hfit.
  destruct (used_free_sum tx Hw Hr) as (Hu & Hf & Hsum).
  apply tx_overflow_exact; try lia.
  - destruct (Z_lt_le_dec (audio_tx_write_pos tx) (audio_tx_read_pos tx)) as [Hlt | Hge];
      [right | left; lia].
    unfold tx_free in Hfit. rewrite Z.mod_small in Hfit by lia. lia.
  - exact Hfit.
Qed.

Lemma publish_appends tx q (data : list Z) :
  holds cfg tx q ->
  Z.of_nat (length data) <= MAX ->
  Z.of_nat (length data) + 2 <= tx_free cfg tx ->
  holds cfg (onOpusEncoded cfg data tx) (q ++ [data]).
Proof.
  intros (Hlen & Hw & Hr & Hview & Hall) Hmax Hfit.
  destruct (used_free_sum tx Hw Hr) as (Hu & Hf & Hsum).
  assert (Hs : 0 < SIZE) by lia.
  rewrite onOpusEncoded_block by (auto using fits_is_admitted).
  set (w := audio_tx_write_pos tx) in *. set (r := audio_tx_read_pos tx) in *.
  set (ps := Z.of_nat (length data) + 2) in *.
  assert (Hw' : 0 <= (w + ps) mod SIZE < SIZE) by (apply Z.mod_pos_bound; exact Hs).
  assert (Hused' : tx_used cfg (mkTx (write_block cfg (frame data) w (audio_tx_buffer tx))
                                    ((w + ps) mod SIZE) r (audioPacketIndex tx))
                   = tx_used cfg tx + ps).
  { unfold tx_used. simpl. fold w r.
    rewrite Zminus_mod_idemp_l.
    replace (w + ps - r) with ((w - r) + ps) by lia.
    rewrite <- Zplus_mod_idemp_l. apply Z.mod_small.
    unfold tx_used in Hu, Hsum. fold w r in Hu, Hsum. lia. }
  unfold holds. rewrite Hused'.
  cbn [audio_tx_buffer audio_tx_write_pos audio_tx_read_pos].
  split; [rewrite write_block_length; exact Hlen|].
  split; [exact Hw'|]. split; [exact Hr|]. split.
  - replace (Z.to_nat (tx_used cfg tx + ps))
      with (Z.to_nat (tx_used cfg tx) + length (frame data))%nat
      by (rewrite frame_length; unfold ps; lia).
    rewrite tx_view_app, map_app, concat_app. cbn [map concat]. rewrite app_nil_r.
    f_equal.
    + rewrite tx_view_outside; [exact Hview | exact Hs |].
      intros k j Hk Hj E. rewrite frame_length in Hj.
      assert (Z.of_nat k = tx_used cfg tx + Z.of_nat j); [|lia].
      apply (mod_add_inj SIZE r); try (unfold ps in *; lia).
      rewrite E.
      transitivity (((r + tx_used cfg tx) mod SIZE + Z.of_nat j) mod SIZE).
      * unfold r. rewrite (read_plus_used tx Hw). reflexivity.
      * rewrite Zplus_mod_idemp_l. f_equal. lia.
    + rewrite Z2Nat.id by lia. unfold r. rewrite (read_plus_used tx Hw). fold w.
      rewrite <- (Z.mod_small w SIZE) at 2 by lia.
      apply tx_view_written; [exact Hlen|].
      rewrite frame_length. unfold ps in *. lia.
  - apply Forall_app. split; [exact Hall|]. constructor; [exact Hmax | constructor].
Qed.

Lemma publish_free tx q (data : list Z) :
  holds cfg tx q ->
  Z.of_nat (length data) <= MAX ->
  Z.of_nat (length data) + 2 <= tx_free cfg tx ->
  tx_free cfg (onOpusEncoded cfg data tx) = tx_free cfg tx - (Z.of_nat (length data) + 2) /\
  audio_tx_read_pos (onOpusEncoded cfg data tx) = audio_tx_read_pos tx /\
  audioPacketIndex (onOpusEncoded cfg data tx) = audioPacketIndex tx.
Proof.
  intros (Hlen & Hw & Hr & Hview & Hall) Hmax Hfit.
  destruct (used_free_sum tx Hw Hr) as (Hu & Hf & Hsum).
  assert (Hs : 0 < SIZE) by lia.
  rewrite onOpusEncoded_block by (try apply fits_is_admitted; try assumption; lia).
  unfold tx_free in *. cbn [audio_tx_write_pos audio_tx_read_pos audioPacketIndex].
  split; [|split; reflexivity].
  set (w := audio_tx_write_pos tx) in *. set (r := audio_tx_read_pos tx) in *.
  set (n := Z.of_nat (length data) + 2) in *.
  replace (r - (w + n) mod SIZE - 1) with ((r - 1) - (w + n) mod SIZE) by lia.
  rewrite Zminus_mod_idemp_r.
  replace (r - 1 - (w + n)) with ((r - w - 1) - n) by lia.
  rewrite <- Zminus_mod_idemp_l. apply Z.mod_small. lia.
Qed.

(** X3. A packet that does not fit is dropped whole: with the ring
    positions in range, a record shorter than the ring, and the write
    position not below the read position (or the record ending before
    the end of the array), a packet needing more than the free space
    leaves the buffer, both positions and the sequence number as they
    were. *)
Theorem tx_ring_refuses_when_full tx (data : list Z) :
  0 <= audio_tx_write_pos tx < SIZE -> 0 <= audio_tx_read_pos tx < SIZE ->
  Z.of_nat (length data) + 2 < SIZE ->
  audio_tx_read_pos tx <= audio_tx_write_pos tx
  \/ audio_tx_write_pos tx + Z.of_nat (length data) + 2 < SIZE ->
  tx_free cfg tx < Z.of_nat (length data) + 2 ->
  onOpusEncoded cfg data tx = tx.
Proof.
  intros Hw Hr Hps Hcase Hfull.
  apply onOpusEncoded_refused.
  destruct (tx_overflow _ _ _) eqn:E; [reflexivity|].
  apply tx_overflow_exact in E; try lia.
  unfold tx_free in Hfull. lia.
Qed.
End TxQueueFacts2.

Lemma decode_uint16 n :
  0 <= n < 65536 ->
  Z.lor (Z.land n 255) (Z.shiftl (Z.land (Z.shiftr n 8) 255) 8) = n.
Proof.
  intros Hn. destruct (split_uint16 n Hn) as (Hlo & Hhi & Hsum).
  set (lo := Z.land n 255) in *. set (hi := Z.land (Z.shiftr n 8) 255) in *.
  rewrite Z.shiftl_mul_pow2 by lia.
  assert (Hdisj : Z.land lo (hi * 2 ^ 8) = 0).
  { apply Z.bits_inj'. intros k Hk. rewrite Z.land_spec, Z.bits_0.
    destruct (Z_lt_le_dec k 8).
    - rewrite Z.mul_pow2_bits_low by lia. apply andb_false_r.
    - rewrite <- (Z.mod_small lo (2 ^ 8)) by (change (2 ^ 8) with 256; lia).
      rewrite Z.mod_pow2_bits_high by lia. reflexivity. }
  rewrite <- Z.lxor_lor, <- Z.add_nocarry_lxor by exact Hdisj.
  change (2 ^ 8) with 256. lia.
Qed.

Section TxQueueFacts3.
Import App TxQueue.
Variable cfg : config.
Local Notation "'SIZE'" := (AUDIO_TX_BUFFER_SIZE cfg).
Local Notation "'MAX'" := (OPUS_OUTPUT_MAX_BYTES cfg).

Lemma tx_view_cons buf r n :
  tx_view cfg buf r (S n)
  = aget buf (r mod SIZE) :: tx_view cfg buf ((r + 1) mod SIZE) n.
Proof.
  change (S n) with (1 + n)%nat. rewrite tx_view_app. simpl.
  rewrite Z.add_0_r. reflexivity.
Qed.

Lemma load_payload_view n : forall i r buf,
  load_payload cfg n i r buf = tx_view cfg buf ((r + 2 + i) mod SIZE) n.
Proof.
  induction n as [|n IH]; intros i r buf; [reflexivity|].
  rewrite tx_view_cons. simpl. rewrite Zmod_mod. f_equal.
  rewrite IH. f_equal. rewrite Zplus_mod_idemp_l. f_equal. lia.
Qed.

(** The oldest record of a ring that holds [d :: q] sits at the read
    position; past it the ring holds [q]. *)
Lemma holds_front tx d q :
  holds cfg tx (d :: q) ->
  tx_view cfg (audio_tx_buffer tx) (audio_tx_read_pos tx) (2 + length d) = frame d /\
  Z.of_nat (length d) + 2 <= tx_used cfg tx /\
  holds cfg (set_tx_read_pos ((audio_tx_read_pos tx + 2 + Z.of_nat (length d)) mod SIZE) tx) q.
Proof.
  intros (Hlen & Hw & Hr & Hview & Hall).
  destruct (used_free_sum cfg tx Hw Hr) as (Hu & Hf & Hsum).
  assert (Hs : 0 < SIZE) by lia.
  cbn [map concat] in Hview.
  set (rest := concat (map frame q)) in *.
  assert (Hn : Z.to_nat (tx_used cfg tx) = (length (frame d) + length rest)%nat).
  { rewrite <- length_app, <- Hview. symmetry. apply tx_view_length. }
  rewrite Hn, tx_view_app in Hview.
  apply app_inj_1 in Hview as [Hfront Hrest]; [|apply tx_view_length].
  rewrite frame_length in *.
  split; [exact Hfront|]. split; [lia|].
  assert (Hbound : 0 <= tx_used cfg tx - (Z.of_nat (length d) + 2) < SIZE) by lia.
  set (r' := (audio_tx_read_pos tx + 2 + Z.of_nat (length d)) mod SIZE).
  assert (Hr' : 0 <= r' < SIZE) by (apply Z.mod_pos_bound; exact Hs).
  assert (Hused' : tx_used cfg (set_tx_read_pos r' tx)
                   = tx_used cfg tx - (Z.of_nat (length d) + 2)).
  { unfold tx_used, r', set_tx_read_pos.
    cbn [audio_tx_write_pos audio_tx_read_pos]. rewrite Zminus_mod_idemp_r.
    replace (audio_tx_write_pos tx - (audio_tx_read_pos tx + 2 + Z.of_nat (length d)))
      with ((audio_tx_write_pos tx - audio_tx_read_pos tx) - (Z.of_nat (length d) + 2)) by lia.
    rewrite <- Zminus_mod_idemp_l. apply Z.mod_small.
    exact Hbound. }
  unfold holds. rewrite Hused'. unfold set_tx_read_pos.
  cbn [audio_tx_buffer audio_tx_write_pos audio_tx_read_pos].
  split; [exact Hlen|]. split; [exact Hw|]. split; [exact Hr'|]. split.
  - replace (Z.to_nat (tx_used cfg tx - (Z.of_nat (length d) + 2))) with (length rest) by lia.
    etransitivity; [|exact Hrest]. unfold r'.
    replace (Z.of_nat (2 + length d)) with (2 + Z.of_nat (length d)) by lia.
    rewrite Z.add_assoc. reflexivity.
  - inversion Hall; assumption.
Qed.

Lemma holds_nil_empty tx :
  holds cfg tx [] -> audio_tx_read_pos tx = audio_tx_write_pos tx.
Proof.
  intros (Hlen & Hw & Hr & Hview & _).
  destruct (used_free_sum cfg tx Hw Hr) as (Hu & Hf & Hsum).
  assert (Hz : Z.to_nat (tx_used cfg tx) = 0%nat).
  { rewrite <- (tx_view_length cfg (audio_tx_buffer tx) (audio_tx_read_pos tx)
                                (Z.to_nat (tx_used cfg tx))).
    rewrite Hview. reflexivity. }
  pose proof (read_plus_used cfg tx Hw) as E.
  replace (tx_used cfg tx) with 0 in E by lia.
  rewrite Z.add_0_r, Z.mod_small in E by lia. exact E.
Qed.

Lemma holds_cons_nonempty tx d q :
  holds cfg tx (d :: q) -> audio_tx_read_pos tx <> audio_tx_write_pos tx.
Proof.
  intros H. pose proof (holds_front tx d q H) as (_ & Hused & _).
  destruct H as (_ & Hw & Hr & _). intros E.
  unfold tx_used in Hused. rewrite E, Z.sub_diag, Z.mod_0_l in Hused; lia.
Qed.

Lemma holds_index tx q idx :
  holds cfg tx q ->
  holds cfg (mkTx (audio_tx_buffer tx) (audio_tx_write_pos tx) (audio_tx_read_pos tx) idx) q.
Proof. intros H. exact H. Qed.

(** [broadcastAudioPacket] touches the sequence number only, and what it
    sends depends on the sequence number only. *)
Lemma broadcast_all_positions calls : forall tx,
  audio_tx_buffer (fst (broadcast_all calls tx)) = audio_tx_buffer tx /\
  audio_tx_write_pos (fst (broadcast_all calls tx)) = audio_tx_write_pos tx /\
  audio_tx_read_pos (fst (broadcast_all calls tx)) = audio_tx_read_pos tx.
Proof.
  induction calls as [|[lk d] rest IH]; intros tx; [simpl; auto|].
  cbn [broadcast_all].
  assert (H1 : audio_tx_buffer (fst (broadcastAudioPacket lk d tx)) = audio_tx_buffer tx /\
               audio_tx_write_pos (fst (broadcastAudioPacket lk d tx)) = audio_tx_write_pos tx /\
               audio_tx_read_pos (fst (broadcastAudioPacket lk d tx)) = audio_tx_read_pos tx).
  { unfold broadcastAudioPacket. destruct (_ || _); simpl; auto. }
  destruct (broadcastAudioPacket lk d tx) as [tx1 sent]. simpl in H1.
  specialize (IH tx1). destruct (broadcast_all rest tx1) as [tx2 more]. simpl in *.
  intuition congruence.
Qed.

Lemma broadcast_all_index calls : forall tx tx',
  audioPacketIndex tx' = audioPacketIndex tx ->
  snd (broadcast_all calls tx') = snd (broadcast_all calls tx) /\
  audioPacketIndex (fst (broadcast_all calls tx'))
  = audioPacketIndex (fst (broadcast_all calls tx)).
Proof.
  induction calls as [|[lk d] rest IH]; intros tx tx' E; [simpl; auto|].
  cbn [broadcast_all].
  assert (H1 : snd (broadcastAudioPacket lk d tx') = snd (broadcastAudioPacket lk d tx) /\
               audioPacketIndex (fst (broadcastAudioPacket lk d tx'))
               = audioPacketIndex (fst (broadcastAudioPacket lk d tx))).
  { unfold broadcastAudioPacket. destruct (_ || _); simpl; rewrite ?E; auto. }
  destruct (broadcastAudioPacket lk d tx) as [tx1 sent].
  destruct (broadcastAudioPacket lk d tx') as [tx1' sent']. simpl in H1.
  destruct H1 as [-> E1]. specialize (IH tx1 tx1' E1).
  destruct (broadcast_all rest tx1) as [tx2 more].
  destruct (broadcast_all rest tx1') as [tx2' more']. simpl in *.
  destruct IH as [-> ->]. auto.
Qed.

(** The drain loop on a ring that holds [q], the link being up: it
    returns once it has as many passes as [q] has records, having sent
    the packets of [q] that are not empty and moved the read position up
    to the write position. *)
Lemma drain_holds q : forall fuel lk tx,
  MAX <= 65535 ->
  connected lk && audioSubscribed lk && audioDataCharacteristic lk = true ->
  holds cfg tx q ->
  (length q <= fuel)%nat ->
  drain cfg fuel lk tx
  = Some (mkTx (audio_tx_buffer tx) (audio_tx_write_pos tx) (audio_tx_write_pos tx)
               (audioPacketIndex
                  (fst (broadcast_all (map (fun d => (lk, d)) (sendable q)) tx))),
          snd (broadcast_all (map (fun d => (lk, d)) (sendable q)) tx)).
Proof.
  induction q as [|d q IH]; intros fuel lk tx Hmax Hup Hq Hfuel.
  - pose proof (holds_nil_empty tx Hq) as E.
    assert (Hd : drain cfg fuel lk tx = Some (tx, [])).
    { destruct fuel; simpl; rewrite E, Z.eqb_refl; reflexivity. }
    rewrite Hd. simpl. rewrite <- E at 2. destruct tx; reflexivity.
  - destruct fuel as [|fuel]; [simpl in Hfuel; lia|].
    pose proof (holds_cons_nonempty tx d q Hq) as Hne.
    pose proof (holds_front tx d q Hq) as (Hfront & Hused & Hrest).
    assert (Hd_max : Z.of_nat (length d) <= MAX).
    { destruct Hq as (_ & _ & _ & _ & Hall). inversion Hall; assumption. }
    destruct Hq as (Hlen & Hw & Hr & _ & _).
    assert (Hs : 0 < SIZE) by lia.
    cbn [drain]. destruct (Z.eqb_spec (audio_tx_read_pos tx) (audio_tx_write_pos tx));
      [contradiction|].
    (* the length field *)
    change (2 + length d)%nat with (S (S (length d))) in Hfront.
    rewrite !tx_view_cons in Hfront. unfold frame in Hfront.
    cbn [Datatypes.app] in Hfront.
    injection Hfront as Hlo Hhi Hpayload.
    rewrite Z.mod_small in Hlo by lia. rewrite Hlo.
    rewrite Zmod_mod in Hhi. rewrite Hhi.
    rewrite decode_uint16 by lia.
    rewrite Zplus_mod_idemp_l in Hpayload.
    replace (audio_tx_read_pos tx + 1 + 1) with (audio_tx_read_pos tx + 2 + 0) in Hpayload by lia.
    rewrite <- load_payload_view in Hpayload.
    destruct d as [|d0 d'].
    + (* an empty record is skipped *)
      cbn [length Z.of_nat Z.eqb orb]. cbn [length Z.of_nat] in Hrest.
      rewrite Z.add_0_r in Hrest.
      rewrite (IH fuel lk _ Hmax Hup Hrest) by (simpl in Hfuel; lia).
      change (sendable ([] :: q)) with (sendable q).
      match goal with
      | |- context [broadcast_all ?c (set_tx_read_pos ?p tx)] =>
          destruct (broadcast_all_index c tx (set_tx_read_pos p tx) eq_refl) as [Esnd Eidx]
      end.
      rewrite Esnd, Eidx. reflexivity.
    + assert (Hlen_pos : (Z.of_nat (length (d0 :: d')) =? 0) = false)
        by (apply Z.eqb_neq; simpl; lia).
      rewrite Hlen_pos.
      destruct (Z.gtb_spec (Z.of_nat (length (d0 :: d'))) MAX); [lia|].
      cbn [orb]. rewrite Nat2Z.id, Hpayload.
      set (d := d0 :: d') in *.
      assert (Hsend : sendable (d :: q) = d :: sendable q) by reflexivity.
      rewrite Hsend. cbn [map broadcast_all].
      rewrite !(broadcast_sent lk d _ Hup).
      cbn [audio_tx_buffer audio_tx_write_pos audio_tx_read_pos audioPacketIndex set_tx_read_pos].
      unfold set_tx_read_pos.
      cbn [audio_tx_buffer audio_tx_write_pos audio_tx_read_pos audioPacketIndex].
      match goal with
      | |- context [drain cfg fuel lk ?t] =>
          rewrite (IH fuel lk t Hmax Hup) by (try exact Hrest; simpl in Hfuel; lia);
          set (tx2 := t)
      end.
      match goal with
      | |- context [broadcast_all ?c (mkTx ?b ?w (audio_tx_read_pos tx) ?i)] =>
          destruct (broadcast_all_index c (mkTx b w (audio_tx_read_pos tx) i) tx2 eq_refl)
            as [Esnd Eidx];
          destruct (broadcast_all c (mkTx b w (audio_tx_read_pos tx) i)) as [t3 more]
      end.
      cbn [fst snd] in *. rewrite Esnd, Eidx. reflexivity.
Qed.
End TxQueueFacts3.


Section TxQueueTheorems.
Import App TxQueue.
Variable cfg : config.
Local Notation "'SIZE'" := (AUDIO_TX_BUFFER_SIZE cfg).
Local Notation "'MAX'" := (OPUS_OUTPUT_MAX_BYTES cfg).
Local Notation "'link_up' lk" :=
  (connected lk && audioSubscribed lk && audioDataCharacteristic lk)
  (at level 10, lk at level 9).

Lemma broadcast_all_payloads lk l : forall tx,
  link_up lk = true ->
  map (drop 3) (snd (broadcast_all (map (fun d => (lk, d)) l) tx)) = l.
Proof.
  induction l as [|d l IH]; intros tx Hup; [reflexivity|].
  cbn [map broadcast_all]. rewrite (broadcast_sent lk d tx Hup).
  specialize (IH (mkTx (audio_tx_buffer tx) (audio_tx_write_pos tx) (audio_tx_read_pos tx)
                       (wrap16 (audioPacketIndex tx + 1))) Hup).
  destruct (broadcast_all _ _) as [t more]. cbn [snd] in *.
  cbn [Datatypes.app map]. rewrite IH. reflexivity.
Qed.

Lemma holds_drained tx :
  Z.of_nat (length (audio_tx_buffer tx)) = SIZE ->
  0 <= audio_tx_write_pos tx < SIZE ->
  forall idx,
  holds cfg (mkTx (audio_tx_buffer tx) (audio_tx_write_pos tx) (audio_tx_write_pos tx) idx) [].
Proof.
  intros Hlen Hw idx. unfold holds, tx_used.
  cbn [audio_tx_buffer audio_tx_write_pos audio_tx_read_pos].
  rewrite Z.sub_diag, Z.mod_0_l by lia.
  repeat split; try lia; try assumption. constructor.
Qed.

(** Draining a ring that holds the queue [q] over a link that is up. *)
Lemma drain_delivers fuel lk tx q :
  MAX <= 65535 ->
  link_up lk = true ->
  holds cfg tx q ->
  (length q <= fuel)%nat ->
  exists tx' out,
    drain cfg fuel lk tx = Some (tx', out) /\
    map (drop 3) out = sendable q /\
    holds cfg tx' [].
Proof.
  intros Hmax Hup Hq Hfuel.
  rewrite (drain_holds cfg q fuel lk tx Hmax Hup Hq Hfuel).
  eexists _, _. split; [reflexivity|]. split.
  - apply broadcast_all_payloads, Hup.
  - destruct Hq as (Hlen & Hw & _). apply holds_drained; assumption.
Qed.


(** X1. Publishing a packet that fits appends it to the queue held by
    the ring: the records already waiting are untouched, the new one
    comes last, the free space shrinks by the payload and its two
    length bytes, and neither the read position nor the sequence
    number moves. *)
Theorem tx_ring_publish_appends tx q (data : list Z) :
  holds cfg tx q ->
  Z.of_nat (length data) <= MAX ->
  Z.of_nat (length data) + 2 <= tx_free cfg tx ->
  holds cfg (onOpusEncoded cfg data tx) (q ++ [data]) /\
  tx_free cfg (onOpusEncoded cfg data tx) = tx_free cfg tx - (Z.of_nat (length data) + 2) /\
  audio_tx_read_pos (onOpusEncoded cfg data tx) = audio_tx_read_pos tx /\
  audioPacketIndex (onOpusEncoded cfg data tx) = audioPacketIndex tx.
Proof.
  intros Hq Hmax Hfit. split.
  - apply publish_appends; assumption.
  - apply (publish_free cfg tx q data); assumption.
Qed.

(** X2. With the link up, [processAudioTx] sends every record waiting in
    the ring, oldest first and each payload whole behind its 3-byte
    header, skips the empty ones, and leaves the ring empty; one pass
    of the loop per record is enough. *)
Theorem tx_ring_drain_delivers fuel lk tx q :
  MAX <= 65535 ->
  link_up lk = true ->
  holds cfg tx q ->
  (length q <= fuel)%nat ->
  exists tx' out,
    processAudioTx cfg fuel lk tx = Some (tx', out) /\
    map (drop 3) out = sendable q /\
    holds cfg tx' [].
Proof.
  intros Hmax Hup Hq Hfuel. unfold processAudioTx.
  destruct lk as [[] [] []]; try discriminate.
  cbn [connected audioSubscribed audioDataCharacteristic negb orb].
  apply drain_delivers; assumption.
Qed.


End TxQueueTheorems.

Lemma tx_ring_publish_appends_witness :
  TxQueue.holds small_config
    (App.onOpusEncoded small_config [4; 5]
       (App.onOpusEncoded small_config [7; 8; 9] (App.init_tx small_config)))
    [[7; 8; 9]; [4; 5]] /\
  App.onOpusEncoded small_config [4; 5]
    (App.onOpusEncoded small_config [7; 8; 9] (App.init_tx small_config))
  = queued_ring.
Proof.
  split; [|reflexivity].
  assert (H0 : TxQueue.holds small_config (App.init_tx small_config) []).
  { repeat split; try (vm_compute; congruence). constructor. }
  destruct (tx_ring_publish_appends small_config (App.init_tx small_config) [] [7; 8; 9] H0)
    as (H1 & _); [vm_compute; discriminate | vm_compute; discriminate |].
  destruct (tx_ring_publish_appends small_config _ _ [4; 5] H1) as (H2 & _);
    [vm_compute; discriminate | vm_compute; discriminate |].
  exact H2.
Defined.

Lemma tx_ring_drain_delivers_witness :
  exists tx' out,
    App.processAudioTx small_config 2 (App.mkLink true true true) queued_ring
    = Some (tx', out) /\
    map (drop 3) out = [[7; 8; 9]; [4; 5]] /\
    TxQueue.holds small_config tx' [].
Proof.
  apply (tx_ring_drain_delivers small_config 2 (App.mkLink true true true) queued_ring
           [[7; 8; 9]; [4; 5]]).
  - vm_compute; discriminate.
  - reflexivity.
  - repeat split; try (vm_compute; congruence).
    repeat constructor; vm_compute; discriminate.
  - simpl; lia.
Defined.

(** Six bytes are free in [queued_ring]; a packet of five payload bytes
    needs seven and is dropped. *)
Lemma tx_ring_refuses_when_full_witness :
  TxQueue.tx_free small_config queued_ring = 6 /\
  App.onOpusEncoded small_config [1; 2; 3; 4; 5] queued_ring = queued_ring.
Proof.
  split; [reflexivity|].
  apply (tx_ring_refuses_when_full small_config queued_ring [1; 2; 3; 4; 5]).
  - vm_compute. split; congruence.
  - vm_compute. split; congruence.
  - reflexivity.
  - left. vm_compute. discriminate.
  - reflexivity.
Defined.



(** ** Frames for the encoder *)

Section EncoderFacts.
Import PcmRing Encoder.
Variable cfg : config.
Local Notation "'CAP'" := (AUDIO_RING_BUFFER_SAMPLES cfg).
Local Notation "'FRAME'" := (OPUS_FRAME_SAMPLES cfg).

Lemma ring_view_app buf r n m :
  ring_view cfg buf r (n + m)
  = ring_view cfg buf r n ++ ring_view cfg buf ((r + Z.of_nat n) mod CAP) m.
Proof.
  unfold ring_view. rewrite seq_app, map_app. f_equal. simpl.
  assert (E : seq n m = map (Nat.add n) (seq 0 m)).
  { symmetry. etransitivity; [apply (fmap_add_seq n 0 m) | f_equal; lia]. }
  rewrite E, map_map. apply map_ext. intros k.
  rewrite Zplus_mod_idemp_l. do 2 f_equal. lia.
Qed.

Lemma read_samples_pos n : forall buf r,
  0 <= r < CAP ->
  snd (read_samples cfg n buf r) = (r + Z.of_nat n) mod CAP.
Proof.
  induction n as [|n IH]; intros buf r Hr.
  - simpl. rewrite Z.add_0_r, Z.mod_small; lia.
  - cbn [read_samples].
    specialize (IH buf ((r + 1) mod CAP)).
    destruct (read_samples cfg n buf ((r + 1) mod CAP)) as [xs r'] eqn:E.
    cbn [snd] in *. rewrite IH by (apply Z.mod_pos_bound; lia).
    rewrite Zplus_mod_idemp_l. f_equal. lia.
Qed.

(** Taking one frame out of a ring with at least a frame unread. *)
Lemma pop_frame buf w r :
  Z.of_nat (length buf) = CAP -> 0 <= w < CAP -> 0 <= r < CAP ->
  0 < FRAME ->
  FRAME <= ring_buffer_available cfg (mkRing (Some buf) w r) ->
  let r' := snd (read_samples cfg (Z.to_nat FRAME) buf r) in
  0 <= r' < CAP /\
  ring_buffer_available cfg (mkRing (Some buf) w r')
  = ring_buffer_available cfg (mkRing (Some buf) w r) - FRAME /\
  readable cfg (mkRing (Some buf) w r)
  = fst (read_samples cfg (Z.to_nat FRAME) buf r)
    ++ readable cfg (mkRing (Some buf) w r') /\
  length (fst (read_samples cfg (Z.to_nat FRAME) buf r)) = Z.to_nat FRAME.
Proof.
  intros Hlen Hw Hr Hf Havail r'.
  assert (Hc : 0 < CAP) by lia.
  assert (Er' : r' = (r + FRAME) mod CAP).
  { unfold r'. rewrite read_samples_pos by lia. f_equal. lia. }
  assert (Hr' : 0 <= r' < CAP) by (rewrite Er'; apply Z.mod_pos_bound; exact Hc).
  pose proof (available_bounds cfg buf w r Hw Hr) as Hb.
  assert (Ea : ring_buffer_available cfg (mkRing (Some buf) w r')
               = ring_buffer_available cfg (mkRing (Some buf) w r) - FRAME).
  { rewrite !available_mod by lia. rewrite Er'.
    rewrite Zminus_mod_idemp_r.
    replace (w - (r + FRAME)) with ((w - r) - FRAME) by lia.
    rewrite <- Zminus_mod_idemp_l. apply Z.mod_small.
    rewrite <- (available_mod cfg buf w r) by lia. lia. }
  split; [exact Hr'|]. split; [exact Ea|]. split.
  - rewrite !readable_view by lia. rewrite Ea.
    rewrite read_samples_view by lia.
    replace (Z.to_nat (ring_buffer_available cfg (mkRing (Some buf) w r)))
      with (Z.to_nat FRAME + Z.to_nat (ring_buffer_available cfg (mkRing (Some buf) w r) - FRAME))%nat
      by lia.
    rewrite ring_view_app. f_equal. f_equal. rewrite Er'. f_equal. lia.
  - rewrite read_samples_view by lia. apply ring_view_length.
Qed.

Lemma frame_loop_frames fuel : forall buf w r,
  Z.of_nat (length buf) = CAP -> 0 <= w < CAP -> 0 <= r < CAP ->
  0 < FRAME ->
  ring_buffer_available cfg (mkRing (Some buf) w r) <= Z.of_nat fuel ->
  exists frames r',
    frame_loop cfg fuel buf w r = Some (frames, r') /\
    0 <= r' < CAP /\
    concat frames ++ readable cfg (mkRing (Some buf) w r')
    = readable cfg (mkRing (Some buf) w r) /\
    Forall (fun f => length f = Z.to_nat FRAME) frames /\
    ring_buffer_available cfg (mkRing (Some buf) w r') < FRAME.
Proof.
  induction fuel as [|fuel IH]; intros buf w r Hlen Hw Hr Hf Hfuel.
  - pose proof (available_bounds cfg buf w r Hw Hr) as Hb.
    simpl. destruct (Z.geb_spec (ring_buffer_available cfg (mkRing (Some buf) w r)) FRAME);
      [lia|].
    exists [], r. repeat split; auto; lia.
  - cbn [frame_loop].
    destruct (Z.geb_spec (ring_buffer_available cfg (mkRing (Some buf) w r)) FRAME)
      as [Hge | Hlt].
    + destruct (pop_frame buf w r Hlen Hw Hr Hf Hge) as (Hr' & Ea & Eread & Eflen).
      destruct (read_samples cfg (Z.to_nat FRAME) buf r) as [frame r'] eqn:E.
      simpl in Hr', Ea, Eread, Eflen.
      destruct (IH buf w r' Hlen Hw Hr' Hf) as (frames & r'' & Eloop & Hr'' & Econc & Hall & Hleft).
      { lia. }
      rewrite Eloop. exists (frame :: frames), r''.
      split; [reflexivity|]. split; [exact Hr''|]. split; [|split].
      * simpl. rewrite <- app_assoc, Econc. symmetry. exact Eread.
      * constructor; assumption.
      * exact Hleft.
    + exists [], r. repeat split; auto; lia.
Qed.

Lemma opus_process_frames_wf fuel st :
  wf cfg st ->
  0 < FRAME ->
  ring_buffer_available cfg st <= Z.of_nat fuel ->
  exists frames st',
    opus_process cfg fuel true true st = Some (frames, st') /\
    wf cfg st' /\
    ring_write_pos st' = ring_write_pos st /\
    concat frames ++ readable cfg st' = readable cfg st /\
    Forall (fun f => length f = Z.to_nat FRAME) frames /\
    ring_buffer_available cfg st' < FRAME.
Proof.
  destruct st as [[buf|] w r]; unfold wf; cbn [pcm_ring_buffer ring_write_pos ring_read_pos];
    [|intros []].
  intros (Hlen & Hw & Hr) Hf Hfuel.
  destruct (frame_loop_frames fuel buf w r Hlen Hw Hr Hf Hfuel)
    as (frames & r' & Eloop & Hr' & Econc & Hall & Hleft).
  unfold opus_process. cbn [pcm_ring_buffer ring_write_pos ring_read_pos andb].
  rewrite Eloop. exists frames, (mkRing (Some buf) w r').
  cbn [pcm_ring_buffer ring_write_pos ring_read_pos]. auto 10.
Qed.

Lemma receive_no_loss st data :
  wf cfg st ->
  ring_buffer_available cfg st + Z.of_nat (length data) <= CAP - 1 ->
  fst (opus_receive_pcm cfg st data) = 0 /\
  wf cfg (snd (opus_receive_pcm cfg st data)) /\
  readable cfg (snd (opus_receive_pcm cfg st data)) = readable cfg st ++ data /\
  ring_buffer_available cfg (snd (opus_receive_pcm cfg st data))
  = ring_buffer_available cfg st + Z.of_nat (length data).
Proof.
  intros Hwf Hroom.
  destruct (opus_receive_pcm_readable cfg st data Hwf) as (Hrc & Hwf' & Hread).
  pose proof (readable_length cfg st Hwf) as Hl.
  assert (Hav : 0 <= ring_buffer_available cfg st).
  { destruct st as [[buf|] w r]; [|destruct Hwf]. destruct Hwf as (_ & Hw & Hr).
    apply (available_bounds cfg buf w r Hw Hr). }
  rewrite lastn_all in Hread by (rewrite length_app, Hl; lia).
  repeat split; try assumption.
  pose proof (readable_length cfg _ Hwf') as Hl'.
  rewrite Hread, length_app, Hl in Hl'.
  assert (0 <= ring_buffer_available cfg (snd (opus_receive_pcm cfg st data))).
  { destruct (snd (opus_receive_pcm cfg st data)) as [[buf|] w r]; [|destruct Hwf'].
    destruct Hwf' as (_ & Hw & Hr). apply (available_bounds cfg buf w r Hw Hr). }
  lia.
Qed.

(** X5. [opus_process] takes out of the ring every whole frame that is
    unread and nothing else: the frames handed to the encoder, put end
    to end and followed by what stays in the ring, are the unread
    samples in their order; every frame has [OPUS_FRAME_SAMPLES]
    samples, less than a frame stays behind, and the write position is
    not touched. *)
Theorem opus_process_takes_whole_frames fuel st :
  wf cfg st ->
  0 < FRAME ->
  ring_buffer_available cfg st <= Z.of_nat fuel ->
  exists frames st',
    opus_process cfg fuel true true st = Some (frames, st') /\
    wf cfg st' /\
    ring_write_pos st' = ring_write_pos st /\
    concat frames ++ readable cfg st' = readable cfg st /\
    Forall (fun f => length f = Z.to_nat FRAME) frames /\
    ring_buffer_available cfg st' < FRAME.
Proof. apply opus_process_frames_wf. Qed.

(** X6. While the unread samples and the new ones together stay below
    the capacity, [opus_receive_pcm] loses nothing: it returns 0, the
    new samples follow the unread ones in order, and the unread count
    grows by their number. *)
Theorem pcm_ring_receive_no_loss st data :
  wf cfg st ->
  ring_buffer_available cfg st + Z.of_nat (length data) <= CAP - 1 ->
  fst (opus_receive_pcm cfg st data) = 0 /\
  wf cfg (snd (opus_receive_pcm cfg st data)) /\
  readable cfg (snd (opus_receive_pcm cfg st data)) = readable cfg st ++ data /\
  ring_buffer_available cfg (snd (opus_receive_pcm cfg st data))
  = ring_buffer_available cfg st + Z.of_nat (length data).
Proof. apply receive_no_loss. Qed.

(** X7. Section 4 of the main loop, microphone to encoder: when the
    samples the microphone delivers fit beside the unread ones, the
    frames handed to the encoder followed by what stays in the ring are
    the samples that were unread followed by the delivered ones; no
    sample is lost, repeated or reordered on the way. *)
Theorem audio_section_keeps_samples fuel rd st samples :
  wf cfg st ->
  0 < FRAME ->
  Mic.mic_process cfg true true true rd = Some samples ->
  ring_buffer_available cfg st + Z.of_nat (length samples) <= CAP - 1 ->
  ring_buffer_available cfg st + Z.of_nat (length samples) <= Z.of_nat fuel ->
  exists frames st',
    audio_section cfg fuel true true true rd st = Some (frames, st') /\
    concat frames ++ readable cfg st' = readable cfg st ++ samples /\
    Forall (fun f => length f = Z.to_nat FRAME) frames /\
    ring_buffer_available cfg st' < FRAME.
Proof.
  intros Hwf Hf Hmic Hroom Hfuel.
  destruct (receive_no_loss st samples Hwf Hroom) as (_ & Hwf1 & Hread1 & Hav1).
  destruct (opus_process_frames_wf fuel _ Hwf1 Hf) as
    (frames & st' & Eproc & _ & _ & Econc & Hall & Hleft).
  { rewrite Hav1. exact Hfuel. }
  exists frames, st'. unfold audio_section. cbn [andb]. rewrite Hmic, Eproc.
  rewrite Econc, Hread1. auto.
Qed.

End EncoderFacts.

(** Seven samples unread, frames of four: one frame goes to the encoder
    and three samples stay. *)
Lemma opus_process_takes_whole_frames_witness :
  let st := snd (PcmRing.push_all small_config (PcmRing.init_ring small_config)
                                  [[1; 2; 3; 4; 5]; [6; 7; 8; 9]]) in
  option_map fst (Encoder.opus_process small_config 7 true true st) = Some [[3; 4; 5; 6]] /\
  exists frames st',
    Encoder.opus_process small_config 7 true true st = Some (frames, st') /\
    PcmRing.wf small_config st' /\
    PcmRing.ring_write_pos st' = PcmRing.ring_write_pos st /\
    concat frames ++ PcmRing.readable small_config st' = PcmRing.readable small_config st /\
    Forall (fun f => length f = 4%nat) frames /\
    PcmRing.ring_buffer_available small_config st' < 4.
Proof.
  intros st. split; [reflexivity|].
  apply (opus_process_takes_whole_frames small_config 7 st).
  - vm_compute. repeat split; congruence.
  - reflexivity.
  - vm_compute. discriminate.
Defined.

Lemma pcm_ring_receive_no_loss_witness :
  let st := snd (PcmRing.opus_receive_pcm small_config (PcmRing.init_ring small_config)
                                          [1; 2; 3]) in
  PcmRing.readable small_config (snd (PcmRing.opus_receive_pcm small_config st [4; 5; 6; 7]))
  = [1; 2; 3; 4; 5; 6; 7].
Proof.
  intros st.
  assert (Hwf : PcmRing.wf small_config st) by (vm_compute; repeat split; congruence).
  assert (Hroom : PcmRing.ring_buffer_available small_config st
                  + Z.of_nat (length [4; 5; 6; 7])
                  <= AUDIO_RING_BUFFER_SAMPLES small_config - 1)
    by (vm_compute; discriminate).
  destruct (pcm_ring_receive_no_loss small_config st [4; 5; 6; 7] Hwf Hroom)
    as (_ & _ & Hread & _).
  rewrite Hread. reflexivity.
Defined.

(** Three samples unread and four read from the microphone with gain 2:
    a frame of four goes to the encoder, three samples stay. *)
Lemma audio_section_keeps_samples_witness :
  let st := snd (PcmRing.opus_receive_pcm small_config (PcmRing.init_ring small_config)
                                          [1; 2; 3]) in
  let rd := Mic.mkI2s true 8 [10; 20; 30; 40; 50] in
  option_map fst (Encoder.audio_section small_config 7 true true true rd st)
  = Some [[1; 2; 3; 20]] /\
  exists frames st',
    Encoder.audio_section small_config 7 true true true rd st = Some (frames, st') /\
    concat frames ++ PcmRing.readable small_config st'
    = PcmRing.readable small_config st ++ [20; 40; 60; 80] /\
    Forall (fun f => length f = 4%nat) frames /\
    PcmRing.ring_buffer_available small_config st' < 4.
Proof.
  intros st rd. split; [reflexivity|].
  apply (audio_section_keeps_samples small_config 7 rd st [20; 40; 60; 80]).
  - vm_compute. repeat split; congruence.
  - reflexivity.
  - reflexivity.
  - vm_compute. discriminate.
  - vm_compute. discriminate.
Defined.


(** ** Status LED and button *)

Section LedFacts.
Import App Led.
Variable cfg : config.

Lemma wrap32_self t : wrap32 (t - t) = 0.
Proof. rewrite Z.sub_diag. reflexivity. Qed.

(** [handleButton] changes the LED mode only by starting the shutdown
    sequence, and only on a pressed reading. *)
Lemma handleButton_ledMode now pressed b pw :
  ledMode (fst (handleButton cfg now pressed b pw)) = ledMode b \/
  (pressed = true /\
   ledMode (fst (handleButton cfg now pressed b pw)) = LED_POWER_OFF_SEQUENCE).
Proof.
  unfold handleButton.
  destruct pressed, (buttonDown b), (longPressTriggered b); cbn [andb negb orb fst];
    repeat match goal with
           | |- context [if ?c then _ else _] => destruct c
           end; cbn [fst ledMode]; auto.
Qed.

Lemma handleButton_power_off now pressed b pw :
  ledMode b = LED_POWER_OFF_SEQUENCE ->
  ledMode (fst (handleButton cfg now pressed b pw)) = LED_POWER_OFF_SEQUENCE.
Proof.
  intros H. destruct (handleButton_ledMode now pressed b pw) as [-> | [_ ->]]; auto.
Qed.

Lemma power_off_wait now c s :
  powerOffStartTime s <> 0 ->
  wrap32 (now - powerOffStartTime s) < 800 ->
  exists pin,
    updateLED now c LED_POWER_OFF_SEQUENCE s = (s, LED_POWER_OFF_SEQUENCE, pin, false).
Proof.
  intros Hs Hw. unfold updateLED.
  destruct (Z.eqb_spec (powerOffStartTime s) 0); [contradiction|].
  destruct (Z.ltb_spec (wrap32 (now - powerOffStartTime s)) 800); [|lia].
  eexists. destruct s; reflexivity.
Qed.

Lemma power_off_fire now c s :
  powerOffStartTime s <> 0 ->
  800 <= wrap32 (now - powerOffStartTime s) ->
  updateLED now c LED_POWER_OFF_SEQUENCE s = (s, LED_POWER_OFF_SEQUENCE, true, true).
Proof.
  intros Hs Hw. unfold updateLED.
  destruct (Z.eqb_spec (powerOffStartTime s) 0); [contradiction|].
  destruct (Z.ltb_spec (wrap32 (now - powerOffStartTime s)) 800); [lia|].
  destruct s; reflexivity.
Qed.

Lemma power_off_latch now c s :
  powerOffStartTime s = 0 ->
  exists pin,
    updateLED now c LED_POWER_OFF_SEQUENCE s
    = (mkLed (bootStartTime s) now, LED_POWER_OFF_SEQUENCE, pin, false).
Proof.
  intros Hs. unfold updateLED. rewrite Hs. cbn [Z.eqb].
  rewrite wrap32_self. cbn. eexists; reflexivity.
Qed.

Lemma ui_run_power_off pre : forall last post st,
  ledMode (ui_button st) = LED_POWER_OFF_SEQUENCE ->
  powerOffStartTime (ui_led st) <> 0 ->
  Forall (fun i => wrap32 (ui_led_now i - powerOffStartTime (ui_led st)) < 800) pre ->
  800 <= wrap32 (ui_led_now last - powerOffStartTime (ui_led st)) ->
  exists st' pins,
    ui_run cfg (pre ++ last :: post) st = (st', pins ++ [true], true) /\
    length pins = length pre /\
    ledMode (ui_button st') = LED_POWER_OFF_SEQUENCE.
Proof.
  induction pre as [|i pre IH]; intros last post st Hmode Hs Hpre Hlast.
  - cbn [Datatypes.app ui_run].
    pose proof (handleButton_power_off (ui_button_now last) (ui_pressed last)
                  (ui_button st) (ui_power st) Hmode) as Hb.
    destruct (handleButton cfg _ _ _ _) as [b1 pw1]. cbn [fst] in Hb.
    rewrite Hb, (power_off_fire _ _ _ Hs Hlast).
    eexists _, []. split; [reflexivity|]. split; reflexivity.
  - inversion Hpre as [|? ? Hi Hrest]; subst.
    cbn [Datatypes.app ui_run].
    pose proof (handleButton_power_off (ui_button_now i) (ui_pressed i)
                  (ui_button st) (ui_power st) Hmode) as Hb.
    destruct (handleButton cfg _ _ _ _) as [b1 pw1]. cbn [fst] in Hb.
    rewrite Hb. destruct (power_off_wait (ui_led_now i) (ui_connected i) _ Hs Hi) as [pin ->].
    destruct (IH last post (mkUiState (set_ledMode LED_POWER_OFF_SEQUENCE b1) pw1 (ui_led st)))
      as (st' & pins & Erun & Hlen & Hfin); try assumption; try reflexivity.
    rewrite Erun. exists st', (pin :: pins).
    split; [reflexivity|]. split; [simpl; lia | exact Hfin].
Qed.

(** X8. Once the shutdown sequence has begun nothing stops it: whatever
    the button and the link do in the passes that follow, the LED mode
    stays in the shutdown sequence, and the device shuts down, LED off,
    in the first pass whose LED update comes 800 ms or more after the
    first LED update of the sequence. *)
Theorem shutdown_sequence_completes first pre last post st :
  ledMode (ui_button st) = LED_POWER_OFF_SEQUENCE ->
  powerOffStartTime (ui_led st) = 0 ->
  ui_led_now first <> 0 ->
  Forall (fun i => wrap32 (ui_led_now i - ui_led_now first) < 800) pre ->
  800 <= wrap32 (ui_led_now last - ui_led_now first) ->
  exists st' pins,
    ui_run cfg (first :: pre ++ last :: post) st = (st', pins ++ [true], true) /\
    length pins = S (length pre) /\
    ledMode (ui_button st') = LED_POWER_OFF_SEQUENCE.
Proof.
  intros Hmode Hs Hfirst Hpre Hlast.
  cbn [ui_run].
  pose proof (handleButton_power_off (ui_button_now first) (ui_pressed first)
                (ui_button st) (ui_power st) Hmode) as Hb.
  destruct (handleButton cfg _ _ _ _) as [b1 pw1]. cbn [fst] in Hb.
  rewrite Hb. destruct (power_off_latch (ui_led_now first) (ui_connected first) _ Hs) as [pin ->].
  destruct (ui_run_power_off pre last post
              (mkUiState (set_ledMode LED_POWER_OFF_SEQUENCE b1) pw1
                         (mkLed (bootStartTime (ui_led st)) (ui_led_now first))))
    as (st' & pins & Erun & Hlen & Hfin); try assumption; try reflexivity.
  rewrite Erun. exists st', (pin :: pins).
  split; [reflexivity|]. split; [simpl; lia | exact Hfin].
Qed.


Lemma boot_wait now c s :
  bootStartTime s <> 0 ->
  wrap32 (now - bootStartTime s) < 1500 ->
  exists pin,
    updateLED now c LED_BOOT_SEQUENCE s = (s, LED_BOOT_SEQUENCE, pin, false).
Proof.
  intros Hs Hw. unfold updateLED.
  destruct (Z.eqb_spec (bootStartTime s) 0); [contradiction|].
  destruct (Z.ltb_spec (wrap32 (now - bootStartTime s)) 1500); [|lia].
  eexists. destruct s; reflexivity.
Qed.

Lemma boot_end now c s :
  bootStartTime s <> 0 ->
  1500 <= wrap32 (now - bootStartTime s) ->
  updateLED now c LED_BOOT_SEQUENCE s
  = (mkLed 0 (powerOffStartTime s), LED_NORMAL_OPERATION, true, false).
Proof.
  intros Hs Hw. unfold updateLED.
  destruct (Z.eqb_spec (bootStartTime s) 0); [contradiction|].
  destruct (Z.ltb_spec (wrap32 (now - bootStartTime s)) 1500); [lia|].
  reflexivity.
Qed.

Lemma boot_latch now c s :
  bootStartTime s = 0 ->
  exists pin,
    updateLED now c LED_BOOT_SEQUENCE s
    = (mkLed now (powerOffStartTime s), LED_BOOT_SEQUENCE, pin, false).
Proof.
  intros Hs. unfold updateLED. rewrite Hs. cbn [Z.eqb].
  rewrite wrap32_self. cbn. eexists; reflexivity.
Qed.

Lemma handleButton_released_ledMode now b pw :
  ledMode (fst (handleButton cfg now false b pw)) = ledMode b.
Proof.
  destruct (handleButton_ledMode now false b pw) as [H | [H _]]; [exact H | discriminate].
Qed.

(** [updateLED] never goes back to the boot animation. *)
Lemma updateLED_not_boot now c mode s :
  mode <> LED_BOOT_SEQUENCE ->
  snd (fst (fst (updateLED now c mode s))) <> LED_BOOT_SEQUENCE.
Proof.
  intros Hm. unfold updateLED. destruct mode; [contradiction| |].
  - destruct c; cbn; discriminate.
  - destruct (_ <? 800); cbn; discriminate.
Qed.

Lemma ui_run_not_boot inputs : forall st,
  ledMode (ui_button st) <> LED_BOOT_SEQUENCE ->
  ledMode (ui_button (fst (fst (ui_run cfg inputs st)))) <> LED_BOOT_SEQUENCE.
Proof.
  induction inputs as [|i rest IH]; intros st Hm; [exact Hm|].
  cbn [ui_run].
  assert (Hb : ledMode (fst (handleButton cfg (ui_button_now i) (ui_pressed i)
                               (ui_button st) (ui_power st))) <> LED_BOOT_SEQUENCE).
  { destruct (handleButton_ledMode (ui_button_now i) (ui_pressed i) (ui_button st) (ui_power st))
      as [-> | [_ ->]]; [exact Hm | discriminate]. }
  destruct (handleButton cfg _ _ _ _) as [b1 pw1]. cbn [fst] in Hb.
  pose proof (updateLED_not_boot (ui_led_now i) (ui_connected i) (ledMode b1) (ui_led st) Hb)
    as Hu.
  destruct (updateLED _ _ _ _) as [[[s1 mode1] pin] off]. cbn [fst snd] in Hu.
  destruct off; [exact Hu|].
  specialize (IH (mkUiState (set_ledMode mode1 b1) pw1 s1) Hu).
  destruct (ui_run cfg rest _) as [[st2 pins] off2]. exact IH.
Qed.

Lemma ui_run_boot pre : forall last st,
  ledMode (ui_button st) = LED_BOOT_SEQUENCE ->
  bootStartTime (ui_led st) <> 0 ->
  Forall (fun i => ui_pressed i = false /\
                   wrap32 (ui_led_now i - bootStartTime (ui_led st)) < 1500) pre ->
  ui_pressed last = false ->
  1500 <= wrap32 (ui_led_now last - bootStartTime (ui_led st)) ->
  exists st' pins,
    ui_run cfg (pre ++ [last]) st = (st', pins ++ [true], false) /\
    length pins = length pre /\
    ledMode (ui_button st') = LED_NORMAL_OPERATION /\
    bootStartTime (ui_led st') = 0.
Proof.
  induction pre as [|i pre IH]; intros last st Hmode Hs Hpre Hup Hlast.
  - cbn [Datatypes.app ui_run]. rewrite Hup.
    pose proof (handleButton_released_ledMode (ui_button_now last)
                  (ui_button st) (ui_power st)) as Hb.
    destruct (handleButton cfg _ _ _ _) as [b1 pw1]. cbn [fst] in Hb.
    rewrite Hb, Hmode, (boot_end _ _ _ Hs Hlast).
    eexists _, []. split; [reflexivity|]. repeat split.
  - inversion Hpre as [|? ? [Hi_up Hi] Hrest]; subst.
    cbn [Datatypes.app ui_run]. rewrite Hi_up.
    pose proof (handleButton_released_ledMode (ui_button_now i)
                  (ui_button st) (ui_power st)) as Hb.
    destruct (handleButton cfg _ _ _ _) as [b1 pw1]. cbn [fst] in Hb.
    rewrite Hb, Hmode.
    destruct (boot_wait (ui_led_now i) (ui_connected i) _ Hs Hi) as [pin ->].
    destruct (IH last (mkUiState (set_ledMode LED_BOOT_SEQUENCE b1) pw1 (ui_led st)))
      as (st' & pins & Erun & Hlen & Hfin); try assumption; try reflexivity.
    rewrite Erun. exists st', (pin :: pins).
    split; [reflexivity|]. split; [simpl; lia | exact Hfin].
Qed.

(** X9. The boot animation ends by itself and for good: with the button
    left alone, the LED mode stays in the boot sequence through the
    passes whose LED update comes less than 1500 ms after the first
    one, and the first later update turns the LED off and switches to
    normal operation without shutting down; whatever happens
    afterwards, the mode is never the boot sequence again. *)
Theorem boot_sequence_ends first pre last st :
  ledMode (ui_button st) = LED_BOOT_SEQUENCE ->
  bootStartTime (ui_led st) = 0 ->
  ui_led_now first <> 0 ->
  ui_pressed first = false ->
  Forall (fun i => ui_pressed i = false /\
                   wrap32 (ui_led_now i - ui_led_now first) < 1500) pre ->
  ui_pressed last = false ->
  1500 <= wrap32 (ui_led_now last - ui_led_now first) ->
  exists st' pins,
    ui_run cfg (first :: pre ++ [last]) st = (st', pins ++ [true], false) /\
    length pins = S (length pre) /\
    ledMode (ui_button st') = LED_NORMAL_OPERATION /\
    forall post,
      ledMode (ui_button (fst (fst (ui_run cfg post st')))) <> LED_BOOT_SEQUENCE.
Proof.
  intros Hmode Hs Hfirst Hup Hpre Hlast_up Hlast.
  cbn [ui_run]. rewrite Hup.
  pose proof (handleButton_released_ledMode (ui_button_now first)
                (ui_button st) (ui_power st)) as Hb.
  destruct (handleButton cfg _ _ _ _) as [b1 pw1]. cbn [fst] in Hb.
  rewrite Hb, Hmode.
  destruct (boot_latch (ui_led_now first) (ui_connected first) _ Hs) as [pin ->].
  destruct (ui_run_boot pre last
              (mkUiState (set_ledMode LED_BOOT_SEQUENCE b1) pw1
                         (mkLed (ui_led_now first) (powerOffStartTime (ui_led st)))))
    as (st' & pins & Erun & Hlen & Hfin & _); try assumption; try reflexivity.
  rewrite Erun. exists st', (pin :: pins).
  split; [reflexivity|]. split; [simpl; lia|]. split; [exact Hfin|].
  intros post. apply ui_run_not_boot. rewrite Hfin. discriminate.
Qed.

End LedFacts.

Section ButtonInvariant.
Import App.
Variable cfg : config.

Lemma handleButton_press_latched now pressed b pw :
  press_latched b -> press_latched (fst (handleButton cfg now pressed b pw)).
Proof.
  unfold press_latched, handleButton. intros H.
  destruct pressed, (buttonDown b) eqn:Hd, (longPressTriggered b); cbn [andb negb orb];
    repeat match goal with
           | |- context [if ?c then _ else _] => destruct c
           end; cbn [fst buttonDown lastDebounceTime buttonPressTime];
    try reflexivity; try discriminate; try (intros _; reflexivity);
    try (rewrite Hd in H; exact H); try (rewrite Hd; discriminate); auto.
Qed.

Lemma button_run_press_latched inputs : forall b pw,
  press_latched b -> press_latched (fst (button_run cfg inputs b pw)).
Proof.
  induction inputs as [|[now pressed] rest IH]; intros b pw H; [exact H|].
  cbn [button_run].
  pose proof (handleButton_press_latched now pressed b pw H) as H1.
  destruct (handleButton cfg now pressed b pw) as [b1 pw1]. apply IH, H1.
Qed.

(** X10. From a state with the button up, after any sequence of passes,
    a release that [handleButton] accepts without the long press having
    fired is always handled as a short press: it refreshes the activity
    timestamp and leaves power save. The press-duration test of 50 ms
    never rejects an accepted release. *)
Theorem accepted_release_is_short_press inputs b0 pw0 now :
  buttonDown b0 = false ->
  let b := fst (button_run cfg inputs b0 pw0) in
  let pw := snd (button_run cfg inputs b0 pw0) in
  buttonDown b = true ->
  longPressTriggered b = false ->
  buttonDown (fst (handleButton cfg now false b pw)) = false ->
  lastActivity (snd (handleButton cfg now false b pw)) = now /\
  powerSaveMode (snd (handleButton cfg now false b pw)) = false.
Proof.
  intros Hup b pw Hd Hl Hacc.
  assert (Hinv : press_latched b).
  { apply button_run_press_latched. unfold press_latched. rewrite Hup. discriminate. }
  specialize (Hinv Hd).
  revert Hacc. unfold handleButton. rewrite Hd, Hl. cbn [andb negb orb].
  rewrite <- Hinv.
  destruct (Z.ltb_spec (wrap32 (now - lastDebounceTime b)) 50) as [Hlt | Hge].
  - cbn [fst]. rewrite Hd. discriminate.
  - intros _. destruct (Z.geb_spec (wrap32 (now - lastDebounceTime b)) 50); [|lia].
    cbn [snd]. unfold set_lastActivity, exitPowerSave.
    destruct (powerSaveMode pw); cbn; auto.
Qed.

End ButtonInvariant.

(** The long press has fired at 3000 ms. The animation starts with the
    LED update at 3001 ms; the button is released and pressed again
    meanwhile; the update at 3801 ms shuts the device down, and the
    pass after it is not reached. *)
Lemma shutdown_sequence_completes_witness :
  let inputs := [Led.mkUi 3000 true false 3001; Led.mkUi 3300 false false 3301;
                 Led.mkUi 3700 true false 3701; Led.mkUi 3801 false false 3801;
                 Led.mkUi 9000 false false 9000] in
  snd (Led.ui_run sample_config inputs shutting_down_ui) = true /\
  length (snd (fst (Led.ui_run sample_config inputs shutting_down_ui))) = 4%nat.
Proof.
  intros inputs.
  destruct (shutdown_sequence_completes sample_config
              (Led.mkUi 3000 true false 3001)
              [Led.mkUi 3300 false false 3301; Led.mkUi 3700 true false 3701]
              (Led.mkUi 3801 false false 3801)
              [Led.mkUi 9000 false false 9000]
              shutting_down_ui)
    as (st' & pins & Erun & Hlen & _).
  - reflexivity.
  - reflexivity.
  - discriminate.
  - repeat constructor; vm_compute; reflexivity.
  - vm_compute. discriminate.
  - subst inputs. cbn [Datatypes.app] in Erun. rewrite Erun. cbn [fst snd].
    split; [reflexivity|]. rewrite length_app, Hlen. reflexivity.
Defined.

(** First LED update at 10 ms: the animation runs through the updates
    at 200 and 1500 ms and ends with the one at 1511 ms. *)
Lemma boot_sequence_ends_witness :
  let inputs := [Led.mkUi 10 false false 10; Led.mkUi 200 false false 200;
                 Led.mkUi 1500 false false 1500; Led.mkUi 1510 false false 1511] in
  App.ledMode (Led.ui_button (fst (fst (Led.ui_run sample_config inputs booting_ui))))
  = App.LED_NORMAL_OPERATION.
Proof.
  intros inputs.
  destruct (boot_sequence_ends sample_config
              (Led.mkUi 10 false false 10)
              [Led.mkUi 200 false false 200; Led.mkUi 1500 false false 1500]
              (Led.mkUi 1510 false false 1511)
              booting_ui)
    as (st' & pins & Erun & _ & Hmode & _).
  - reflexivity.
  - reflexivity.
  - discriminate.
  - reflexivity.
  - repeat constructor; vm_compute; reflexivity.
  - reflexivity.
  - vm_compute. discriminate.
  - subst inputs. cbn [Datatypes.app] in Erun. rewrite Erun. exact Hmode.
Defined.

(** A press accepted at 1000 ms and released at 1100 ms wakes the
    device from power save. *)
Lemma accepted_release_is_short_press_witness :
  let b0 := App.mkButton false 0 0 false false App.LED_NORMAL_OPERATION in
  let pw0 := App.mkPower 0 true true [40] in
  let held := App.button_run sample_config [(1000, true); (1020, true)] b0 pw0 in
  App.handleButton sample_config 1100 false (fst held) (snd held)
  = (App.mkButton false 1000 1100 false false App.LED_NORMAL_OPERATION,
     App.mkPower 1100 false true [40; 80]) /\
  App.lastActivity (snd (App.handleButton sample_config 1100 false (fst held) (snd held)))
  = 1100.
Proof.
  intros b0 pw0 held. split; [reflexivity|].
  destruct (accepted_release_is_short_press sample_config
              [(1000, true); (1020, true)] b0 pw0 1100) as (H & _).
  - reflexivity.
  - reflexivity.
  - reflexivity.
  - reflexivity.
  - exact H.
Defined.


(** ** Passes of the loop: photo session, power and sleep *)

Section LoopFacts.
Import App.
Variable cfg : config.

Lemma capture_check_session now shot t lk cap ph pw :
  session_ok ph ->
  (forall img, shot = Some img -> Z.of_nat (length img) < 2 ^ 32) ->
  session_ok (snd (fst (capture_check cfg now shot t lk cap ph pw))) /\
  (photoDataUploading ph = true ->
   snd (fst (capture_check cfg now shot t lk cap ph pw)) = ph).
Proof.
  intros Hok Hshot. unfold capture_check.
  destruct (photoDataUploading ph) eqn:Hu.
  - rewrite andb_false_r. cbn [andb fst snd]. auto.
  - split; [|discriminate].
    destruct (isCapturingPhotos cap && negb false && connected lk); [|exact Hok].
    destruct (_ || _); [|exact Hok].
    unfold take_photo. destruct shot as [img|]; cbn [fst snd].
    + intros _. exists img. cbn [fb sent_photo_bytes]. split; [reflexivity|].
      split; [apply Hshot; reflexivity | lia].
    + unfold session_ok. cbn [photoDataUploading]. rewrite ?Hu. discriminate.
Qed.

Lemma photo_transfer_session now lk tx ph pw :
  session_ok ph ->
  session_ok (fst (fst (photo_transfer now lk tx ph pw))) /\
  (photoDataUploading ph = true ->
   (photoDataUploading (fst (fst (photo_transfer now lk tx ph pw))) = true /\
    fb (fst (fst (photo_transfer now lk tx ph pw))) = fb ph /\
    sent_photo_bytes ph <= sent_photo_bytes (fst (fst (photo_transfer now lk tx ph pw))))
   \/
   (photoDataUploading (fst (fst (photo_transfer now lk tx ph pw))) = false /\
    fb (fst (fst (photo_transfer now lk tx ph pw))) = None /\
    snd (photo_transfer now lk tx ph pw) = [[255; 255]])).
Proof.
  intros Hok. unfold photo_transfer.
  destruct (fb ph) as [img|] eqn:Hfb.
  - destruct (photoDataUploading ph) eqn:Hu.
    + destruct (Hok Hu) as (img' & E & Hlen & Hsent).
      assert (img' = img) by congruence. subst img'.
      destruct (photo_chunks_this_loop ph <? 2); cbn [andb].
      * rewrite (wrap32_small (Z.of_nat (length img) - sent_photo_bytes ph)) by lia.
        destruct (Z.gtb_spec (Z.of_nat (length img) - sent_photo_bytes ph) 0) as [Hrem | Hrem].
        -- set (b := if _ >? chunk_capacity _ then _ else _).
           assert (Hb : 0 < b <= Z.of_nat (length img) - sent_photo_bytes ph).
           { unfold b, chunk_capacity.
             destruct (sent_photo_frames ph =? 0);
               match goal with |- context [?x >? ?y] => destruct (Z.gtb_spec x y) end; lia. }
           cbn [fst snd photoDataUploading fb sent_photo_bytes].
           rewrite (wrap32_small (sent_photo_bytes ph + b)) by lia.
           split.
           ++ intros _. exists img. cbn [fb sent_photo_bytes].
              split; [reflexivity|]. split; [exact Hlen | lia].
           ++ intros _. left. split; [reflexivity|]. split; [reflexivity | lia].
        -- cbn [fst snd photoDataUploading fb]. split.
           ++ unfold session_ok. cbn [photoDataUploading]. discriminate.
           ++ intros _. right. auto.
      * cbn [fst snd photoDataUploading fb sent_photo_bytes]. split.
        -- intros _. exists img. cbn [fb sent_photo_bytes]. auto.
        -- intros _. left. split; [reflexivity|]. split; [reflexivity | lia].
    + cbn [andb fst snd]. split; [|discriminate].
      unfold session_ok. cbn [photoDataUploading]. rewrite ?Hu. discriminate.
  - destruct (photoDataUploading ph) eqn:Hu.
    + destruct (Hok Hu) as (img' & E & _). congruence.
    + cbn [fst snd]. split; [|discriminate].
      unfold session_ok. cbn [photoDataUploading]. rewrite ?Hu. discriminate.
Qed.

(** X11. A pass of the loop keeps the photo session sound and single:
    if an upload is in progress at its start, the pass takes no new
    photo; it either goes on with the same frame buffer, the count of
    bytes sent not decreasing and staying within the image, or ends the
    session with the end marker and releases the buffer. Whenever an
    upload is in progress after the pass, a frame buffer is held. *)
Theorem photo_session_invariant inp st st' out :
  session_ok (a_photo st) ->
  (forall img, in_shot inp = Some img -> Z.of_nat (length img) < 2 ^ 32) ->
  loop_app cfg inp st = Returned st' out ->
  session_ok (a_photo st') /\
  (photoDataUploading (a_photo st) = true ->
   (photoDataUploading (a_photo st') = true /\
    fb (a_photo st') = fb (a_photo st) /\
    sent_photo_bytes (a_photo st) <= sent_photo_bytes (a_photo st'))
   \/
   (photoDataUploading (a_photo st') = false /\
    fb (a_photo st') = None /\
    out_photo out = [[255; 255]])).
Proof.
  intros Hok Hshot Hloop.
  destruct (loop_app_returned cfg inp st st' out Hloop)
    as (st2 & pin & st4 & audio & E2 & E4 & H).
  cbv zeta in H. destruct H as (-> & ->). cbn [out_photo].
  pose proof (photo_before_capture cfg inp st st2 pin false st4 audio E2 E4) as Hph4.
  set (ev := in_ble_events inp) in *.
  (* the photo state on the way from section 6 to the end of the pass *)
  set (s8 := apply_events cfg (before_capture ev)
               (power_section cfg inp (apply_events cfg (before_power ev) st4))).
  assert (Hph8 : a_photo s8 = a_photo st).
  { unfold s8. destruct (apply_events_keep cfg (before_capture ev)
                           (power_section cfg inp (apply_events cfg (before_power ev) st4)))
      as (-> & _).
    destruct (power_section_keeps cfg inp (apply_events cfg (before_power ev) st4))
      as (_ & _ & -> & _).
    destruct (apply_events_keep cfg (before_power ev) st4) as (-> & _). exact Hph4. }
  set (s9 := apply_events cfg (before_photo ev) (capture_section cfg inp s8)).
  assert (Hph9 : a_photo s9
                 = snd (fst (capture_check cfg (in_now inp) (in_shot inp)
                               (in_capture_time inp) (a_link s8) (a_capture s8)
                               (a_photo st) (a_power s8)))).
  { unfold s9. destruct (apply_events_keep cfg (before_photo ev) (capture_section cfg inp s8))
      as (-> & _).
    unfold capture_section. rewrite Hph8.
    destruct (capture_check cfg _ _ _ _ _ _ _) as [[cap ph] pw]. reflexivity. }
  destruct (capture_check_session (in_now inp) (in_shot inp) (in_capture_time inp)
              (a_link s8) (a_capture s8) (a_photo st) (a_power s8) Hok Hshot)
    as (Hok9 & Hsame).
  rewrite <- Hph9 in Hok9, Hsame.
  destruct (photo_transfer_session (in_now inp) (a_link s9) (a_tx s9) (a_photo s9)
              (a_power s9) Hok9) as (Hok10 & Hstep).
  assert (Hend : a_photo (apply_events cfg (before_return ev)
                    (fst (sleep_section inp (apply_events cfg (before_sleep ev)
                       (fst (photo_section inp s9))))))
                 = fst (fst (photo_transfer (in_now inp) (a_link s9) (a_tx s9) (a_photo s9)
                               (a_power s9))) /\
                 snd (photo_section inp s9)
                 = snd (photo_transfer (in_now inp) (a_link s9) (a_tx s9) (a_photo s9)
                          (a_power s9))).
  { destruct (apply_events_keep cfg (before_return ev)
                (fst (sleep_section inp (apply_events cfg (before_sleep ev)
                   (fst (photo_section inp s9)))))) as (-> & _).
    destruct (sleep_section_keeps inp (apply_events cfg (before_sleep ev)
                (fst (photo_section inp s9)))) as (_ & _ & -> & _).
    destruct (apply_events_keep cfg (before_sleep ev) (fst (photo_section inp s9)))
      as (-> & _).
    unfold photo_section.
    destruct (photo_transfer _ _ _ _ _) as [[ph pw] chunks]. split; reflexivity. }
  destruct Hend as (-> & ->).
  split; [exact Hok10|].
  intros Hu. pose proof (Hsame Hu) as E. rewrite <- E. apply Hstep. rewrite E. exact Hu.
Qed.

Lemma power_check_connected now u pw :
  lastActivity (power_check cfg now true u pw) = now /\
  powerSaveMode (power_check cfg now true u pw) = false.
Proof.
  unfold power_check. cbn [negb andb orb]. unfold set_lastActivity, exitPowerSave.
  destruct (powerSaveMode pw) eqn:E; cbn; auto.
Qed.

Lemma power_check_uploading now c pw :
  powerSaveMode (power_check cfg now c true pw) = false.
Proof.
  unfold power_check. rewrite andb_false_r, orb_true_r. cbn [andb].
  unfold set_lastActivity, exitPowerSave.
  destruct (powerSaveMode pw) eqn:E; cbn; auto.
Qed.

Lemma capture_check_power now shot t lk cap ph pw :
  powerSaveMode (snd (capture_check cfg now shot t lk cap ph pw)) = powerSaveMode pw /\
  (lastActivity (snd (capture_check cfg now shot t lk cap ph pw)) = lastActivity pw \/
   lastActivity (snd (capture_check cfg now shot t lk cap ph pw)) = t).
Proof.
  unfold capture_check.
  destruct (_ && _ && _); [|auto].
  destruct (_ || _); [|auto].
  unfold take_photo. destruct shot; cbn; auto.
Qed.

Lemma photo_transfer_power now lk tx ph pw :
  powerSaveMode (snd (fst (photo_transfer now lk tx ph pw))) = powerSaveMode pw /\
  (lastActivity (snd (fst (photo_transfer now lk tx ph pw))) = lastActivity pw \/
   lastActivity (snd (fst (photo_transfer now lk tx ph pw))) = now).
Proof.
  unfold photo_transfer.
  destruct (fb ph); [|cbn; auto].
  destruct (_ && _); [|cbn; auto].
  destruct (_ >? 0); cbn; auto.
Qed.

Lemma enableLightSleep_power now wake lk u cap pw :
  powerSaveMode (fst (enableLightSleep now wake lk u cap pw)) = powerSaveMode pw.
Proof.
  unfold enableLightSleep.
  destruct (_ || _ || _); [reflexivity|].
  destruct (_ <? 5000); [reflexivity|].
  destruct (_ >? 10000); reflexivity.
Qed.

Lemma enableLightSleep_recent now wake lk u cap pw :
  connected lk = false \/ wrap32 (now - lastActivity pw) < 5000 ->
  snd (enableLightSleep now wake lk u cap pw) = None.
Proof.
  intros H. unfold enableLightSleep.
  destruct (lightSleepEnabled pw), (connected lk) eqn:Ec, u; cbn [negb orb]; try reflexivity.
  destruct H as [H | H]; [discriminate|].
  destruct (Z.ltb_spec (wrap32 (now - lastActivity pw)) 5000); [reflexivity | lia].
Qed.

(** The activity timestamp of a connected device lies in a window of
    time. *)
Local Notation "'fresh' lo hi s" :=
  (connected (a_link s) = true -> lo <= lastActivity (a_power s) <= hi)
  (at level 10, lo at level 9, hi at level 9, s at level 9).

Lemma ble_callback_fresh lo hi ev s :
  Forall (fun t => lo <= t <= hi) (event_times ev) ->
  fresh lo hi s -> fresh lo hi (ble_callback cfg ev s).
Proof.
  intros Ht Hs.
  destruct ev as [t | | value | t0 now value]; cbn [ble_callback event_times] in *.
  - intros _. cbn. inversion Ht; assumption.
  - cbn. discriminate.
  - destruct value as [|v0 [|v1 rest]]; cbn; exact Hs.
  - unfold PhotoControl_onWrite. destruct value as [|byte [|b2 rest]]; cbn; try exact Hs.
    intros _. inversion Ht; assumption.
Qed.

Lemma apply_events_fresh lo hi evs : forall s,
  Forall (fun ev => Forall (fun t => lo <= t <= hi) (event_times ev)) evs ->
  fresh lo hi s -> fresh lo hi (apply_events cfg evs s).
Proof.
  unfold apply_events.
  induction evs as [|ev evs IH]; intros s Hall Hs; [exact Hs|].
  inversion Hall as [|? ? Hev Hrest]; subst. cbn [fold_left].
  apply IH; [exact Hrest|]. apply ble_callback_fresh; assumption.
Qed.

Lemma power_section_fresh inp s hi :
  in_now inp <= hi -> fresh (in_now inp) hi (power_section cfg inp s).
Proof.
  intros Hhi. cbn [power_section a_link a_power]. intros Hc. rewrite Hc.
  destruct (power_check_connected (in_now inp) (photoDataUploading (a_photo s)) (a_power s))
    as (-> & _). lia.
Qed.

Lemma capture_section_fresh inp s lo hi :
  lo <= in_capture_time inp <= hi ->
  fresh lo hi s -> fresh lo hi (capture_section cfg inp s).
Proof.
  intros Ht Hs. unfold capture_section.
  pose proof (capture_check_power (in_now inp) (in_shot inp) (in_capture_time inp)
                (a_link s) (a_capture s) (a_photo s) (a_power s)) as (_ & Hp).
  destruct (capture_check cfg _ _ _ _ _ _ _) as [[cap ph] pw].
  cbn [fst snd a_link a_power] in *. intros Hc.
  destruct Hp as [-> | ->]; [apply Hs, Hc | exact Ht].
Qed.

Lemma photo_section_fresh inp s lo hi :
  lo <= in_now inp <= hi ->
  fresh lo hi s -> fresh lo hi (fst (photo_section inp s)).
Proof.
  intros Ht Hs. unfold photo_section.
  pose proof (photo_transfer_power (in_now inp) (a_link s) (a_tx s) (a_photo s) (a_power s))
    as (_ & Hp).
  destruct (photo_transfer _ _ _ _ _) as [[ph pw] chunks].
  cbn [fst snd a_link a_power] in *. intros Hc.
  destruct Hp as [-> | ->]; [apply Hs, Hc | exact Ht].
Qed.

(** X12. The light sleep of section 10 does not happen in a pass of
    ordinary length: when the clock readings of a pass, those of the
    callbacks arriving after section 6 included, lie within five
    seconds of its start, the pass never puts the device to sleep,
    whatever the state and the inputs, because a connected device has
    refreshed its activity timestamp in section 6 of the same pass or
    in the callback that connected it. *)
Theorem light_sleep_not_in_short_pass inp st st' out :
  0 <= in_now inp ->
  in_now inp <= in_capture_time inp <= in_sleep_now inp ->
  in_sleep_now inp < in_now inp + 5000 ->
  in_sleep_now inp < 2 ^ 32 ->
  Forall (fun ev => Forall (fun t => in_now inp <= t <= in_sleep_now inp) (event_times ev))
         (before_capture (in_ble_events inp) ++ before_photo (in_ble_events inp)
          ++ before_sleep (in_ble_events inp)) ->
  loop_app cfg inp st = Returned st' out ->
  out_sleep out = None.
Proof.
  intros Hnow Hcap Hshort Hrange Hev Hloop.
  destruct (loop_app_returned cfg inp st st' out Hloop)
    as (st2 & pin & st4 & audio & _ & _ & H).
  cbv zeta in H. destruct H as (_ & ->). cbn [out_sleep].
  apply Forall_app in Hev as (Hev8 & Hev9). apply Forall_app in Hev9 as (Hev9 & Hev10).
  set (ev := in_ble_events inp) in *.
  set (s10 := apply_events cfg (before_sleep ev) _).
  assert (Hfresh : fresh (in_now inp) (in_sleep_now inp) s10).
  { unfold s10.
    apply apply_events_fresh; [exact Hev10|].
    apply photo_section_fresh; [lia|].
    apply apply_events_fresh; [exact Hev9|].
    apply capture_section_fresh; [lia|].
    apply apply_events_fresh; [exact Hev8|].
    apply power_section_fresh. lia. }
  unfold sleep_section. destruct (_ && _); [|reflexivity].
  pose proof (enableLightSleep_recent (in_sleep_now inp) (in_wake_time inp) (a_link s10)
                (photoDataUploading (a_photo s10)) (a_capture s10) (a_power s10)) as Hrec.
  destruct (enableLightSleep _ _ _ _ _ _) as [pw slept]. cbn [snd] in *.
  apply Hrec. destruct (connected (a_link s10)) eqn:Ec; [right | left; reflexivity].
  specialize (Hfresh eq_refl). rewrite wrap32_small; lia.
Qed.

Lemma capture_section_power_save inp s :
  powerSaveMode (a_power (capture_section cfg inp s)) = powerSaveMode (a_power s).
Proof.
  unfold capture_section.
  pose proof (capture_check_power (in_now inp) (in_shot inp) (in_capture_time inp)
                (a_link s) (a_capture s) (a_photo s) (a_power s)) as (Hp & _).
  destruct (capture_check cfg _ _ _ _ _ _ _) as [[cap ph] pw]. exact Hp.
Qed.

Lemma photo_section_power_save inp s :
  powerSaveMode (a_power (fst (photo_section inp s))) = powerSaveMode (a_power s).
Proof.
  unfold photo_section.
  pose proof (photo_transfer_power (in_now inp) (a_link s) (a_tx s) (a_photo s) (a_power s))
    as (Hp & _).
  destruct (photo_transfer _ _ _ _ _) as [[ph pw] chunks]. exact Hp.
Qed.

Lemma sleep_section_power_save inp s :
  powerSaveMode (a_power (fst (sleep_section inp s))) = powerSaveMode (a_power s).
Proof.
  unfold sleep_section. destruct (_ && _); [|reflexivity].
  pose proof (enableLightSleep_power (in_sleep_now inp) (in_wake_time inp) (a_link s)
                (photoDataUploading (a_photo s)) (a_capture s) (a_power s)) as Hp.
  destruct (enableLightSleep _ _ _ _ _ _) as [pw slept]. exact Hp.
Qed.

(** X13. A pass in which the client is connected when the power-save
    evaluation of section 6 runs, or which starts with a photo upload
    in progress, ends with the device out of power save, whatever
    callbacks arrive before or after. A connection that arrives after
    section 6 does not leave power save in that pass. *)
Theorem connected_pass_leaves_power_save inp st st' out :
  connected (a_link (apply_events cfg (before_led (in_ble_events inp)
                                       ++ before_audio_tx (in_ble_events inp)
                                       ++ before_power (in_ble_events inp)) st)) = true
  \/ photoDataUploading (a_photo st) = true ->
  loop_app cfg inp st = Returned st' out ->
  powerSaveMode (a_power st') = false.
Proof.
  intros Hc Hloop.
  destruct (loop_app_returned cfg inp st st' out Hloop)
    as (st2 & pin & st4 & audio & E2 & E4 & H).
  cbv zeta in H. destruct H as (-> & _).
  pose proof (link_before_power cfg inp st st2 pin false st4 audio E2 E4) as Hlk.
  pose proof (photo_before_capture cfg inp st st2 pin false st4 audio E2 E4) as Hph.
  set (ev := in_ble_events inp) in *.
  set (s6 := apply_events cfg (before_power ev) st4) in *.
  assert (Hps : powerSaveMode (a_power (power_section cfg inp s6)) = false).
  { cbn [power_section a_power]. destruct Hc as [Hc | Hu].
    - rewrite Hlk, Hc. apply power_check_connected.
    - destruct (apply_events_keep cfg (before_power ev) st4) as (Ep & _).
      fold s6 in Ep. rewrite Ep, Hph, Hu. apply power_check_uploading. }
  destruct (apply_events_keep cfg (before_return ev)
              (fst (sleep_section inp (apply_events cfg (before_sleep ev)
                 (fst (photo_section inp (apply_events cfg (before_photo ev)
                    (capture_section cfg inp (apply_events cfg (before_capture ev)
                       (power_section cfg inp s6)))))))))) as (_ & _ & _ & _ & ->).
  rewrite sleep_section_power_save.
  destruct (apply_events_keep cfg (before_sleep ev)
              (fst (photo_section inp (apply_events cfg (before_photo ev)
                 (capture_section cfg inp (apply_events cfg (before_capture ev)
                    (power_section cfg inp s6))))))) as (_ & _ & _ & _ & ->).
  rewrite photo_section_power_save.
  destruct (apply_events_keep cfg (before_photo ev)
              (capture_section cfg inp (apply_events cfg (before_capture ev)
                 (power_section cfg inp s6)))) as (_ & _ & _ & _ & ->).
  rewrite capture_section_power_save.
  destruct (apply_events_keep cfg (before_capture ev) (power_section cfg inp s6))
    as (_ & _ & _ & _ & ->).
  exact Hps.
Qed.

Lemma to_int8_255 : to_int8 255 = -1.
Proof. reflexivity. Qed.

(** X14. A capture command takes effect at the next capture check made
    while connected and not uploading. After the single-shot byte 255
    or an interval byte from 5 to 127, written at time [t], the check
    at a time [now >= t] asks the camera at once; a delivered frame
    starts an upload from byte 0 and stamps the capture time, a failed
    capture starts none. After the single-shot byte capturing is off
    again in both cases, so a failed single shot is not retried; after
    an interval byte capturing stays on. *)
Theorem capture_command_takes_effect t0 t v now shot tc lk cap ph pw :
  v = 255 \/ 5 <= v <= 127 ->
  connected lk = true ->
  photoDataUploading ph = false ->
  0 <= t <= now ->
  0 < PHOTO_CAPTURE_INTERVAL_MS cfg ->
  now - t + PHOTO_CAPTURE_INTERVAL_MS cfg < 2 ^ 32 ->
  let cap' := fst (PhotoControl_onWrite cfg t0 t [v] cap pw) in
  let r := capture_check cfg now shot tc lk cap' ph pw in
  isCapturingPhotos (fst (fst r)) = negb (v =? 255) /\
  match shot with
  | Some img =>
      photoDataUploading (snd (fst r)) = true /\
      fb (snd (fst r)) = Some img /\
      sent_photo_bytes (snd (fst r)) = 0 /\
      sent_photo_frames (snd (fst r)) = 0 /\
      lastCaptureTime (fst (fst r)) = now
  | None =>
      photoDataUploading (snd (fst r)) = false /\
      fb (snd (fst r)) = None
  end.
Proof.
  intros Hv Hc Hu Ht Hint Hno_wrap cap' r. subst r cap'.
  unfold PhotoControl_onWrite. cbn [fst].
  destruct Hv as [-> | Hv].
  - rewrite to_int8_255. unfold handlePhotoControl. cbn [Z.eqb].
    unfold capture_check. cbn [isCapturingPhotos captureInterval lastCaptureTime].
    rewrite Hu, Hc. cbn [negb andb orb Z.eqb].
    unfold take_photo. destruct shot as [img|]; cbn; rewrite ?Hu; auto 10.
  - rewrite to_int8_small by lia.
    rewrite handlePhotoControl_interval by lia.
    unfold capture_check. cbn [isCapturingPhotos captureInterval lastCaptureTime].
    rewrite Hu, Hc. cbn [negb andb].
    assert (Hdue : (wrap32 (now - wrap32 (t - PHOTO_CAPTURE_INTERVAL_MS cfg))
                    >=? wrap32 (PHOTO_CAPTURE_INTERVAL_MS cfg)) = true).
    { unfold wrap32 at 1 2. rewrite Zminus_mod_idemp_r.
      replace (now - (t - PHOTO_CAPTURE_INTERVAL_MS cfg))
        with (now - t + PHOTO_CAPTURE_INTERVAL_MS cfg) by lia.
      rewrite Z.mod_small by lia. rewrite wrap32_small by lia.
      apply Z.geb_le. lia. }
    rewrite Hdue, orb_true_r.
    assert (Hv' : (v =? 255) = false) by (apply Z.eqb_neq; lia). rewrite Hv'.
    unfold take_photo.
    destruct (Z.eqb_spec (PHOTO_CAPTURE_INTERVAL_MS cfg) 0); [lia|].
    destruct shot as [img|]; cbn; rewrite ?Hu; auto 10.
Qed.

End LoopFacts.

(** An upload of [image_450] with 199 bytes sent: the audio waiting in
    the ring goes out first, then the pass sends the second chunk of
    the same image. *)
Lemma photo_session_invariant_witness :
  match App.loop_app small_config streaming_input uploading_app with
  | App.Returned st' out =>
      session_ok (App.a_photo st') /\
      App.fb (App.a_photo st') = Some image_450 /\
      App.sent_photo_bytes (App.a_photo st') = 399
  | _ => False
  end.
Proof.
  destruct (App.loop_app small_config streaming_input uploading_app)
    as [st' out | st0 pin |] eqn:E; try (vm_compute in E; discriminate).
  assert (Hok : session_ok (App.a_photo uploading_app)).
  { intros _. exists image_450. repeat split; vm_compute; congruence. }
  assert (Hshot : forall img, App.in_shot streaming_input = Some img ->
                              Z.of_nat (length img) < 2 ^ 32) by discriminate.
  destruct (photo_session_invariant small_config streaming_input uploading_app st' out
              Hok Hshot E) as (Hok' & _).
  split; [exact Hok'|].
  vm_compute in E. injection E as <- _. split; reflexivity.
Defined.

(** Connected, neither streaming nor uploading, idle for ten seconds
    and light sleep enabled: the pass still does not sleep, and it ends
    out of power save. *)
Lemma light_sleep_not_in_short_pass_witness :
  match App.loop_app small_config idle_input idle_app with
  | App.Returned st' out => App.out_sleep out = None
  | _ => False
  end.
Proof.
  destruct (App.loop_app small_config idle_input idle_app)
    as [st' out | st0 pin |] eqn:E; try (vm_compute in E; discriminate).
  apply (light_sleep_not_in_short_pass small_config idle_input idle_app st' out).
  - vm_compute. discriminate.
  - vm_compute. split; discriminate.
  - reflexivity.
  - reflexivity.
  - constructor.
  - exact E.
Defined.

Lemma connected_pass_leaves_power_save_witness :
  App.powerSaveMode (App.a_power idle_app) = true /\
  match App.loop_app small_config idle_input idle_app with
  | App.Returned st' out => App.powerSaveMode (App.a_power st') = false
  | _ => False
  end.
Proof.
  split; [reflexivity|].
  destruct (App.loop_app small_config idle_input idle_app)
    as [st' out | st0 pin |] eqn:E; try (vm_compute in E; discriminate).
  apply (connected_pass_leaves_power_save small_config idle_input idle_app st' out);
    [|exact E].
  left. reflexivity.
Defined.

(** A single shot asked for at 1000 ms with the camera failing at the
    check of 1010 ms: no upload starts and capturing is off. *)
Lemma capture_command_takes_effect_witness :
  let lk := App.mkLink true false true in
  let ph := App.mkPhoto false None 0 0 0 0 in
  let pw := App.mkPower 0 false true [] in
  let cap' := fst (App.PhotoControl_onWrite sample_config 1000 1000 [255]
                     (App.mkCapture false 0 0) pw) in
  let r := App.capture_check sample_config 1010 None 1010 lk cap' ph pw in
  App.isCapturingPhotos (fst (fst r)) = false /\
  App.photoDataUploading (snd (fst r)) = false /\
  App.fb (snd (fst r)) = None.
Proof.
  intros lk ph pw cap' r.
  apply (capture_command_takes_effect sample_config 1000 1000 255 1010 None 1010 lk
           (App.mkCapture false 0 0) ph pw).
  - left. reflexivity.
  - reflexivity.
  - reflexivity.
  - lia.
  - reflexivity.
  - reflexivity.
Defined.

(** A pass in which the shutdown animation has run its 800 ms: the
    device shuts down in section 2, and the audio waiting in the ring
    is not sent. *)
Example shutdown_pass_sends_nothing :
  let st :=
    App.mkApp (App.mkButton false 1000 1000 true true App.LED_POWER_OFF_SEQUENCE)
              (App.mkLink true true true)
              queued_ring
              (App.mkPhoto false None 0 0 0 0)
              (App.mkCapture true 30000 900)
              (App.mkPower 0 false true [])
              (App.mkLed 0 100) in
  exists st0,
    App.loop_app small_config streaming_input st = App.ShutDown st0 true /\
    App.a_tx st0 = queued_ring /\
    App.isCapturingPhotos (App.a_capture st0) = false.
Proof. eexists. split; [reflexivity|]. split; reflexivity. Qed.

(** A client that connects after section 6 has run: the pass ends with
    the client connected and the device still in power save. *)
Example connection_after_power_check_keeps_power_save :
  let st :=
    App.mkApp (App.mkButton false 0 0 false false App.LED_NORMAL_OPERATION)
              (App.mkLink false false true)
              (App.init_tx small_config)
              (App.mkPhoto false None 0 0 0 0)
              (App.mkCapture false 0 0)
              (App.mkPower 0 true true [40])
              (App.mkLed 0 0) in
  let inp :=
    App.mkInput 10000 10000 false 10001 []
                (App.mkSchedule [] [] [] [App.ServerOnConnect 10002] [] [] [])
                None 10002 10003 10003 1 in
  exists st' out,
    App.loop_app small_config inp st = App.Returned st' out /\
    App.connected (App.a_link st') = true /\
    App.powerSaveMode (App.a_power st') = true.
Proof. eexists _, _. split; [reflexivity|]. split; reflexivity. Qed.

(** [handleButton] reads the clock after the loop has read its own. A
    short press that wakes a disconnected device stamps the activity
    with the later reading; when the clock has advanced in between,
    section 6 finds the difference wrapped around, far beyond the idle
    threshold, and enters power save again in the same pass. With both
    readings equal the device stays awake. *)
Example short_press_wake_and_clock_tick :
  let st :=
    App.mkApp (App.mkButton false 1000 1000 true false App.LED_NORMAL_OPERATION)
              (App.mkLink false false true)
              (App.init_tx small_config)
              (App.mkPhoto false None 0 0 0 0)
              (App.mkCapture false 0 0)
              (App.mkPower 0 true true [40])
              (App.mkLed 0 0) in
  let pass button_now :=
    App.loop_app small_config
      (App.mkInput 5000 button_now false 5001 [] App.no_events None 5001 5001 5001 1) st in
  (exists st' out,
     pass 5001 = App.Returned st' out /\
     App.a_power st' = App.mkPower 5001 true true [40; 80; 40]) /\
  (exists st' out,
     pass 5000 = App.Returned st' out /\
     App.a_power st' = App.mkPower 5000 false true [40; 80]).
Proof. split; eexists _, _; split; reflexivity. Qed.



(** ** Battery report *)

Section BatteryFacts.
Import Battery.

Lemma smooth_step raw l :
  percent raw -> percent l ->
  exists p,
    smooth raw (Some l) = (Some p, p) /\ percent p /\
    Z.abs (p - l) <= 5 /\
    (Z.abs (raw - l) <= 5 -> p = raw) /\
    (5 < raw - l -> p = l + 2) /\
    (5 < l - raw -> p = l - 2).
Proof.
  unfold percent, smooth. intros Hr Hl.
  destruct (Z.gtb_spec (Z.abs (raw - l)) 5) as [Hfar | Hnear].
  - destruct (Z.gtb_spec raw l).
    + exists (l + 2).
      destruct (Z.gtb_spec (l + 2) 100); [lia|].
      destruct (Z.ltb_spec (l + 2) 0); [lia|].
      repeat split; try lia.
    + exists (l + -2).
      destruct (Z.gtb_spec (l + -2) 100); [lia|].
      destruct (Z.ltb_spec (l + -2) 0); [lia|].
      repeat split; try lia.
  - exists raw.
    destruct (Z.gtb_spec raw 100); [lia|].
    destruct (Z.ltb_spec raw 0); [lia|].
    repeat split; try lia.
Qed.

Lemma smooth_first raw :
  percent raw -> smooth raw None = (Some raw, raw).
Proof.
  unfold percent, smooth. intros Hr. rewrite Z.sub_diag.
  change (Z.abs 0 >? 5) with false. cbv iota.
  destruct (Z.gtb_spec raw 100); [lia|].
  destruct (Z.ltb_spec raw 0); [lia|]. reflexivity.
Qed.

Lemma battery_run_steps raws : forall l,
  percent l -> Forall percent raws ->
  length (fst (battery_run raws (Some l))) = length raws /\
  Forall percent (fst (battery_run raws (Some l))) /\
  (forall (k : nat) a b,
      (l :: fst (battery_run raws (Some l))) !! k = Some a ->
      (l :: fst (battery_run raws (Some l))) !! S k = Some b ->
      Z.abs (b - a) <= 5).
Proof.
  induction raws as [|raw rest IH]; intros l Hl Hall.
  - cbn. split; [reflexivity|]. split; [constructor|]. intros k a b _ H.
    destruct k; discriminate.
  - inversion Hall as [|? ? Hraw Hrest]; subst.
    destruct (smooth_step raw l Hraw Hl) as (p & Es & Hp & Hstep & _).
    cbn [battery_run]. rewrite Es.
    destruct (IH p Hp Hrest) as (Hlen & Hper & Hdiff).
    destruct (battery_run rest (Some p)) as [ps last2]. cbn [fst] in *.
    split; [simpl; lia|]. split; [constructor; assumption|].
    intros [|k] a b Ha Hb.
    + cbn in Ha, Hb. injection Ha as <-. injection Hb as <-. exact Hstep.
    + apply (Hdiff k a b); assumption.
Qed.

(** X15. The battery percentage is reported without jumps: over any
    sequence of readings between 0 and 100, every value
    [readBatteryLevel] leaves in [batteryPercentage] lies between 0 and
    100, the first one is the first reading, and each one differs from
    the one before by at most 5; the byte [updateBatteryService] writes
    to the characteristic is that value. *)
Theorem battery_reports_change_slowly raw raws :
  percent raw -> Forall percent raws ->
  let reports := fst (battery_run (raw :: raws) None) in
  length reports = S (length raws) /\
  reports !! 0%nat = Some raw /\
  Forall percent reports /\
  (forall (k : nat) a b,
      reports !! k = Some a -> reports !! S k = Some b -> Z.abs (b - a) <= 5) /\
  (forall c, Forall (fun p => updateBatteryService true c p = (Some p, c)) reports).
Proof.
  intros Hraw Hall reports. subst reports.
  cbn [battery_run]. rewrite (smooth_first raw Hraw).
  destruct (battery_run_steps raws raw Hraw Hall) as (Hlen & Hper & Hdiff).
  destruct (battery_run raws (Some raw)) as [ps last2]. cbn [fst] in *.
  assert (Hall' : Forall percent (raw :: ps)) by (constructor; assumption).
  split; [simpl; lia|]. split; [reflexivity|]. split; [exact Hall'|].
  split; [exact Hdiff|].
  intros c. eapply Forall_impl; [exact Hall'|].
  intros p Hp. unfold updateBatteryService, wrap8, percent in *.
  rewrite Z.mod_small; [reflexivity|]. change (2 ^ 8) with 256. lia.
Qed.

Lemma battery_run_constant n : forall r l,
  percent r -> percent l ->
  snd (battery_run (replicate (S n) r) (Some l))
  = Some (if Z.abs (r - l) <=? 2 * Z.of_nat n + 5 then r
          else if r >? l then l + 2 * (Z.of_nat n + 1)
          else l - 2 * (Z.of_nat n + 1)).
Proof.
  induction n as [|n IH]; intros r l Hr Hl.
  - cbn [replicate battery_run].
    destruct (smooth_step r l Hr Hl) as (p & Es & Hp & _ & Hnear & Hup & Hdown).
    rewrite Es. cbn [snd]. f_equal.
    change (2 * Z.of_nat 0 + 5) with 5. change (2 * (Z.of_nat 0 + 1)) with 2.
    destruct (Z.leb_spec (Z.abs (r - l)) 5); [apply Hnear; lia|].
    destruct (Z.gtb_spec r l); [apply Hup | apply Hdown]; lia.
  - change (replicate (S (S n)) r) with (r :: replicate (S n) r).
    cbn [battery_run].
    destruct (smooth_step r l Hr Hl) as (p & Es & Hp & _ & Hnear & Hup & Hdown).
    rewrite Es. specialize (IH r p Hr Hp).
    destruct (battery_run (replicate (S n) r) (Some p)) as [ps last2].
    cbn [snd] in *. rewrite IH. f_equal.
    unfold percent in *. rewrite Nat2Z.inj_succ.
    assert (Hcases : p = r /\ Z.abs (r - l) <= 5 \/ p = l + 2 /\ 5 < r - l
                     \/ p = l - 2 /\ 5 < l - r).
    { destruct (Z_le_gt_dec (Z.abs (r - l)) 5) as [Hn | Hf]; [left; auto|].
      destruct (Z_lt_le_dec l r).
      - right; left. split; [apply Hup|]; lia.
      - right; right. split; [apply Hdown|]; lia. }
    clear Es Hnear Hup Hdown IH.
    destruct Hcases as [[-> Hc] | [[-> Hc] | [-> Hc]]];
      repeat match goal with
             | |- context [?a <=? ?b] => destruct (Z.leb_spec a b)
             | |- context [?a >? ?b] => destruct (Z.gtb_spec a b)
             end; lia.
Qed.


Lemma battery_run_last raws : forall l,
  percent l -> Forall percent raws -> raws <> [] ->
  last (fst (battery_run raws (Some l))) = snd (battery_run raws (Some l)).
Proof.
  induction raws as [|raw rest IH]; intros l Hl Hall Hne; [contradiction|].
  inversion Hall as [|? ? Hraw Hrest]; subst.
  destruct (smooth_step raw l Hraw Hl) as (p & Es & Hp & _).
  cbn [battery_run]. rewrite Es.
  destruct rest as [|raw2 rest'].
  - reflexivity.
  - specialize (IH p Hp Hrest ltac:(discriminate)).
    destruct (battery_run (raw2 :: rest') (Some p)) as [ps last2] eqn:E.
    cbn [fst snd] in *.
    destruct ps as [|p2 ps'].
    + cbn [battery_run] in E. destruct (smooth raw2 (Some p)).
      destruct (battery_run rest' o). discriminate.
    + exact IH.
Qed.

(** X16. How fast the report follows the battery: when the reading
    jumps from the reported value [l] to [r] and stays there, the
    report moves by 2 per call of [readBatteryLevel] until it is within
    5 of [r], and takes the value [r] at the next call. After [n + 1]
    calls the report is [r] if [r] and [l] differ by at most
    [2 * n + 5], and [l] moved by [2 * (n + 1)] towards [r]
    otherwise. *)
Theorem battery_report_catches_up n r l :
  percent r -> percent l ->
  last (fst (battery_run (replicate (S n) r) (Some l)))
  = Some (if Z.abs (r - l) <=? 2 * Z.of_nat n + 5 then r
          else if r >? l then l + 2 * (Z.of_nat n + 1)
          else l - 2 * (Z.of_nat n + 1)).
Proof.
  intros Hr Hl.
  rewrite battery_run_last; [apply battery_run_constant; assumption | exact Hl | | discriminate].
  apply Forall_forall. intros x Hx. apply elem_of_replicate in Hx as [-> _]. exact Hr.
Qed.

End BatteryFacts.

Lemma battery_reports_change_slowly_witness :
  fst (Battery.battery_run [80; 79; 60; 60; 60] None) = [80; 79; 77; 75; 73] /\
  Forall Battery.percent (fst (Battery.battery_run [80; 79; 60; 60; 60] None)).
Proof.
  split; [reflexivity|].
  assert (Hraw : Battery.percent 80) by (unfold Battery.percent; lia).
  assert (Hall : Forall Battery.percent [79; 60; 60; 60])
    by (repeat constructor; unfold Battery.percent; lia).
  destruct (battery_reports_change_slowly 80 [79; 60; 60; 60] Hraw Hall) as (_ & _ & H & _).
  exact H.
Defined.

(** From 100 down to 0: 48 calls leave the report at 4, the 49th
    reports 0. *)
Lemma battery_report_catches_up_witness :
  last (fst (Battery.battery_run (replicate 48 0) (Some 100))) = Some 4 /\
  last (fst (Battery.battery_run (replicate 49 0) (Some 100))) = Some 0.
Proof.
  assert (H0 : Battery.percent 0) by (unfold Battery.percent; lia).
  assert (H100 : Battery.percent 100) by (unfold Battery.percent; lia).
  split.
  - rewrite (battery_report_catches_up 47 0 100 H0 H100). reflexivity.
  - rewrite (battery_report_catches_up 48 0 100 H0 H100). reflexivity.
Defined.


(** ** Commands of the firmware updater *)

Section OtaFacts.
Import Ota.
Variable lim : limits.

Lemma cstring_app_nul (str rest : list Z) :
  Forall (fun c => c <> 0) str -> cstring (str ++ 0 :: rest) = str.
Proof.
  induction 1 as [|c str Hc _ IH]; [reflexivity|].
  cbn [Datatypes.app cstring]. destruct (Z.eqb_spec c 0); [contradiction|].
  now rewrite IH.
Qed.

(** Storing a string that fits leaves it readable as a C string. *)
Lemma store_string_cstring dst str tail :
  Forall (fun c => c <> 0) str ->
  (length str < length dst)%nat ->
  cstring (store_string dst (str ++ tail) (Z.of_nat (length str))) = str /\
  length (store_string dst (str ++ tail) (Z.of_nat (length str))) = length dst.
Proof.
  intros Hnz Hfit. unfold store_string, aset. rewrite Nat2Z.id.
  rewrite take_app_length.
  split.
  - destruct (drop (length str) dst) as [|d rest] eqn:E.
    + apply (f_equal length) in E. rewrite length_drop in E. simpl in E. lia.
    + replace (<[length str:=0]> (str ++ d :: rest)) with (str ++ 0 :: rest).
      * apply cstring_app_nul, Hnz.
      * rewrite insert_app_r_alt by lia. rewrite Nat.sub_diag. reflexivity.
  - rewrite length_insert, length_app, length_drop. lia.
Qed.


Lemma aget_app_r (l m : list Z) (i : Z) :
  Z.of_nat (length l) <= i -> aget (l ++ m) i = aget m (i - Z.of_nat (length l)).
Proof.
  intros H. unfold aget. rewrite lookup_app_r by lia. do 2 f_equal. lia.
Qed.

Lemma drop_app_length' (l m : list Z) (n : nat) :
  n = length l -> drop n (l ++ m) = m.
Proof. intros ->. apply drop_app_length. Qed.

(** X17. A Wi-Fi command laid out as the protocol says, with a name and
    a password within the limits and free of NUL bytes, is accepted:
    both strings are stored as sent, the credentials are marked as set,
    IDLE is notified, no task is created and the URL is untouched. *)
Theorem ota_set_wifi_round_trip (ssid pass : list Z) s :
  sized lim s ->
  Z.of_nat (length ssid) <= WIFI_MAX_SSID_LEN lim ->
  Z.of_nat (length pass) <= WIFI_MAX_PASS_LEN lim ->
  Forall (fun c => c <> 0) ssid ->
  Forall (fun c => c <> 0) pass ->
  let r := ota_handle_command lim (set_wifi_command ssid pass) s in
  cstring (wifiSSID (fst (fst r))) = ssid /\
  cstring (wifiPassword (fst (fst r))) = pass /\
  wifiCredentialsSet (fst (fst r)) = true /\
  sized lim (fst (fst r)) /\
  otaStatus (fst (fst r)) = OTA_STATUS_IDLE /\
  snd (fst r)
  = (if otaDataCharacteristic s then [(OTA_STATUS_IDLE, default_progress lim)] else []) /\
  snd r = false /\
  firmwareURL (fst (fst r)) = firmwareURL s /\
  firmwareURLSet (fst (fst r)) = firmwareURLSet s /\
  otaTaskRunning (fst (fst r)) = otaTaskRunning s.
Proof.
  intros (Hs1 & Hs2 & Hs3) Hssid Hpass Hnz1 Hnz2 r. subst r.
  unfold ota_handle_command, set_wifi_command.
  cbn [Datatypes.app]. rewrite Z.eqb_refl.
  set (n := Z.of_nat (length ssid)) in *. set (m := Z.of_nat (length pass)) in *.
  assert (Hlen : Z.of_nat (length (OTA_CMD_SET_WIFI :: n :: ssid ++ m :: pass)) = 3 + n + m).
  { cbn [length]. rewrite length_app. cbn [length]. unfold n, m. lia. }
  rewrite Hlen.
  assert (Hn : 0 <= n) by (unfold n; lia). assert (Hm : 0 <= m) by (unfold m; lia).
  destruct (Z.ltb_spec (3 + n + m) 3); [lia|].
  change (aget (OTA_CMD_SET_WIFI :: n :: ssid ++ m :: pass) 1) with n.
  destruct (Z.gtb_spec n (WIFI_MAX_SSID_LEN lim)); [lia|].
  destruct (Z.ltb_spec (3 + n + m) (3 + n)); [lia|]. cbn [orb].
  assert (Epass : aget (OTA_CMD_SET_WIFI :: n :: ssid ++ m :: pass) (2 + n) = m).
  { change (OTA_CMD_SET_WIFI :: n :: ssid ++ m :: pass)
      with ([OTA_CMD_SET_WIFI; n] ++ (ssid ++ m :: pass)).
    rewrite aget_app_r by (cbn [length]; lia). cbn [length].
    rewrite aget_app_r by (unfold n; lia).
    replace (2 + n - Z.of_nat 2 - Z.of_nat (length ssid)) with 0 by (unfold n; lia).
    reflexivity. }
  rewrite Epass.
  destruct (Z.gtb_spec m (WIFI_MAX_PASS_LEN lim)); [lia|].
  destruct (Z.ltb_spec (3 + n + m) (3 + n + m)); [lia|]. cbn [orb].
  cbn [ota_notify_status fst snd wifiSSID wifiPassword wifiCredentialsSet otaStatus
       firmwareURL firmwareURLSet otaTaskRunning otaDataCharacteristic otaProgress
       otaCancelled].
  change (drop 2 (OTA_CMD_SET_WIFI :: n :: ssid ++ m :: pass)) with (ssid ++ m :: pass).
  assert (Edrop : drop (Z.to_nat (3 + n)) (OTA_CMD_SET_WIFI :: n :: ssid ++ m :: pass)
                  = pass ++ []).
  { replace (OTA_CMD_SET_WIFI :: n :: ssid ++ m :: pass)
      with (([OTA_CMD_SET_WIFI; n] ++ ssid ++ [m]) ++ pass)
      by (cbn [Datatypes.app]; rewrite <- app_assoc; reflexivity).
    rewrite app_nil_r. apply drop_app_length'.
    rewrite !length_app. cbn [length]. unfold n. lia. }
  rewrite Edrop.
  destruct (store_string_cstring (wifiSSID s) ssid (m :: pass) Hnz1) as (Hc1 & Hl1);
    [unfold n in *; lia|].
  destruct (store_string_cstring (wifiPassword s) pass [] Hnz2) as (Hc2 & Hl2);
    [unfold m in *; lia|].
  fold n in Hc1, Hl1. fold m in Hc2, Hl2.
  repeat split; try assumption; try reflexivity;
    cbn [wifiSSID wifiPassword firmwareURL]; rewrite ?Hl1, ?Hl2; assumption.
Qed.


(** X18. A Wi-Fi command whose name is in order but whose password
    length is over the limit, or larger than what follows it, is
    answered with ERROR and creates no task; the password and the mark
    that credentials are set stay as they were, but the name has
    already been replaced by the one of the rejected command. *)
Theorem ota_set_wifi_rejected_keeps_new_ssid (ssid rest : list Z) passLen s :
  sized lim s ->
  Z.of_nat (length ssid) <= WIFI_MAX_SSID_LEN lim ->
  Forall (fun c => c <> 0) ssid ->
  WIFI_MAX_PASS_LEN lim < passLen \/ Z.of_nat (length rest) < passLen ->
  let data := [OTA_CMD_SET_WIFI; Z.of_nat (length ssid)] ++ ssid ++ passLen :: rest in
  let r := ota_handle_command lim data s in
  cstring (wifiSSID (fst (fst r))) = ssid /\
  wifiPassword (fst (fst r)) = wifiPassword s /\
  wifiCredentialsSet (fst (fst r)) = wifiCredentialsSet s /\
  otaStatus (fst (fst r)) = OTA_STATUS_ERROR /\
  snd (fst r)
  = (if otaDataCharacteristic s then [(OTA_STATUS_ERROR, default_progress lim)] else []) /\
  snd r = false.
Proof.
  intros (Hs1 & Hs2 & Hs3) Hssid Hnz Hbad data r. subst r data.
  unfold ota_handle_command.
  cbn [Datatypes.app]. rewrite Z.eqb_refl.
  set (n := Z.of_nat (length ssid)) in *.
  assert (Hlen : Z.of_nat (length (OTA_CMD_SET_WIFI :: n :: ssid ++ passLen :: rest))
                 = 3 + n + Z.of_nat (length rest)).
  { cbn [length]. rewrite length_app. cbn [length]. unfold n. lia. }
  rewrite Hlen.
  assert (Hn : 0 <= n) by (unfold n; lia).
  destruct (Z.ltb_spec (3 + n + Z.of_nat (length rest)) 3); [lia|].
  change (aget (OTA_CMD_SET_WIFI :: n :: ssid ++ passLen :: rest) 1) with n.
  destruct (Z.gtb_spec n (WIFI_MAX_SSID_LEN lim)); [lia|].
  destruct (Z.ltb_spec (3 + n + Z.of_nat (length rest)) (3 + n)); [lia|]. cbn [orb].
  assert (Epass : aget (OTA_CMD_SET_WIFI :: n :: ssid ++ passLen :: rest) (2 + n) = passLen).
  { change (OTA_CMD_SET_WIFI :: n :: ssid ++ passLen :: rest)
      with ([OTA_CMD_SET_WIFI; n] ++ (ssid ++ passLen :: rest)).
    rewrite aget_app_r by (cbn [length]; lia). cbn [length].
    rewrite aget_app_r by (unfold n; lia).
    replace (2 + n - Z.of_nat 2 - Z.of_nat (length ssid)) with 0 by (unfold n; lia).
    reflexivity. }
  rewrite Epass.
  assert (Hrej : (passLen >? WIFI_MAX_PASS_LEN lim)
                 || (3 + n + Z.of_nat (length rest) <? 3 + n + passLen) = true).
  { apply orb_true_iff. destruct Hbad; [left; apply Z.gtb_lt | right; apply Z.ltb_lt]; lia. }
  rewrite Hrej.
  cbn [ota_notify_status fst snd wifiSSID wifiPassword wifiCredentialsSet otaStatus
       otaDataCharacteristic].
  change (drop 2 (OTA_CMD_SET_WIFI :: n :: ssid ++ passLen :: rest))
    with (ssid ++ passLen :: rest).
  destruct (store_string_cstring (wifiSSID s) ssid (passLen :: rest) Hnz) as (Hc1 & _);
    [unfold n in *; lia|].
  fold n in Hc1. repeat split; try assumption; reflexivity.
Qed.

Lemma decode_big_endian n :
  0 <= n < 65536 ->
  wrap16 (Z.lor (Z.shiftl (Z.shiftr n 8) 8) (Z.land n 255)) = n.
Proof.
  intros Hn.
  assert (Hhi : Z.shiftr n 8 = Z.land (Z.shiftr n 8) 255).
  { change 255 with (Z.ones 8). rewrite Z.land_ones by lia.
    rewrite Z.shiftr_div_pow2 by lia. change (2 ^ 8) with 256.
    symmetry. apply Z.mod_small.
    split; [apply Z.div_pos; lia | apply Z.div_lt_upper_bound; lia]. }
  rewrite Hhi, Z.lor_comm, decode_uint16 by exact Hn.
  unfold wrap16. apply Z.mod_small. change (2 ^ 16) with 65536. exact Hn.
Qed.

(** X19. A URL command laid out as the protocol says, the length as two
    bytes with the high one first, with a URL within the limit and free
    of NUL bytes, and possibly more bytes after the URL, is accepted
    whenever at least one byte follows the three header bytes: exactly
    the announced bytes are stored as the URL, it is marked as set,
    IDLE is notified, and the Wi-Fi credentials are untouched. So a
    command that announces an empty URL and carries a further byte is
    accepted and marks the empty URL as set. Only the bare header of
    three bytes is answered with ERROR, URL and mark staying as they
    were. *)
Theorem ota_set_url_round_trip (url trailing : list Z) s :
  sized lim s ->
  Z.of_nat (length url) <= OTA_MAX_URL_LEN lim ->
  OTA_MAX_URL_LEN lim < 65536 ->
  Forall (fun c => c <> 0) url ->
  let r := ota_handle_command lim (set_url_command url ++ trailing) s in
  (url ++ trailing <> [] ->
   cstring (firmwareURL (fst (fst r))) = url /\
   firmwareURLSet (fst (fst r)) = true /\
   sized lim (fst (fst r)) /\
   otaStatus (fst (fst r)) = OTA_STATUS_IDLE /\
   snd r = false /\
   wifiSSID (fst (fst r)) = wifiSSID s /\
   wifiPassword (fst (fst r)) = wifiPassword s /\
   wifiCredentialsSet (fst (fst r)) = wifiCredentialsSet s) /\
  (url ++ trailing = [] ->
   otaStatus (fst (fst r)) = OTA_STATUS_ERROR /\
   firmwareURLSet (fst (fst r)) = firmwareURLSet s /\
   firmwareURL (fst (fst r)) = firmwareURL s).
Proof.
  intros (Hs1 & Hs2 & Hs3) Hlen Hmax Hnz r. subst r.
  unfold ota_handle_command, set_url_command.
  cbn [Datatypes.app]. change (OTA_CMD_SET_URL =? OTA_CMD_SET_WIFI) with false.
  cbv iota. rewrite Z.eqb_refl.
  set (n := Z.of_nat (length url)) in *.
  assert (Hn : 0 <= n) by (unfold n; lia).
  assert (Hl : Z.of_nat (length (OTA_CMD_SET_URL :: Z.shiftr n 8 :: Z.land n 255
                                   :: url ++ trailing))
               = 3 + n + Z.of_nat (length trailing)).
  { cbn [length]. rewrite length_app. unfold n. lia. }
  rewrite Hl. split.
  - intros Hne.
    assert (0 < n + Z.of_nat (length trailing)).
    { unfold n. rewrite <- Nat2Z.inj_add, <- length_app.
      destruct (url ++ trailing); [contradiction | simpl; lia]. }
    destruct (Z.ltb_spec (3 + n + Z.of_nat (length trailing)) 4); [lia|].
    change (aget (OTA_CMD_SET_URL :: Z.shiftr n 8 :: Z.land n 255 :: url ++ trailing) 1)
      with (Z.shiftr n 8).
    change (aget (OTA_CMD_SET_URL :: Z.shiftr n 8 :: Z.land n 255 :: url ++ trailing) 2)
      with (Z.land n 255).
    rewrite decode_big_endian by lia.
    destruct (Z.gtb_spec n (OTA_MAX_URL_LEN lim)); [lia|].
    destruct (Z.ltb_spec (3 + n + Z.of_nat (length trailing)) (3 + n)); [lia|]. cbn [orb].
    cbn [ota_notify_status fst snd wifiSSID wifiPassword wifiCredentialsSet otaStatus
         firmwareURL firmwareURLSet].
    change (drop 3 (OTA_CMD_SET_URL :: Z.shiftr n 8 :: Z.land n 255 :: url ++ trailing))
      with (url ++ trailing).
    destruct (store_string_cstring (firmwareURL s) url trailing Hnz) as (Hc & Hlu);
      [unfold n in *; lia|].
    fold n in Hc, Hlu.
    repeat split; try assumption; try reflexivity;
      cbn [wifiSSID wifiPassword firmwareURL]; rewrite ?Hlu; assumption.
  - intros E. apply app_eq_nil in E as (-> & ->). cbn. auto.
Qed.

Lemma ota_handle_command_flags data s :
  let r := ota_handle_command lim data s in
  (wifiCredentialsSet s = true -> wifiCredentialsSet (fst (fst r)) = true) /\
  (firmwareURLSet s = true -> firmwareURLSet (fst (fst r)) = true) /\
  (otaTaskRunning s = true -> otaTaskRunning (fst (fst r)) = true /\ snd r = false) /\
  (otaTaskRunning s = false ->
   (snd r = true /\ otaTaskRunning (fst (fst r)) = true /\
    wifiCredentialsSet (fst (fst r)) = true /\ firmwareURLSet (fst (fst r)) = true)
   \/ (snd r = false /\ otaTaskRunning (fst (fst r)) = false)).
Proof.
  cbv zeta. unfold ota_handle_command, ota_cancel, ota_notify_status.
  destruct data as [|command rest]; [cbn; repeat split; auto|].
  destruct (command =? OTA_CMD_SET_WIFI).
  { destruct (_ <? 3); [cbn; auto 6|].
    destruct (_ || _); [cbn; auto 6|].
    destruct (_ || _); cbn; auto 6. }
  destruct (command =? OTA_CMD_SET_URL).
  { destruct (_ <? 4); [cbn; auto 6|].
    destruct (_ || _); cbn; auto 6. }
  destruct (command =? OTA_CMD_START_OTA).
  { destruct (wifiCredentialsSet s) eqn:Ew; [|cbn; auto 6].
    destruct (firmwareURLSet s) eqn:Eu; [|cbn; auto 6].
    destruct (otaTaskRunning s) eqn:Er; cbn; rewrite ?Ew, ?Eu, ?Er; auto 8. }
  destruct (command =? OTA_CMD_CANCEL_OTA).
  { destruct (otaTaskRunning s) eqn:Er; cbn; rewrite ?Er; auto 6. }
  destruct (command =? OTA_CMD_GET_STATUS); cbn; auto 6.
Qed.

Lemma ota_run_tasks writes : forall s,
  let r := ota_run lim writes s in
  (otaTaskRunning s = true ->
   snd r = 0%nat /\ otaTaskRunning (fst (fst r)) = true) /\
  (otaTaskRunning s = false ->
   (snd r = 1%nat /\ otaTaskRunning (fst (fst r)) = true /\
    wifiCredentialsSet (fst (fst r)) = true /\ firmwareURLSet (fst (fst r)) = true)
   \/ (snd r = 0%nat /\ otaTaskRunning (fst (fst r)) = false)) /\
  (wifiCredentialsSet s = true -> wifiCredentialsSet (fst (fst r)) = true) /\
  (firmwareURLSet s = true -> firmwareURLSet (fst (fst r)) = true).
Proof.
  induction writes as [|data rest IH]; intros s; cbv zeta.
  - cbn. repeat split; auto.
  - cbn [ota_run].
    pose proof (ota_handle_command_flags data s) as Hstep. cbv zeta in Hstep.
    destruct (ota_handle_command lim data s) as [[s1 sent] created].
    cbn [fst snd] in Hstep. destruct Hstep as (Hw & Hu & Hrun & Hidle).
    specialize (IH s1). cbv zeta in IH.
    destruct (ota_run lim rest s1) as [[s2 more] n].
    cbn [fst snd] in *. destruct IH as (IHrun & IHidle & IHw & IHu).
    split; [|split; [|split]].
    + intros Hr. destruct (Hrun Hr) as (Hr1 & ->).
      destruct (IHrun Hr1) as (-> & Hr2). auto.
    + intros Hr. destruct (Hidle Hr) as [(-> & Hr1 & Hw1 & Hu1) | (-> & Hr1)].
      * destruct (IHrun Hr1) as (-> & Hr2). left. auto.
      * destruct (IHidle Hr1) as [(-> & H) | (-> & H)]; [left | right]; auto.
    + auto.
    + auto.
Qed.

(** X20. However many commands the client writes, and in whatever
    order, while no update task is running at the start and none ends
    meanwhile, at most one update task is created; one is created
    exactly when the run ends with an update in progress, and then both
    the Wi-Fi credentials and the URL have been set. *)
Theorem ota_creates_at_most_one_task writes s :
  otaTaskRunning s = false ->
  let r := ota_run lim writes s in
  (snd r <= 1)%nat /\
  (snd r = 1%nat <-> otaTaskRunning (fst (fst r)) = true) /\
  (snd r = 1%nat ->
   wifiCredentialsSet (fst (fst r)) = true /\ firmwareURLSet (fst (fst r)) = true).
Proof.
  intros Hidle r. subst r.
  destruct (ota_run_tasks writes s) as (_ & H & _). cbv zeta in H.
  destruct (H Hidle) as [(Hn & Hr & Hw & Hu) | (Hn & Hr)]; rewrite Hn, Hr.
  - repeat split; auto.
  - repeat split; try lia; try discriminate.
Qed.

End OtaFacts.

(** The name [home] and the password [pw]. *)
Lemma ota_set_wifi_round_trip_witness :
  let r := Ota.ota_handle_command Ota.sample_limits
             [1; 4; 104; 111; 109; 101; 2; 112; 119]
             (Ota.init_ota Ota.sample_limits true) in
  Ota.cstring (Ota.wifiSSID (fst (fst r))) = [104; 111; 109; 101] /\
  Ota.cstring (Ota.wifiPassword (fst (fst r))) = [112; 119] /\
  Ota.wifiCredentialsSet (fst (fst r)) = true.
Proof.
  intros r.
  destruct (ota_set_wifi_round_trip Ota.sample_limits [104; 111; 109; 101] [112; 119]
              (Ota.init_ota Ota.sample_limits true))
    as (H1 & H2 & H3 & _).
  - repeat split.
  - vm_compute. discriminate.
  - vm_compute. discriminate.
  - repeat constructor; discriminate.
  - repeat constructor; discriminate.
  - split; [exact H1|]. split; [exact H2 | exact H3].
Defined.

(** After [home] and [pw] have been set, a command with the name [ab]
    and a password length of 200 is rejected: the device is left with
    the name [ab], the password [pw] and the credentials marked as
    set. *)
Lemma ota_set_wifi_rejected_keeps_new_ssid_witness :
  let s := fst (fst (Ota.ota_handle_command Ota.sample_limits
                       [1; 4; 104; 111; 109; 101; 2; 112; 119]
                       (Ota.init_ota Ota.sample_limits true))) in
  let r := Ota.ota_handle_command Ota.sample_limits [1; 2; 97; 98; 200; 120] s in
  Ota.cstring (Ota.wifiSSID (fst (fst r))) = [97; 98] /\
  Ota.cstring (Ota.wifiPassword (fst (fst r))) = [112; 119] /\
  Ota.wifiCredentialsSet (fst (fst r)) = true /\
  snd (fst r) = [(255, 0)].
Proof.
  intros s r.
  destruct (ota_set_wifi_rejected_keeps_new_ssid Ota.sample_limits [97; 98] [120] 200 s)
    as (H1 & H2 & H3 & _ & H5 & _).
  - repeat split.
  - vm_compute. discriminate.
  - repeat constructor; discriminate.
  - left. reflexivity.
  - split; [exact H1|]. split; [reflexivity|]. split; [reflexivity | exact H5].
Defined.

(** The URL [http], sent with the length bytes 0 and 4; and a command
    that announces no URL byte but carries one more byte. *)
Lemma ota_set_url_round_trip_witness :
  let r := Ota.ota_handle_command Ota.sample_limits [5; 0; 4; 104; 116; 116; 112]
             (Ota.init_ota Ota.sample_limits true) in
  let e := Ota.ota_handle_command Ota.sample_limits [5; 0; 0; 120]
             (Ota.init_ota Ota.sample_limits true) in
  (Ota.cstring (Ota.firmwareURL (fst (fst r))) = [104; 116; 116; 112] /\
   Ota.firmwareURLSet (fst (fst r)) = true) /\
  (Ota.cstring (Ota.firmwareURL (fst (fst e))) = [] /\
   Ota.firmwareURLSet (fst (fst e)) = true).
Proof.
  intros r e. split.
  - destruct (ota_set_url_round_trip Ota.sample_limits [104; 116; 116; 112] []
                (Ota.init_ota Ota.sample_limits true)) as (H & _).
    + repeat split.
    + vm_compute. discriminate.
    + reflexivity.
    + repeat constructor; discriminate.
    + destruct (H ltac:(discriminate)) as (H1 & H2 & _). split; [exact H1 | exact H2].
  - destruct (ota_set_url_round_trip Ota.sample_limits [] [120]
                (Ota.init_ota Ota.sample_limits true)) as (H & _).
    + repeat split.
    + vm_compute. discriminate.
    + reflexivity.
    + constructor.
    + destruct (H ltac:(discriminate)) as (H1 & H2 & _). split; [exact H1 | exact H2].
Defined.

(** START before anything is set, after the credentials only, and three
    times after the URL as well, then CANCEL: one task is created. *)
Lemma ota_creates_at_most_one_task_witness :
  let writes := [[2]; [1; 4; 104; 111; 109; 101; 2; 112; 119]; [2];
                 [5; 0; 4; 104; 116; 116; 112]; [2]; [2]; [2]; [3]] in
  let r := Ota.ota_run Ota.sample_limits writes (Ota.init_ota Ota.sample_limits true) in
  snd r = 1%nat /\
  snd (fst r) = [(255, 0); (0, 0); (255, 0); (0, 0)] /\
  Ota.otaCancelled (fst (fst r)) = true /\
  Ota.wifiCredentialsSet (fst (fst r)) = true /\
  Ota.firmwareURLSet (fst (fst r)) = true.
Proof.
  intros writes r.
  destruct (ota_creates_at_most_one_task Ota.sample_limits writes
              (Ota.init_ota Ota.sample_limits true)) as (_ & _ & H).
  - reflexivity.
  - split; [reflexivity|]. split; [reflexivity|]. split; [reflexivity|].
    apply H. reflexivity.
Defined.
